(** * markov-gen: the MarkovGenerator class of src/lib/markov.ts

    A shallow embedding of the trainer ([buildRawModel], [applyWeighting]),
    of the sampler ([selectChoice]) and of the public operations
    ([generate], [generateList]), followed by the properties of the
    specification that concern them.

    Conventions of the embedding.
    - A JavaScript string is the list of its UTF-16 code units
      ([jsstring]); [length], [slice] and the regular expression of the
      tokenizer all work on code units, as they do in the source.
    - A JavaScript object used as a dictionary is the list of its own
      properties in creation order ([jsobj]); [Object_keys] computes the
      order in which [Object.keys] and [for ... in] enumerate them.
      Lookups see own properties only: the names a lookup would inherit
      from [Object.prototype] have two code units or more and are not
      decimal numbers, so that they are never the name of a category or
      of a choice of a trained model (see [category_ok]).
    - The numbers of the program hold counts, weights and lengths; they
      are embedded as exact integers ([N], and [Z] for what [parseInt]
      returns, with [None] for [NaN]).  Sums and products are the exact
      ones, as they are in double precision for the integers below
      [2 ^ 53]; [Math.floor(Math.pow(count, 1.3))] is the integer part
      of the double nearest to the power of the count by the double
      [1.3] ([weightedCount]): [Math.pow] is taken to round to the
      nearest double.
    - [Math.random] reads an explicit random source: an infinite stream
      of values of the interval [0, 1) and the position of the next value
      to hand out.
    - A call that throws ends with [Thrown] and its message, a call that
      returns ends with [Returned] and its value ([completion]). *)

From Stdlib Require Import List Bool Arith ZArith NArith PArith QArith Qround Lia.
From Stdlib Require Import Ascii String DecimalString DecimalN.
From Stdlib Require Import Permutation.
Import ListNotations.
Close Scope Q_scope.

(** * The program *)

(** ** Strings *)

(** One UTF-16 code unit. *)
Definition code_unit := N.

Definition jsstring := list code_unit.

Definition str_eq_dec (a b : jsstring) : {a = b} + {a <> b} :=
  list_eq_dec N.eq_dec a b.

Definition str_eqb (a b : jsstring) : bool :=
  if str_eq_dec a b then true else false.

(** An ASCII literal of the source text as a [jsstring]. *)
Definition lit (s : string) : jsstring :=
  List.map N_of_ascii (list_ascii_of_string s).

(** [s.length]. *)
Definition str_length (s : jsstring) : N := N.of_nat (List.length s).

(** [s.slice(i, j)] for [0 <= i <= j]. *)
Definition slice (s : jsstring) (i j : nat) : jsstring :=
  firstn (j - i) (skipn i s).

(** Truthiness of a string: only the empty string is falsy. *)
Definition truthy (s : jsstring) : bool :=
  match s with [] => false | _ :: _ => true end.

(** The characters matched by [\s] (and skipped by [parseInt]):
    WhiteSpace and LineTerminator of ECMAScript. *)
Definition is_space (c : code_unit) : bool :=
  ((9 <=? c) && (c <=? 13)        (* TAB LF VT FF CR *)
   || (c =? 32)                   (* SPACE *)
   || (c =? 160)                  (* NBSP *)
   || (c =? 5760)                 (* U+1680 *)
   || ((8192 <=? c) && (c <=? 8202))  (* U+2000 .. U+200A *)
   || (c =? 8232) || (c =? 8233)  (* U+2028 U+2029 *)
   || (c =? 8239) || (c =? 8287)  (* U+202F U+205F *)
   || (c =? 12288)                (* U+3000 *)
   || (c =? 65279))%N.            (* U+FEFF *)

Definition is_digit (c : code_unit) : bool := ((48 <=? c) && (c <=? 57))%N.

Definition digit_value (c : code_unit) : N := (c - 48)%N.

(** The value of a run of decimal digits, most significant first. *)
Definition digits_value (ds : jsstring) : N :=
  fold_left (fun acc c => (10 * acc + digit_value c)%N) ds 0%N.

(** [String(n)] for a non-negative integer [n]. *)
Definition of_N (n : N) : jsstring :=
  lit (NilEmpty.string_of_uint (N.to_uint n)).

(** [s.split(/\s+/)]: the pieces between maximal runs of white space.
    [cur] is the piece being read, in reverse; [in_gap] tells that the
    previous code unit was white space. *)
Fixpoint split_ws_from (cur : jsstring) (in_gap : bool) (s : jsstring)
  : list jsstring :=
  match s with
  | [] => [rev cur]
  | c :: s' =>
      if is_space c then
        if in_gap then split_ws_from cur true s'
        else rev cur :: split_ws_from [] true s'
      else split_ws_from (c :: cur) false s'
  end.

Definition split_ws (s : jsstring) : list jsstring :=
  split_ws_from [] false s.

(** [terms.join(' ')]. *)
Fixpoint join_space (terms : list jsstring) : jsstring :=
  match terms with
  | [] => []
  | [t] => t
  | t :: rest => t ++ 32%N :: join_space rest
  end.

(** [parseInt(s, 10)]: leading white space is skipped, one sign is
    read, then the longest run of decimal digits; [None] is [NaN]. *)
Fixpoint skip_space (s : jsstring) : jsstring :=
  match s with
  | c :: s' => if is_space c then skip_space s' else s
  | [] => []
  end.

Fixpoint take_digits (s : jsstring) : jsstring :=
  match s with
  | c :: s' => if is_digit c then c :: take_digits s' else []
  | [] => []
  end.

Definition parseInt (s : jsstring) : option Z :=
  let s1 := skip_space s in
  let '(negative, s2) :=
    match s1 with
    | c :: rest =>
        if (c =? 45)%N then (true, rest)          (* '-' *)
        else if (c =? 43)%N then (false, rest)    (* '+' *)
        else (false, s1)
    | [] => (false, s1)
    end in
  match take_digits s2 with
  | [] => None
  | ds => let v := Z.of_N (digits_value ds) in
          Some (if negative then (- v)%Z else v)
  end.

(** ** Objects used as dictionaries *)

(** Own properties, in creation order.  Keys are pairwise distinct in
    every object built with [obj_set] from [obj_empty]. *)
Definition jsobj (V : Type) := list (jsstring * V).

Definition obj_empty {V} : jsobj V := [].

(** [o[k]], [None] standing for [undefined]. *)
Fixpoint obj_get {V} (o : jsobj V) (k : jsstring) : option V :=
  match o with
  | [] => None
  | (k', v) :: o' => if str_eqb k' k then Some v else obj_get o' k
  end.

(** [o[k] = v]: an existing property keeps its place, a new one is
    created after the others. *)
Fixpoint obj_set {V} (o : jsobj V) (k : jsstring) (v : V) : jsobj V :=
  match o with
  | [] => [(k, v)]
  | (k', v') :: o' =>
      if str_eqb k' k then (k', v) :: o' else (k', v') :: obj_set o' k v
  end.

(** Keys in creation order. *)
Definition insertion_order {V} (o : jsobj V) : list jsstring :=
  List.map fst o.

(** An array index is a canonical numeric string below [2^32 - 1]:
    decimal digits, no leading zero unless the string is "0". *)
Definition array_index (k : jsstring) : option N :=
  match k with
  | [] => None
  | c :: rest =>
      if forallb is_digit k
         && (negb (c =? 48)%N || match rest with [] => true | _ => false end)
         && (List.length k <=? 10)%nat
         && (digits_value k <? 4294967295)%N
      then Some (digits_value k)
      else None
  end.

Definition is_array_index (k : jsstring) : bool :=
  match array_index k with Some _ => true | None => false end.

Definition index_value (k : jsstring) : N :=
  match array_index k with Some n => n | None => 0%N end.

(** Ascending order of the array indices. *)
Fixpoint insert_index (k : jsstring) (ks : list jsstring) : list jsstring :=
  match ks with
  | [] => [k]
  | k' :: ks' =>
      if (index_value k <=? index_value k')%N then k :: ks
      else k' :: insert_index k ks'
  end.

Fixpoint sort_indices (ks : list jsstring) : list jsstring :=
  match ks with
  | [] => []
  | k :: ks' => insert_index k (sort_indices ks')
  end.

(** [Object.keys(o)], which is also the order of [for (k in o)] over
    own properties: array indices in ascending numeric order, then the
    other keys in creation order. *)
Definition Object_keys {V} (o : jsobj V) : list jsstring :=
  let ks := insertion_order o in
  sort_indices (filter is_array_index ks)
    ++ filter (fun k => negb (is_array_index k)) ks.

(** ** The model *)

(** [interface FrequencyMap]: a choice and its count or weight. *)
Definition FrequencyMap := jsobj N.

(** [interface RawModel]: the categories, keyed by their name. *)
Definition RawModel := jsobj FrequencyMap.

(** [interface WeightTotalsMap]. *)
Definition WeightTotalsMap := jsobj N.

(** [interface WeightedModel]: the object of the raw model with one more
    property, [selectionWeights]. *)
Record WeightedModel := {
  categories : RawModel;
  selectionWeights : WeightTotalsMap
}.

Definition termCount : jsstring := lit "termCount".
Definition termLength : jsstring := lit "termLength".
Definition initialUnit : jsstring := lit "initialUnit".
Definition selectionWeights_key : jsstring := lit "selectionWeights".

(** [model[category]] on a weighted model.  The object is flat: the name
    [selectionWeights] reads the totals, which have the shape of a
    frequency map. *)
Definition model_get (model : WeightedModel) (category : jsstring)
  : option FrequencyMap :=
  if str_eqb category selectionWeights_key then Some (selectionWeights model)
  else obj_get (categories model) category.

(** ** Model Builder: [buildRawModel] *)

(** The [string | number] argument of [increment]. *)
Inductive choice_arg :=
| ChoiceString (s : jsstring)
| ChoiceNumber (n : N).

(** [String(choice)]. *)
Definition String_of (choice : choice_arg) : jsstring :=
  match choice with
  | ChoiceString s => s
  | ChoiceNumber n => of_N n
  end.

(** [x || 0] for a count that may be [undefined]. *)
Definition or_zero (x : option N) : N :=
  match x with Some n => n | None => 0%N end.

Definition increment (model : RawModel) (category : jsstring)
    (choice : choice_arg) : RawModel :=
  let choiceStr := String_of choice in
  if negb (truthy choiceStr) then model
  else
    let model :=
      match obj_get model category with
      | None => obj_set model category obj_empty
      | Some _ => model
      end in
    match obj_get model category with
    | Some categoryMap =>
        obj_set model category
          (obj_set categoryMap choiceStr
             (or_zero (obj_get categoryMap choiceStr) + 1)%N)
    | None => model
    end.

(** The loop [for (let i = 1; i < term.length; i++)] of the trainer;
    [n] counts the iterations that remain. *)
Fixpoint transitions (model : RawModel) (term previousUnit : jsstring)
    (i n : nat) : RawModel :=
  match n with
  | O => model
  | S n' =>
      let currentUnit := slice term i (i + 1) in
      transitions (increment model previousUnit (ChoiceString currentUnit))
        term currentUnit (S i) n'
  end.

(** The body of [for (const term of terms)]. *)
Definition train_term (model : RawModel) (term : jsstring) : RawModel :=
  let model := increment model termLength (ChoiceNumber (str_length term)) in
  let initial := slice term 0 1 in
  if negb (truthy initial) then model
  else
    let model := increment model initialUnit (ChoiceString initial) in
    transitions model term initial 1 (List.length term - 1).

(** [sequence.split(/\s+/).filter((t) => t.length > 0)]. *)
Definition tokenize (sequence : jsstring) : list jsstring :=
  filter (fun t => (0 <? str_length t)%N) (split_ws sequence).

(** The body of [for (const sequence of sourceSequences)]. *)
Definition train_sequence (model : RawModel) (sequence : jsstring)
  : RawModel :=
  if negb (truthy sequence) then model
  else
    let terms := tokenize sequence in
    if (List.length terms =? 0)%nat then model
    else
      fold_left train_term terms
        (increment model termCount
           (ChoiceNumber (N.of_nat (List.length terms)))).

Definition initial_model : RawModel :=
  [(termCount, obj_empty); (termLength, obj_empty); (initialUnit, obj_empty)].

Definition buildRawModel (sourceSequences : list jsstring) : RawModel :=
  fold_left train_sequence sourceSequences initial_model.

(** ** Weighting Stage: [applyWeighting] *)

(** The integer tenth root, bit by bit from bit [b - 1] down: the
    largest [r] with [r ^ 10 <= n]. *)
Fixpoint root10_bits (n r : N) (b : nat) : N :=
  match b with
  | O => r
  | S b' =>
      let r' := (r + 2 ^ N.of_nat b')%N in
      root10_bits n (if (r' ^ 10 <=? n)%N then r' else r) b'
  end.

Definition root10 (n : N) : N := root10_bits n 0 (N.to_nat (N.size n)).

(** ** Double precision: [Math.floor(Math.pow(count, 1.3))] *)

(** The literal [1.3] of the source is the double
    [5854679515581645 / 2 ^ 52], a little above 13/10. *)
Definition exponent_num : positive := 5854679515581645.

Definition exponent_den : positive := 4503599627370496.

(** The integer part of [count ^ (13/10)], in exact arithmetic. *)
Definition exact_floor (count : N) : N := root10 (count ^ 13).

(** Numbers [m * 2 ^ e] with a mantissa of [precision] bits at most:
    the pair [(m, e)]. *)
Definition precision : N := 128.

Definition value (x : N * N) : N := (fst x * 2 ^ snd x)%N.

(** Rounding to [precision] bits, towards zero and away from it. *)
Definition round_below (x : N * N) : N * N :=
  let s := (N.size (fst x) - precision)%N in
  (N.shiftr (fst x) s, (snd x + s)%N).

Definition round_above (x : N * N) : N * N :=
  let s := (N.size (fst x) - precision)%N in
  if (s =? 0)%N then x else ((N.shiftr (fst x) s + 1)%N, (snd x + s)%N).

Definition mul_below (a b : N * N) : N * N :=
  round_below ((fst a * fst b)%N, (snd a + snd b)%N).

Definition mul_above (a b : N * N) : N * N :=
  round_above ((fst a * fst b)%N, (snd a + snd b)%N).

(** [x ^ p] by squaring, every product rounded by [mul]. *)
Fixpoint pow_with (mul : N * N -> N * N -> N * N) (x : N * N) (p : positive)
  : N * N :=
  match p with
  | xH => x
  | xO q => let h := pow_with mul x q in mul h h
  | xI q => let h := pow_with mul x q in mul (mul h h) x
  end.

(** [m1 * 2 ^ e1 <= m2 * 2 ^ e2], without writing a long shift out. *)
Definition approx_leb (a b : N * N) : bool :=
  let '(m1, e1) := a in
  let '(m2, e2) := b in
  if (e1 <=? e2)%N then
    let d := (e2 - e1)%N in
    if (m2 =? 0)%N then (m1 =? 0)%N
    else if (N.size m1 <=? d)%N then true
    else (m1 <=? N.shiftl m2 d)%N
  else
    let d := (e1 - e2)%N in
    if (m1 =? 0)%N then true
    else if (N.size m2 <=? d)%N then false
    else (N.shiftl m1 d <=? m2)%N.

Definition scale54 (den : positive) (x : N * N) : N * N :=
  (fst x, (snd x + 54 * N.pos den)%N).

(** [a / 2 ^ 54 <= n ^ (num / den)], that is
    [a ^ den <= n ^ num * 2 ^ (54 * den)], decided without computing
    these powers: first by the tenth powers, when [a / 2 ^ 54] is far
    above [n ^ (13/10)] (for an exponent with [10 * num = 13 * den + 2]);
    then by bounds of [precision] bits on both sides; the powers
    themselves are compared only when the bounds do not tell. *)
Definition at_least (num den : positive) (n a : N) : bool :=
  let X := (a ^ 10)%N in
  let Y := N.shiftl (n ^ 13) 540 in
  if (Y * (n * n) <=? N.pos den * (X - Y))%N then false
  else if approx_leb (pow_with mul_above (a, 0%N) den)
            (scale54 den (pow_with mul_below (n, 0%N) num))
  then true
  else if approx_leb (pow_with mul_below (a, 0%N) den)
            (scale54 den (pow_with mul_above (n, 0%N) num))
  then (a ^ N.pos den <=? n ^ N.pos num * 2 ^ (54 * N.pos den))%N
  else false.

(** The integers that are doubles have 53 significant bits.  The next
    one after [c]: [c + 1] below [2 ^ 53], and [c] plus the spacing of
    the doubles from there on. *)
Definition next_double (c : N) : N := (c + 2 ^ (N.size c - 53))%N.

(** The point half way between [next_double c] and the double just
    below it (an integer or not), in units of [2 ^ -54]: a number at or
    above it is nearer to [next_double c], or to a double above, than to
    any double below. *)

Definition half_way (c : N) : N :=
  (2 ^ 54 * next_double c - 2 ^ N.size c)%N.

(** The last integer double at or below [t]. *)
Definition round_down53 (t : N) : N :=
  let s := (N.size t - 53)%N in N.shiftl (N.shiftr t s) s.

(** From the double [c], which the nearest double of the power is known
    to reach, up to the last double that it reaches: [2 ^ depth] steps
    at most; the result tells whether the last one was found. *)
Fixpoint climb (num den : positive) (n : N) (depth : nat) (c : N)
  : N * bool :=
  match depth with
  | O =>
      if at_least num den n (half_way c) then (next_double c, false)
      else (c, true)
  | S d =>
      let '(c', found) := climb num den n d c in
      if found then (c', true) else climb num den n d c'
  end.

(** [Math.floor(Math.pow(count, num / den))] for a count and an
    exponent [num / den] of 13/10 or a little more: the integer part of
    the double nearest to the power.  ECMAScript leaves the accuracy of
    [Math.pow] to the engine; the result is taken to be the nearest
    double.  The search starts from the integer part of
    [count ^ (13/10)], which the power is not below. *)
Definition floor_pow (num den : positive) (count : N) : N :=
  match count with
  | 0%N => 0%N
  | _ =>
      fst (climb num den count (N.to_nat (2 * N.size count + 2))
             (round_down53 (exact_floor count)))
  end.

(** [Math.floor(Math.pow(count, 1.3))]. *)
Definition weightedCount (count : N) : N :=
  floor_pow exponent_num exponent_den count.

(** The body of the inner loop [for (const choice in frequencyMap)]: the
    state is the map of the category, updated in place, and the totals. *)
Definition weigh_choice (category : jsstring)
    (st : FrequencyMap * WeightTotalsMap) (choice : jsstring)
  : FrequencyMap * WeightTotalsMap :=
  let '(frequencyMap, weights) := st in
  match obj_get frequencyMap choice with
  | None => st
  | Some count =>
      let weighted := weightedCount count in
      (obj_set frequencyMap choice weighted,
       obj_set weights category
         (or_zero (obj_get weights category) + weighted)%N)
  end.

(** The body of [for (const category in model)]. *)
Definition weigh_category (st : RawModel * WeightTotalsMap)
    (category : jsstring) : RawModel * WeightTotalsMap :=
  let '(model, weights) := st in
  let weights := obj_set weights category 0%N in
  match obj_get model category with
  | None => (model, weights)
  | Some frequencyMap =>
      let '(frequencyMap', weights') :=
        fold_left (weigh_choice category) (Object_keys frequencyMap)
          (frequencyMap, weights) in
      (obj_set model category frequencyMap', weights')
  end.

Definition applyWeighting (model : RawModel) : WeightedModel :=
  let '(model', weights) :=
    fold_left weigh_category (Object_keys model) (model, obj_empty) in
  {| categories := model'; selectionWeights := weights |}.

(** ** The constructor *)

Definition MarkovGenerator (sourceSequences : list jsstring) : WeightedModel :=
  if (List.length sourceSequences =? 0)%nat then
    {| categories := initial_model; selectionWeights := obj_empty |}
  else applyWeighting (buildRawModel sourceSequences).

(** ** The random source *)

(** A value of the interval [0, 1): the fraction
    [ui_num / (ui_num + ui_gap)]. *)
Record unit_interval := {
  ui_num : N;
  ui_gap : positive
}.

(** [Math.floor(u * totalWeight)]. *)
Definition randomIndex (u : unit_interval) (totalWeight : N) : N :=
  ((ui_num u * totalWeight) / (ui_num u + Npos (ui_gap u)))%N.

(** The values [Math.random()] returns, call after call. *)
Definition random_source := nat -> unit_interval.

(** A computation that draws from the random source: it is given the
    source and the number of values drawn so far, and returns its result
    with the new number. *)
Definition Rand (A : Type) := random_source -> nat -> A * nat.

Definition ret {A} (a : A) : Rand A := fun _ pos => (a, pos).

Definition bind {A B} (c : Rand A) (k : A -> Rand B) : Rand B :=
  fun src pos => let '(a, pos') := c src pos in k a src pos'.

Notation "x <- c ;; k" := (bind c (fun x => k))
  (at level 61, c at next level, right associativity).

Definition Math_random : Rand unit_interval :=
  fun src pos => (src pos, S pos).

(** ** Sequence Sampler *)

(** The loop [for (const choice of choices)] of [selectChoice], with the
    statement that follows it: [Some] is the choice returned from inside
    the loop, [None] means the loop ran to its end. *)
Fixpoint walk_choices (frequencyMap : FrequencyMap) (randomIndex : N)
    (accumulatedWeight : N) (choices : list jsstring) : option jsstring :=
  match choices with
  | [] => None
  | choice :: rest =>
      let accumulatedWeight :=
        (accumulatedWeight + or_zero (obj_get frequencyMap choice))%N in
      if (randomIndex <? accumulatedWeight)%N then Some choice
      else walk_choices frequencyMap randomIndex accumulatedWeight rest
  end.

(** [choices[choices.length - 1] || false]. *)
Definition last_or_false (choices : list jsstring) : option jsstring :=
  match rev choices with
  | [] => None
  | c :: _ => if truthy c then Some c else None
  end.

(** [selectChoice]: [None] is the result [false]. *)
Definition selectChoice (model : WeightedModel) (category : jsstring)
  : Rand (option jsstring) :=
  let weights := selectionWeights model in
  match obj_get weights category with
  | None => ret None
  | Some totalWeight =>
      if (totalWeight <=? 0)%N then ret None
      else
        match model_get model category with
        | None => ret None
        | Some frequencyMap =>
            let choices := Object_keys frequencyMap in
            if (List.length choices =? 0)%nat then ret None
            else
              u <- Math_random ;;
              let randomIndex := randomIndex u totalWeight in
              match walk_choices frequencyMap randomIndex 0 choices with
              | Some choice => ret (Some choice)
              | None => ret (last_or_false choices)
              end
        end
  end.

(** [x || dflt] for the result of [selectChoice]. *)
Definition or_default (x : option jsstring) (dflt : jsstring) : jsstring :=
  match x with
  | Some s => if truthy s then s else dflt
  | None => dflt
  end.

(** [!x] for the result of [selectChoice]. *)
Definition falsy (x : option jsstring) : bool :=
  match x with
  | Some s => negb (truthy s)
  | None => true
  end.

(** How a call ends: with a value, or with a thrown [Error] and its
    message. *)
Inductive completion (A : Type) :=
| Returned (a : A)
| Thrown (message : jsstring).

Arguments Returned {A} a.
Arguments Thrown {A} message.

Definition generate_error : jsstring :=
  lit "No initial or invalid term length".

(** [termLength <= 0] on what [parseInt] returned; false on [NaN]. *)
Definition non_positive (n : option Z) : bool :=
  match n with Some z => (z <=? 0)%Z | None => false end.

(** [currentTerm.length < termLength]; false on [NaN]. *)
Definition shorter_than (currentTerm : jsstring) (n : option Z) : bool :=
  match n with
  | Some z => (Z.of_N (str_length currentTerm) <? z)%Z
  | None => false
  end.

(** The loop [while (currentTerm.length < termLength)].  Every round
    appends a non-empty string, so [fuel] rounds are enough as soon as
    [fuel] is at least [termLength - currentTerm.length]
    (see [grow_term_loop]). *)
Fixpoint grow_term (model : WeightedModel) (termLength : option Z)
    (fuel : nat) (currentTerm previousUnit : jsstring) : Rand jsstring :=
  match fuel with
  | O => ret currentTerm
  | S fuel' =>
      if shorter_than currentTerm termLength then
        nextUnit <- selectChoice model previousUnit ;;
        match nextUnit with
        | Some next =>
            if truthy next then
              grow_term model termLength fuel' (currentTerm ++ next) next
            else ret currentTerm
        | None => ret currentTerm
        end
      else ret currentTerm
  end.

(** The number of rounds of a loop [for (i = 0; i < n; i++)]; none when
    [n] is [NaN] or is not positive. *)
Definition rounds (n : option Z) : nat :=
  match n with Some z => Z.to_nat z | None => O end.

(** The body of the loop over the terms: the term it pushes, or the
    error it throws. *)
Definition generate_term (model : WeightedModel) : Rand (completion jsstring) :=
  termLengthStr <- selectChoice model termLength ;;
  let termLength := parseInt (or_default termLengthStr (lit "6")) in
  initial <- selectChoice model initialUnit ;;
  if falsy initial || non_positive termLength then
    ret (Thrown generate_error)
  else
    let initial := or_default initial [] in
    currentTerm <- grow_term model termLength (rounds termLength) initial initial ;;
    ret (Returned currentTerm).

(** The loop [for (let i = 0; i < termCount; i++)]; [terms] is the array
    filled so far, [n] counts the rounds that remain. *)
Fixpoint generate_terms (model : WeightedModel) (n : nat)
    (terms : list jsstring) : Rand (completion (list jsstring)) :=
  match n with
  | O => ret (Returned terms)
  | S n' =>
      term <- generate_term model ;;
      match term with
      | Thrown e => ret (Thrown e)
      | Returned currentTerm =>
          generate_terms model n' (terms ++ [currentTerm])
      end
  end.

Definition generate (model : WeightedModel) : Rand (completion jsstring) :=
  termCountStr <- selectChoice model termCount ;;
  let termCount := parseInt (or_default termCountStr (lit "1")) in
  terms <- generate_terms model (rounds termCount) [] ;;
  match terms with
  | Thrown e => ret (Thrown e)
  | Returned terms => ret (Returned (join_space terms))
  end.

(** [Math.max(0, Math.floor(count))] for a finite [count]. *)
Definition numToGenerate (count : Q) : nat :=
  Z.to_nat (Z.max 0 (Qfloor count)).

(** The loop of [generateList]; [results] is the array [list] of the
    source, [n] counts the rounds that remain. *)
Fixpoint generate_loop (model : WeightedModel) (n : nat)
    (results : list jsstring) : Rand (completion (list jsstring)) :=
  match n with
  | O => ret (Returned results)
  | S n' =>
      item <- generate model ;;
      match item with
      | Thrown e => ret (Thrown e)
      | Returned s => generate_loop model n' (results ++ [s])
      end
  end.

Definition generateList (model : WeightedModel) (count : Q)
  : Rand (completion (list jsstring)) :=
  generate_loop model (numToGenerate count) [].

(** * The vocabulary of the properties *)

(** ** Sums of weights *)

(** The frequency map with every leaf re-weighted. *)
Definition weigh_map (fm : FrequencyMap) : FrequencyMap :=
  List.map (fun kv => (fst kv, weightedCount (snd kv))) fm.

(** The sum of the leaf values of a frequency map. *)
Definition total_weight (fm : FrequencyMap) : N :=
  fold_right N.add 0%N (List.map snd fm).

(** The sum of the values of the choices [ks], in a frequency map. *)
Definition cumulative (fm : FrequencyMap) (ks : list jsstring) : N :=
  fold_right (fun k acc => (or_zero (obj_get fm k) + acc)%N) 0%N ks.

(** The leaf of choice [k] in category [c]. *)
Definition leaf (model : RawModel) (c k : jsstring) : option N :=
  match obj_get model c with
  | Some fm => obj_get fm k
  | None => None
  end.

(** [choice] is the first of [order] whose cumulative weight is above
    [r]: the weights before it sum to at most [r], and to more than [r]
    with its own. *)
Definition first_exceeding (order : list jsstring) (fm : FrequencyMap)
    (r : N) (choice : jsstring) : Prop :=
  exists pre post,
    order = pre ++ choice :: post
    /\ (cumulative fm pre <= r < cumulative fm pre + or_zero (obj_get fm choice))%N.

(** ** What the training data holds *)

(** The terms of the training data [sourceSequences]. *)
Definition training_term (sourceSequences : list jsstring) (term : jsstring)
  : Prop :=
  exists sequence, In sequence sourceSequences /\ In term (tokenize sequence).

(** [ch] is the first code unit of a term of [seen]. *)
Definition initial_of (seen : jsstring -> Prop) (ch : code_unit) : Prop :=
  exists term rest, seen term /\ term = ch :: rest.

(** [ch] comes right after [p] in a term of [seen]. *)
Definition transition_of (seen : jsstring -> Prop) (p ch : code_unit) : Prop :=
  exists term pre post, seen term /\ term = pre ++ p :: ch :: post.

(** [ch] was seen in the training data as the first unit of a term, or
    right after some unit of a term. *)
Definition observed (sourceSequences : list jsstring) (ch : code_unit)
  : Prop :=
  initial_of (training_term sourceSequences) ch
  \/ exists p, transition_of (training_term sourceSequences) p ch.

(** The names of the categories: the three fixed ones and the strings
    of one code unit. *)
Definition category_ok (c : jsstring) : Prop :=
  c = termCount \/ c = termLength \/ c = initialUnit \/ exists p, c = [p].

(** The choices of [initialUnit] and of the categories of one code
    unit. *)
Definition choice_ok (seen : jsstring -> Prop) (c k : jsstring) : Prop :=
  (c = initialUnit -> exists ch, k = [ch] /\ initial_of seen ch)
  /\ (forall p, c = [p] -> exists ch, k = [ch] /\ transition_of seen p ch).

(** Every category of a model has distinct choices. *)
Definition distinct_choices (model : RawModel) : Prop :=
  forall c fm, obj_get model c = Some fm -> NoDup (insertion_order fm).

(** The invariant of the raw model during training on the terms
    [seen]. *)
Record raw_inv (seen : jsstring -> Prop) (model : RawModel) : Prop := {
  inv_nodup : NoDup (insertion_order model);
  inv_distinct : distinct_choices model;
  inv_positive :
    forall c fm k n,
      obj_get model c = Some fm -> obj_get fm k = Some n -> (1 <= n)%N;
  inv_fixed :
    In termCount (insertion_order model)
    /\ In termLength (insertion_order model)
    /\ In initialUnit (insertion_order model);
  inv_categories :
    forall c, In c (insertion_order model) -> category_ok c;
  inv_choices :
    forall c fm k,
      obj_get model c = Some fm -> In k (insertion_order fm) ->
      choice_ok seen c k
}.

(** ** Rounds of a loop *)

(** [n] rounds of a body that returns a string or throws, the results
    pushed on [acc]; the loop ends at the first round that throws. *)
Fixpoint push_loop (body : Rand (completion jsstring)) (n : nat)
    (acc : list jsstring) : Rand (completion (list jsstring)) :=
  match n with
  | O => ret (Returned acc)
  | S n' =>
      x <- body ;;
      match x with
      | Thrown e => ret (Thrown e)
      | Returned s => push_loop body n' (acc ++ [s])
      end
  end.

(** [rounds_return body src n pos results pos']: [n] rounds of the body
    in a row, the first at position [pos] of the random source, all
    return; [results] are their strings in the order of the rounds and
    [pos'] is the position they leave. *)
Inductive rounds_return (body : Rand (completion jsstring))
    (src : random_source) : nat -> nat -> list jsstring -> nat -> Prop :=
| rounds_none pos : rounds_return body src 0 pos [] pos
| rounds_next n pos s pos1 results pos2 :
    body src pos = (Returned s, pos1) ->
    rounds_return body src n pos1 results pos2 ->
    rounds_return body src (S n) pos (s :: results) pos2.

(** [n] calls of [generate] in a row that all return. *)
Definition generate_calls (m : WeightedModel) :=
  rounds_return (generate m).

(** The rounds the loop can still make: every round adds a code unit at
    least. *)
Definition rounds_needed (termLength : option Z) (currentTerm : jsstring)
  : nat :=
  match termLength with
  | Some z => Z.to_nat (z - Z.of_N (str_length currentTerm))
  | None => O
  end.

(** ** Random sources *)

Definition agree_on (src1 src2 : random_source) (lo hi : nat) : Prop :=
  forall i, (lo <= i < hi)%nat -> src1 i = src2 i.

(** A computation is [local] when its outcome only depends on the values
    it draws. *)
Definition local {A} (c : Rand A) : Prop :=
  forall src1 pos a pos',
    c src1 pos = (a, pos') ->
    (pos <= pos')%nat
    /\ forall src2, agree_on src1 src2 pos pos' -> c src2 pos = (a, pos').

(** Every index below the total is drawn by some value of [0, 1). *)
Definition draw_of (r total : N) : unit_interval :=
  {| ui_num := r; ui_gap := N.succ_pos (N.pred (total - r)) |}.

Definition always (u : unit_interval) : random_source := fun _ => u.
Definition zero_draw : unit_interval := {| ui_num := 0; ui_gap := 1 |}.

Definition half_draw : unit_interval := {| ui_num := 1; ui_gap := 1 |}.

(** The second draw is one half, the others are zero. *)
Definition second_half : random_source :=
  fun i => if (i =? 1)%nat then half_draw else zero_draw.

(** A random source with the first four values of [second_half]. *)
Definition second_half_then_half : random_source :=
  fun i => if (i <? 4)%nat then second_half i else half_draw.

(** ** Models for the examples *)

(** The totals the weighting stage computes for the empty raw model. *)
Definition zero_weights : WeightTotalsMap :=
  [(termCount, 0%N); (termLength, 0%N); (initialUnit, 0%N)].

(** A model with an entry of weight 0, put together by hand. *)
Definition zero_entry_model : WeightedModel :=
  {| categories :=
       [(termCount, obj_empty); (termLength, obj_empty);
        (initialUnit, [(lit "a", 0%N); (lit "b", 2%N)])];
     selectionWeights := [(initialUnit, 2%N)] |}.

(** A model put together by hand: two terms per sequence, and a term
    length that is 0 or 1. *)
Definition short_model : WeightedModel :=
  {| categories :=
       [(termCount, [(lit "2", 1%N)]);
        (termLength, [(lit "1", 1%N); (lit "0", 1%N)]);
        (initialUnit, [(lit "a", 1%N)])];
     selectionWeights :=
       [(termCount, 1%N); (termLength, 2%N); (initialUnit, 1%N)] |}.

(** ** More vocabulary: tokens and counts *)

(** A string without white space. *)
Definition space_free (s : jsstring) : bool :=
  forallb (fun c => negb (is_space c)) s.

(** The string without its white space. *)
Definition remove_spaces (s : jsstring) : jsstring :=
  filter (fun c => negb (is_space c)) s.

(** The count of choice [k] in category [c] of a raw model; 0 when the
    model has no such leaf. *)
Definition count_of (model : RawModel) (c k : jsstring) : N :=
  or_zero (leaf model c k).

(** The terms of the training data, in order, with their repetitions. *)
Definition all_terms (sourceSequences : list jsstring) : list jsstring :=
  flat_map tokenize sourceSequences.

(** [term] starts with the unit [ch]. *)
Definition starts_with (ch : code_unit) (term : jsstring) : bool :=
  match term with
  | c :: _ => (c =? ch)%N
  | [] => false
  end.

(** The number of places of [term] where [ch] comes right after [p]. *)
Fixpoint adjacent_count (p ch : code_unit) (term : jsstring) : nat :=
  match term with
  | [] => O
  | a :: rest =>
      (match rest with
       | b :: _ => if (a =? p)%N && (b =? ch)%N then 1 else 0
       | [] => 0
       end + adjacent_count p ch rest)%nat
  end.

(** The number of elements of [l] that satisfy [f]. *)
Definition count_if {A} (f : A -> bool) (l : list A) : N :=
  N.of_nat (List.length (filter f l)).

(** The (category, choice) pairs the trainer records, in the order of
    its calls of [increment]: for the transitions of a term after the
    unit [p], for a term, for a source string and for the training
    data. *)
Fixpoint pairs_trace (p : code_unit) (rest : jsstring)
  : list (jsstring * jsstring) :=
  match rest with
  | [] => []
  | c :: rest' => ([p], [c]) :: pairs_trace c rest'
  end.

Definition term_trace (term : jsstring) : list (jsstring * jsstring) :=
  (termLength, of_N (str_length term))
  :: match term with
     | [] => []
     | ch :: rest => (initialUnit, [ch]) :: pairs_trace ch rest
     end.

Definition sequence_trace (sequence : jsstring)
  : list (jsstring * jsstring) :=
  match tokenize sequence with
  | [] => []
  | terms =>
      (termCount, of_N (N.of_nat (List.length terms)))
      :: flat_map term_trace terms
  end.

Definition training_trace (sourceSequences : list jsstring)
  : list (jsstring * jsstring) :=
  flat_map sequence_trace sourceSequences.

(** One recorded pair. *)
Definition record_choice (model : RawModel) (entry : jsstring * jsstring)
  : RawModel :=
  increment model (fst entry) (ChoiceString (snd entry)).

(** The number of times the pair of [c] and [k] is in a trace. *)
Definition trace_count (trace : list (jsstring * jsstring))
    (c k : jsstring) : nat :=
  List.length
    (filter (fun e => str_eqb (fst e) c && str_eqb (snd e) k) trace).

(** What the trainer saw in the training data, as a pair of a category
    and a choice: a source string with that number of terms, a term of
    that length, a term that starts with that unit, or a unit right
    after another in a term. *)
Definition recorded (sourceSequences : list jsstring) (c k : jsstring)
  : Prop :=
  (c = termCount
   /\ exists sequence,
        In sequence sourceSequences
        /\ tokenize sequence <> []
        /\ k = of_N (N.of_nat (List.length (tokenize sequence))))
  \/ (c = termLength
      /\ exists term,
           training_term sourceSequences term
           /\ k = of_N (str_length term))
  \/ (c = initialUnit
      /\ exists ch,
           k = [ch] /\ initial_of (training_term sourceSequences) ch)
  \/ (exists p ch,
        c = [p] /\ k = [ch]
        /\ transition_of (training_term sourceSequences) p ch).

(** A term that follows the chain of the training data: it starts with
    the first unit of a term of the training data, and each of its units
    comes right after the one before it somewhere in a term of the
    training data. *)
Definition chain_like (sourceSequences : list jsstring) (term : jsstring)
  : Prop :=
  (exists ch rest,
      term = ch :: rest /\ initial_of (training_term sourceSequences) ch)
  /\ (forall pre a b post,
         term = pre ++ a :: b :: post ->
         transition_of (training_term sourceSequences) a b).

(** What [generate] gives for a term on the model of the training data:
    a term that follows the chain and is not longer than some term of
    the training data. *)
Definition plausible_term (sourceSequences : list jsstring)
    (term : jsstring) : Prop :=
  chain_like sourceSequences term
  /\ exists trained,
       training_term sourceSequences trained
       /\ (List.length term <= List.length trained)%nat.

(** What [selectChoice] returns when the index it computes from its
    draw is [r]. *)
Definition select_at (m : WeightedModel) (c : jsstring) (r total : N)
  : option jsstring :=
  fst (selectChoice m c (always (draw_of r total)) 0).

(** The indices [0], ..., [total - 1]. *)
Definition indices (total : N) : list N :=
  List.map N.of_nat (seq 0 (N.to_nat total)).

(** The result of [selectChoice] is the choice [k]. *)
Definition is_choice (k : jsstring) (x : option jsstring) : bool :=
  match x with
  | Some k' => str_eqb k' k
  | None => false
  end.

(** * The page: [generateNew] of routes/+page.svelte

    The state of the page is the record of its [$state] variables; a
    [SvelteSet] of strings is the list of its elements in the order of
    their insertion.  [console.error] is left out. *)

Module Page.

Definition termAttemptLimit : nat := 500.

(** [type CategoryData]. *)
Record CategoryData := {
  name : jsstring;
  model : WeightedModel
}.

Record State := {
  customText : jsstring;
  currentCategory : option CategoryData;
  currentGenerated : list jsstring;
  termAttempts : nat;
  termCount : Q;
  requestedTermCount : Q
}.

(** [customText.split(/\s+/).filter((word) => word.length > 0)]. *)
Definition customData (st : State) : list jsstring :=
  tokenize (customText st).

(** [set.add(x)]. *)
Definition set_add (x : jsstring) (set : list jsstring) : list jsstring :=
  if existsb (str_eqb x) set then set else set ++ [x].

(** [newTerms.size <= requestedTermCount - 1]. *)
Definition more_wanted (newTerms : list jsstring) (requested : Q) : bool :=
  Qle_bool (inject_Z (Z.of_nat (List.length newTerms))) (requested - 1).

(** The loop [while (newTerms.size <= requestedTermCount - 1 &&
    termAttempts < termAttemptLimit)] inside [try]: its result is the
    set when the loop ends, or the error that was thrown, with the value
    of [termAttempts] at that point.  Every round adds one to
    [termAttempts], so [fuel] rounds are enough as soon as [fuel] is at
    least [termAttemptLimit - termAttempts]. *)
Fixpoint generateNew_loop (m : WeightedModel) (requested : Q) (fuel : nat)
    (newTerms : list jsstring) (attempts : nat)
  : Rand (completion (list jsstring) * nat) :=
  match fuel with
  | O => ret (Returned newTerms, attempts)
  | S fuel' =>
      if more_wanted newTerms requested && (attempts <? termAttemptLimit)%nat
      then
        term <- generate m ;;
        match term with
        | Thrown e => ret (Thrown e, attempts)
        | Returned s =>
            generateNew_loop m requested fuel' (set_add s newTerms)
              (S attempts)
        end
      else ret (Returned newTerms, attempts)
  end.

(** [String(err)] for the [Error] with the message [e]. *)
Definition Error_toString (e : jsstring) : jsstring :=
  match e with
  | [] => lit "Error"
  | _ => lit "Error: " ++ e
  end.

(** The template [`Error: could not generate based on model/data
    (${err})`]. *)
Definition error_message (e : jsstring) : jsstring :=
  lit "Error: could not generate based on model/data ("
  ++ Error_toString e ++ lit ")".

Definition generateNew (st : State) : Rand State :=
  match currentCategory st with
  | None => ret st
  | Some category =>
      let requested := termCount st in
      let m :=
        if str_eqb (name category) (lit "Custom")
        then MarkovGenerator (customData st)
        else model category in
      result <- generateNew_loop m requested termAttemptLimit [] 0 ;;
      let '(outcome, attempts) := result in
      match outcome with
      | Thrown e =>
          ret {| customText := customText st;
                 currentCategory := currentCategory st;
                 currentGenerated := [error_message e];
                 termAttempts := attempts;
                 termCount := termCount st;
                 requestedTermCount := requested |}
      | Returned newTerms =>
          ret {| customText := customText st;
                 currentCategory := currentCategory st;
                 currentGenerated := newTerms;
                 termAttempts := attempts;
                 termCount := termCount st;
                 requestedTermCount := requested |}
      end
  end.

End Page.

(** A state of the page: the category Custom, a text and a number of
    terms to ask for. *)
Definition demo_state (text : jsstring) (count : Q) : Page.State :=
  {| Page.customText := text;
     Page.currentCategory :=
       Some {| Page.name := lit "Custom"; Page.model := MarkovGenerator [] |};
     Page.currentGenerated := [];
     Page.termAttempts := 0;
     Page.termCount := count;
     Page.requestedTermCount := 0 |}.

(** No unit comes after [q] in a term of the training data. *)
Definition dead_end (sourceSequences : list jsstring) (q : code_unit)
  : Prop :=
  forall ch, ~ transition_of (training_term sourceSequences) q ch.

(** A generated term is full when it has the length of a term of the
    training data, and cut short at a dead end when it ends with a unit
    that nothing follows in the training data. *)
Definition full_or_dead_end (sourceSequences : list jsstring)
    (term : jsstring) : Prop :=
  (exists trained,
      training_term sourceSequences trained
      /\ List.length term = List.length trained)
  \/ (exists pre q,
         term = pre ++ [q] /\ dead_end sourceSequences q).

(** ** Double precision *)

(** [a / 2 ^ 54 <= n ^ (num / den)], in integers. *)
Definition power_ge (num den : positive) (n a : N) : Prop :=
  (a ^ N.pos den <= n ^ N.pos num * 2 ^ (54 * N.pos den))%N.

(** An integer that is a double: it has 53 significant bits. *)
Definition is_double (x : N) : Prop := round_down53 x = x.

(** The double nearest to [n ^ (num / den)] is at or above the integer
    double [c]: the power is at or above the point half way between [y]
    and the next double, for every integer double [y] below [c]. *)
Definition reached (num den : positive) (n c : N) : Prop :=
  is_double c
  /\ forall y, is_double y -> (y < c)%N -> power_ge num den n (half_way y).

(** [w] is the integer part of the double nearest to [n ^ (num / den)]:
    that double is at or above [w], and below the next integer
    double. *)
Definition nearest_floor (num den : positive) (n w : N) : Prop :=
  reached num den n w /\ ~ power_ge num den n (half_way w).

(** * Proofs *)

(** ** Strings and objects: basic facts *)

Lemma str_eqb_eq (a b : jsstring) : str_eqb a b = true <-> a = b.
Proof.
  unfold str_eqb. destruct (str_eq_dec a b); split; congruence.
Qed.

Lemma str_eqb_refl (a : jsstring) : str_eqb a a = true.
Proof. now apply str_eqb_eq. Qed.

Lemma str_eqb_neq (a b : jsstring) : str_eqb a b = false <-> a <> b.
Proof.
  unfold str_eqb. destruct (str_eq_dec a b); split; congruence.
Qed.

Ltac case_key k1 k2 :=
  let E := fresh "E" in
  destruct (str_eqb k1 k2) eqn:E;
  [apply str_eqb_eq in E; try subst | apply str_eqb_neq in E].

Section Objects.

Variable V : Type.
Implicit Types (o : jsobj V) (k : jsstring) (v : V).

Lemma obj_get_set_same o k v : obj_get (obj_set o k v) k = Some v.
Proof.
  induction o as [|[k' v'] o IH]; simpl.
  - now rewrite str_eqb_refl.
  - case_key k' k; simpl.
    + now rewrite str_eqb_refl.
    + apply str_eqb_neq in E. now rewrite E.
Qed.

Lemma obj_get_set_other o k k' v :
  k <> k' -> obj_get (obj_set o k v) k' = obj_get o k'.
Proof.
  intros Hne. induction o as [|[k0 v0] o IH]; simpl.
  - apply str_eqb_neq in Hne. now rewrite Hne.
  - case_key k0 k; simpl.
    + apply str_eqb_neq in Hne. now rewrite Hne.
    + now rewrite IH.
Qed.

Lemma obj_get_none o k : obj_get o k = None <-> ~ In k (insertion_order o).
Proof.
  induction o as [|[k' v'] o IH]; simpl.
  - tauto.
  - case_key k' k.
    + split; [discriminate | tauto].
    + rewrite IH. tauto.
Qed.

Lemma obj_get_some_key o k v :
  obj_get o k = Some v -> In k (insertion_order o).
Proof.
  intros H. destruct (in_dec str_eq_dec k (insertion_order o)) as [|n];
    [assumption|].
  apply obj_get_none in n. congruence.
Qed.

Lemma obj_get_some_in o k v : obj_get o k = Some v -> In (k, v) o.
Proof.
  induction o as [|[k' v'] o IH]; simpl; [discriminate|].
  case_key k' k.
  - intros [= ->]. now left.
  - intros H. right. now apply IH.
Qed.

Lemma obj_key_get o k :
  In k (insertion_order o) -> exists v, obj_get o k = Some v.
Proof.
  intros H. destruct (obj_get o k) as [v|] eqn:E; [now exists v|].
  apply obj_get_none in E. contradiction.
Qed.

Lemma in_obj_get o k v :
  NoDup (insertion_order o) -> In (k, v) o -> obj_get o k = Some v.
Proof.
  induction o as [|[k' v'] o IH]; simpl; [tauto|].
  intros Hnd [H|H].
  - injection H as -> ->. now rewrite str_eqb_refl.
  - inversion Hnd as [|? ? Hnotin Hnd']; subst.
    case_key k' k.
    + exfalso. apply Hnotin. change (In k (insertion_order o)).
      unfold insertion_order. now apply (in_map fst) in H.
    + now apply IH.
Qed.

Lemma insertion_order_set_present o k v :
  In k (insertion_order o) ->
  insertion_order (obj_set o k v) = insertion_order o.
Proof.
  induction o as [|[k' v'] o IH]; simpl; [tauto|].
  intros H. case_key k' k; simpl; [reflexivity|].
  f_equal. apply IH. destruct H; [contradiction|assumption].
Qed.

Lemma insertion_order_set_absent o k v :
  ~ In k (insertion_order o) ->
  insertion_order (obj_set o k v) = insertion_order o ++ [k].
Proof.
  induction o as [|[k' v'] o IH]; simpl; [reflexivity|].
  intros H. case_key k' k; simpl; [tauto|].
  f_equal. apply IH. tauto.
Qed.

Lemma insertion_order_set o k v :
  insertion_order (obj_set o k v) =
  if in_dec str_eq_dec k (insertion_order o)
  then insertion_order o else insertion_order o ++ [k].
Proof.
  destruct (in_dec str_eq_dec k (insertion_order o)).
  - now apply insertion_order_set_present.
  - now apply insertion_order_set_absent.
Qed.

Lemma in_insertion_order_set o k v k' :
  In k' (insertion_order (obj_set o k v)) <->
  k' = k \/ In k' (insertion_order o).
Proof.
  rewrite insertion_order_set.
  destruct (in_dec str_eq_dec k (insertion_order o)) as [i|n].
  - split; [tauto|]. intros [->|]; assumption.
  - rewrite in_app_iff. simpl. split; intros; intuition congruence.
Qed.

Lemma NoDup_obj_set o k v :
  NoDup (insertion_order o) -> NoDup (insertion_order (obj_set o k v)).
Proof.
  intros H. rewrite insertion_order_set.
  destruct (in_dec str_eq_dec k (insertion_order o)) as [i|n]; [assumption|].
  apply NoDup_app; [assumption | constructor; [tauto | constructor] |].
  intros x Hx [<-|[]]. contradiction.
Qed.

(** [Object.keys] lists every own key once. *)

Lemma insert_index_perm k ks : Permutation (insert_index k ks) (k :: ks).
Proof.
  induction ks as [|k' ks IH]; simpl; [reflexivity|].
  destruct (index_value k <=? index_value k')%N; [reflexivity|].
  rewrite IH. apply perm_swap.
Qed.

Lemma sort_indices_perm ks : Permutation (sort_indices ks) ks.
Proof.
  induction ks as [|k ks IH]; simpl; [reflexivity|].
  rewrite insert_index_perm. now constructor.
Qed.

Lemma filter_split_perm (A : Type) (f : A -> bool) (l : list A) :
  Permutation (filter f l ++ filter (fun x => negb (f x)) l) l.
Proof.
  induction l as [|x l IH]; simpl; [reflexivity|].
  destruct (f x); simpl.
  - now constructor.
  - rewrite <- Permutation_middle. now constructor.
Qed.

Lemma Object_keys_perm o : Permutation (Object_keys o) (insertion_order o).
Proof.
  unfold Object_keys.
  rewrite sort_indices_perm. apply filter_split_perm.
Qed.

Lemma in_Object_keys o k : In k (Object_keys o) <-> In k (insertion_order o).
Proof.
  split; apply Permutation_in;
    [apply Object_keys_perm | symmetry; apply Object_keys_perm].
Qed.

Lemma NoDup_Object_keys o :
  NoDup (insertion_order o) -> NoDup (Object_keys o).
Proof.
  apply Permutation_NoDup. symmetry. apply Object_keys_perm.
Qed.

Lemma Object_keys_same_order (W : Type) o (o' : jsobj W) :
  insertion_order o = insertion_order o' -> Object_keys o = Object_keys o'.
Proof. unfold Object_keys. now intros ->. Qed.

End Objects.

Section ObjectUpdates.

Variable V : Type.
Implicit Types (o : jsobj V) (k : jsstring) (v : V).

Lemma obj_set_set o k v v' : obj_set (obj_set o k v) k v' = obj_set o k v'.
Proof.
  induction o as [|[k0 v0] o IH]; simpl.
  - now rewrite str_eqb_refl.
  - case_key k0 k; simpl.
    + now rewrite str_eqb_refl.
    + apply str_eqb_neq in E. rewrite E. now rewrite IH.
Qed.

Lemma obj_set_get_id o k v : obj_get o k = Some v -> obj_set o k v = o.
Proof.
  induction o as [|[k0 v0] o IH]; simpl; [discriminate|].
  case_key k0 k.
  - now intros [= ->].
  - intros H. now rewrite IH.
Qed.

(** Two objects with the same keys in the same order and the same
    values are the same object. *)
Lemma obj_ext o o' :
  NoDup (insertion_order o) ->
  insertion_order o = insertion_order o' ->
  (forall k, In k (insertion_order o) -> obj_get o k = obj_get o' k) ->
  o = o'.
Proof.
  revert o'. induction o as [|[k v] o IH]; intros [|[k' v'] o'] Hnd Hord Hget;
    try discriminate; [reflexivity|].
  simpl in Hord. injection Hord as <- Hord.
  inversion Hnd as [|? ? Hnotin Hnd']; subst.
  assert (v = v') as <-.
  { specialize (Hget k (or_introl eq_refl)). simpl in Hget.
    rewrite str_eqb_refl in Hget. congruence. }
  f_equal. apply IH; [assumption..|].
  intros k0 Hk0. specialize (Hget k0 (or_intror Hk0)). simpl in Hget.
  case_key k k0; [contradiction | assumption].
Qed.

End ObjectUpdates.

(** ** The weighting stage computes what its loops suggest *)

Implicit Types (fm : FrequencyMap) (model : RawModel) (w weights : WeightTotalsMap).

Lemma insertion_order_weigh_map fm :
  insertion_order (weigh_map fm) = insertion_order fm.
Proof.
  unfold insertion_order, weigh_map. rewrite map_map. reflexivity.
Qed.

Lemma obj_get_weigh_map fm k :
  obj_get (weigh_map fm) k = option_map weightedCount (obj_get fm k).
Proof.
  induction fm as [|[k' n] fm IH]; simpl; [reflexivity|].
  now case_key k' k.
Qed.

Lemma cumulative_cons fm k ks :
  cumulative fm (k :: ks) = (or_zero (obj_get fm k) + cumulative fm ks)%N.
Proof. reflexivity. Qed.

Lemma cumulative_app fm ks1 ks2 :
  cumulative fm (ks1 ++ ks2) = (cumulative fm ks1 + cumulative fm ks2)%N.
Proof. induction ks1 as [|k ks1 IH]; simpl; [reflexivity|]. rewrite IH. lia. Qed.

Lemma cumulative_perm fm ks1 ks2 :
  Permutation ks1 ks2 -> cumulative fm ks1 = cumulative fm ks2.
Proof.
  induction 1; simpl; lia.
Qed.

Lemma cumulative_cons_notin (fm : FrequencyMap) k n ks :
  ~ In k ks -> cumulative ((k, n) :: fm) ks = cumulative fm ks.
Proof.
  induction ks as [|k' ks IH]; simpl; [reflexivity|].
  intros H. case_key k k'; [tauto|]. rewrite IH; tauto.
Qed.

Lemma cumulative_all fm :
  NoDup (insertion_order fm) ->
  cumulative fm (insertion_order fm) = total_weight fm.
Proof.
  unfold total_weight.
  induction fm as [|[k n] fm IH]; simpl; [reflexivity|].
  intros Hnd. inversion Hnd as [|? ? Hnotin Hnd']; subst.
  rewrite str_eqb_refl. simpl.
  change (List.map fst fm) with (insertion_order fm).
  rewrite cumulative_cons_notin by assumption. now rewrite IH.
Qed.

Lemma cumulative_Object_keys fm :
  NoDup (insertion_order fm) ->
  cumulative fm (Object_keys fm) = total_weight fm.
Proof.
  intros H. rewrite (cumulative_perm fm _ _ (Object_keys_perm _ fm)).
  now apply cumulative_all.
Qed.

(** The inner loop, over any list [ks] of distinct choices. *)
Lemma weigh_choices_spec category ks :
  NoDup ks ->
  forall fm w a fm' w',
    obj_get w category = Some a ->
    fold_left (weigh_choice category) ks (fm, w) = (fm', w') ->
    insertion_order fm' = insertion_order fm
    /\ (forall k, obj_get fm' k =
                  if in_dec str_eq_dec k ks
                  then option_map weightedCount (obj_get fm k)
                  else obj_get fm k)
    /\ w' = obj_set w category (a + cumulative (weigh_map fm) ks)%N.
Proof.
  induction 1 as [|k ks Hnotin Hnd IH]; intros fm w a fm' w' Hw Hfold.
  - simpl in *. injection Hfold as <- <-. repeat split.
    rewrite N.add_0_r. symmetry. now apply obj_set_get_id.
  - simpl in Hfold. destruct (obj_get fm k) as [count|] eqn:Ek.
    + rewrite Hw in Hfold. simpl or_zero in Hfold.
      specialize (IH _ _ (a + weightedCount count)%N fm' w'
                     (obj_get_set_same _ _ _ _) Hfold).
      destruct IH as (Hord & Hget & Hw').
      assert (Hk : In k (insertion_order fm)) by eauto using obj_get_some_key.
      split; [|split].
      * rewrite Hord. now apply insertion_order_set_present.
      * intros k0. rewrite Hget.
        destruct (in_dec str_eq_dec k0 ks) as [i|n];
          destruct (in_dec str_eq_dec k0 (k :: ks)) as [i'|n'];
          try (exfalso; simpl in *; tauto).
        -- rewrite obj_get_set_other; [reflexivity | congruence].
        -- destruct i' as [<-|]; [|contradiction].
           rewrite obj_get_set_same, Ek. reflexivity.
        -- rewrite obj_get_set_other; [reflexivity|].
           intros <-. apply n'. now left.
      * rewrite Hw', obj_set_set. f_equal. simpl.
        rewrite obj_get_weigh_map, Ek. simpl.
        assert (cumulative (weigh_map (obj_set fm k (weightedCount count))) ks
                = cumulative (weigh_map fm) ks) as ->; [|lia].
        clear -Hnotin. induction ks as [|k' ks IH]; simpl; [reflexivity|].
        rewrite IH by (intros H; apply Hnotin; now right).
        rewrite !obj_get_weigh_map, obj_get_set_other; [reflexivity|].
        intros ->. apply Hnotin. now left.
    + specialize (IH _ _ a fm' w' Hw Hfold).
      destruct IH as (Hord & Hget & Hw').
      split; [assumption|split].
      * intros k0. rewrite Hget.
        destruct (in_dec str_eq_dec k0 ks) as [i|n];
          destruct (in_dec str_eq_dec k0 (k :: ks)) as [i'|n'];
          try (exfalso; simpl in *; tauto); try reflexivity.
        destruct i' as [<-|]; [|contradiction]. now rewrite Ek.
      * rewrite Hw'. simpl. rewrite obj_get_weigh_map, Ek. reflexivity.
Qed.

(** The inner loop over all the choices of a category. *)
Lemma weigh_all_choices category fm w a :
  NoDup (insertion_order fm) ->
  obj_get w category = Some a ->
  fold_left (weigh_choice category) (Object_keys fm) (fm, w)
  = (weigh_map fm, obj_set w category (a + total_weight (weigh_map fm))%N).
Proof.
  intros Hnd Hw.
  destruct (fold_left _ _ _) as [fm' w'] eqn:Hfold.
  destruct (weigh_choices_spec category _ (NoDup_Object_keys _ _ Hnd) _ _ _ _ _ Hw Hfold)
    as (Hord & Hget & ->).
  f_equal.
  - apply obj_ext.
    + now rewrite Hord.
    + now rewrite insertion_order_weigh_map.
    + intros k Hk. rewrite Hget, obj_get_weigh_map.
      destruct (in_dec _ _ _) as [|n]; [reflexivity|].
      exfalso. apply n. apply in_Object_keys. now rewrite <- Hord.
  - f_equal. f_equal.
    rewrite <- cumulative_Object_keys
      by now rewrite insertion_order_weigh_map.
    f_equal. apply Object_keys_same_order.
    symmetry. apply insertion_order_weigh_map.
Qed.

(** One round of the outer loop. *)
Lemma weigh_category_spec model weights category fm :
  NoDup (insertion_order fm) ->
  obj_get model category = Some fm ->
  weigh_category (model, weights) category
  = (obj_set model category (weigh_map fm),
     obj_set weights category (total_weight (weigh_map fm))).
Proof.
  intros Hnd Hget. unfold weigh_category. cbv beta iota zeta. rewrite Hget.
  rewrite (weigh_all_choices category fm _ 0%N Hnd (obj_get_set_same _ _ _ _)).
  now rewrite obj_set_set.
Qed.

(** The outer loop, over any list [cs] of distinct categories. *)
Lemma weigh_categories_spec cs :
  NoDup cs ->
  forall model weights model' weights',
    distinct_choices model ->
    (forall c, In c cs -> In c (insertion_order model)) ->
    fold_left weigh_category cs (model, weights) = (model', weights') ->
    insertion_order model' = insertion_order model
    /\ (forall c, obj_get model' c =
                  if in_dec str_eq_dec c cs
                  then option_map weigh_map (obj_get model c)
                  else obj_get model c)
    /\ (forall c, obj_get weights' c =
                  if in_dec str_eq_dec c cs
                  then option_map (fun fm => total_weight (weigh_map fm))
                         (obj_get model c)
                  else obj_get weights c).
Proof.
  induction 1 as [|c cs Hnotin Hnd IH];
    intros model weights model' weights' Hdc Hin Hfold.
  - simpl in Hfold. injection Hfold as <- <-. repeat split.
  - cbn [fold_left] in Hfold.
    destruct (obj_key_get _ model c (Hin c (or_introl eq_refl))) as [fm Hfm].
    rewrite (weigh_category_spec _ weights _ _ (Hdc _ _ Hfm) Hfm) in Hfold.
    apply IH in Hfold.
    + destruct Hfold as (Hord & Hm & Hw).
      assert (Hc : In c (insertion_order model)) by eauto using obj_get_some_key.
      split; [|split].
      * rewrite Hord. now apply insertion_order_set_present.
      * intros c0. rewrite Hm.
        destruct (in_dec str_eq_dec c0 cs) as [i|n];
          destruct (in_dec str_eq_dec c0 (c :: cs)) as [i'|n'];
          try (exfalso; simpl in *; tauto).
        -- rewrite obj_get_set_other; [reflexivity | congruence].
        -- destruct i' as [<-|]; [|contradiction].
           now rewrite obj_get_set_same, Hfm.
        -- rewrite obj_get_set_other; [reflexivity|].
           intros <-. apply n'. now left.
      * intros c0. rewrite Hw.
        destruct (in_dec str_eq_dec c0 cs) as [i|n];
          destruct (in_dec str_eq_dec c0 (c :: cs)) as [i'|n'];
          try (exfalso; simpl in *; tauto).
        -- rewrite obj_get_set_other; [reflexivity | congruence].
        -- destruct i' as [<-|]; [|contradiction].
           now rewrite obj_get_set_same, Hfm.
        -- rewrite obj_get_set_other; [reflexivity|].
           intros <-. apply n'. now left.
    + intros c0 fm0. case_key c c0.
      * rewrite obj_get_set_same. intros [= <-].
        rewrite insertion_order_weigh_map. eauto.
      * rewrite obj_get_set_other by assumption. apply Hdc.
    + intros c0 Hc0. apply in_insertion_order_set. right.
      apply Hin. now right.
Qed.

(** What [applyWeighting] returns. *)
Lemma applyWeighting_spec model :
  NoDup (insertion_order model) ->
  distinct_choices model ->
  let m := applyWeighting model in
  insertion_order (categories m) = insertion_order model
  /\ (forall c, obj_get (categories m) c
                = option_map weigh_map (obj_get model c))
  /\ (forall c, obj_get (selectionWeights m) c
                = option_map (fun fm => total_weight (weigh_map fm))
                    (obj_get model c)).
Proof.
  intros Hnd Hdc. unfold applyWeighting.
  destruct (fold_left _ _ _) as [model' weights'] eqn:Hfold. simpl.
  apply (weigh_categories_spec _ (NoDup_Object_keys _ _ Hnd)) in Hfold;
    [|assumption | intros c; apply in_Object_keys].
  destruct Hfold as (Hord & Hm & Hw).
  split; [assumption|]. split; intros c; [rewrite Hm | rewrite Hw];
    (destruct (in_dec _ _ _) as [|n]; [reflexivity|]);
    (destruct (obj_get model c) eqn:E; [|simpl; try reflexivity]);
    exfalso; apply n; apply in_Object_keys; eauto using obj_get_some_key.
Qed.

(** ** What the trainer records *)

Lemma truthy_cons (s : jsstring) : truthy s = true <-> s <> [].
Proof. destruct s; simpl; split; congruence. Qed.

(** [increment] writes one leaf, in a category it creates when needed. *)
Lemma increment_spec model category choice :
  truthy (String_of choice) = true ->
  exists fm0,
    (obj_get model category = Some fm0
     \/ (obj_get model category = None /\ fm0 = obj_empty))
    /\ increment model category choice
       = obj_set model category
           (obj_set fm0 (String_of choice)
              (or_zero (obj_get fm0 (String_of choice)) + 1)%N).
Proof.
  intros Ht. unfold increment. rewrite Ht. simpl negb. cbv iota.
  destruct (obj_get model category) as [fm0|] eqn:E.
  - exists fm0. rewrite E. auto.
  - exists obj_empty. rewrite obj_get_set_same, obj_set_set. auto.
Qed.

Lemma increment_falsy model category choice :
  truthy (String_of choice) = false -> increment model category choice = model.
Proof. intros Ht. unfold increment. now rewrite Ht. Qed.

Section Trainer.

(** The terms of the training data. *)
Variable seen : jsstring -> Prop.

Lemma raw_inv_initial : raw_inv seen initial_model.
Proof.
  split.
  - repeat constructor; simpl; intuition discriminate.
  - intros c fm. unfold initial_model. simpl.
    repeat (destruct (str_eqb _ c); [intros [= <-]; constructor|]).
    discriminate.
  - intros c fm k n. unfold initial_model. simpl.
    repeat (destruct (str_eqb _ c); [intros [= <-]; discriminate|]).
    discriminate.
  - simpl. tauto.
  - unfold category_ok. simpl. intuition.
  - intros c fm k. unfold initial_model. simpl.
    repeat (destruct (str_eqb _ c); [intros [= <-] []|]).
    discriminate.
Qed.

Lemma raw_inv_increment model category choice :
  raw_inv seen model ->
  category_ok category ->
  choice_ok seen category (String_of choice) ->
  raw_inv seen (increment model category choice).
Proof.
  intros Hinv Hcat Hch.
  destruct (truthy (String_of choice)) eqn:Ht;
    [|now rewrite increment_falsy].
  destruct (increment_spec model category choice Ht) as (fm0 & Hfm0 & ->).
  assert (Hnd0 : NoDup (insertion_order fm0)).
  { destruct Hfm0 as [H|[_ ->]]; [|constructor].
    eapply inv_distinct; eauto. }
  destruct Hinv as [Hnd Hdc Hpos Hfix Hcats Hchs].
  split.
  - now apply NoDup_obj_set.
  - intros c fm. case_key category c.
    + rewrite obj_get_set_same. intros [= <-]. now apply NoDup_obj_set.
    + rewrite obj_get_set_other by assumption. apply Hdc.
  - intros c fm k n. case_key category c.
    + rewrite obj_get_set_same. intros [= <-].
      case_key (String_of choice) k.
      * rewrite obj_get_set_same. intros [= <-]. lia.
      * rewrite obj_get_set_other by assumption.
        destruct Hfm0 as [H|[_ ->]]; [eauto | discriminate].
    + rewrite obj_get_set_other by assumption. apply Hpos.
  - rewrite !in_insertion_order_set. tauto.
  - intros c. rewrite in_insertion_order_set. intros [->|]; auto.
  - intros c fm k. case_key category c.
    + rewrite obj_get_set_same. intros [= <-].
      rewrite in_insertion_order_set. intros [->|Hk]; [assumption|].
      destruct Hfm0 as [H|[_ ->]]; [eauto | destruct Hk].
    + rewrite obj_get_set_other by assumption. apply Hchs.
Qed.

Lemma choice_ok_fixed_count k : choice_ok seen termCount k.
Proof. split; [discriminate | intros p; discriminate]. Qed.

Lemma choice_ok_fixed_length k : choice_ok seen termLength k.
Proof. split; [discriminate | intros p; discriminate]. Qed.

(** The loop over the transitions of a term, started after [pre ++ [p]]. *)
Lemma raw_inv_transitions rest :
  forall model pre p,
    seen (pre ++ p :: rest) ->
    raw_inv seen model ->
    raw_inv seen (transitions model (pre ++ p :: rest) [p]
               (S (List.length pre)) (List.length rest)).
Proof.
  induction rest as [|c rest IH]; intros model pre p Hseen Hinv;
    [assumption|].
  cbn [List.length transitions].
  assert (Hslice : slice (pre ++ p :: c :: rest) (S (List.length pre))
                     (S (List.length pre) + 1) = [c]).
  { unfold slice.
    replace (S (List.length pre) + 1 - S (List.length pre))%nat with 1%nat
      by lia.
    replace (pre ++ p :: c :: rest) with ((pre ++ [p]) ++ c :: rest)
      by (rewrite <- app_assoc; reflexivity).
    rewrite skipn_app.
    replace (S (List.length pre)) with (List.length (pre ++ [p]))
      by (rewrite length_app; simpl; lia).
    rewrite skipn_all, Nat.sub_diag. reflexivity. }
  rewrite Hslice.
  replace (pre ++ p :: c :: rest) with ((pre ++ [p]) ++ c :: rest) in *
    by (rewrite <- app_assoc; reflexivity).
  replace (S (S (List.length pre))) with (S (List.length (pre ++ [p])))
    by (rewrite length_app; simpl; lia).
  apply IH; [assumption|].
  apply raw_inv_increment; [assumption | right; right; right; eauto |].
  split; [discriminate|].
  intros p' [= <-]. exists c. split; [reflexivity|].
  exists ((pre ++ [p]) ++ c :: rest), pre, rest. split; [assumption|].
  rewrite <- app_assoc. reflexivity.
Qed.

Lemma raw_inv_train_term model term :
  seen term -> raw_inv seen model -> raw_inv seen (train_term model term).
Proof.
  intros Hseen Hinv. unfold train_term.
  assert (H1 : raw_inv seen (increment model termLength
                          (ChoiceNumber (str_length term)))).
  { apply raw_inv_increment;
      [assumption | right; left; reflexivity | apply choice_ok_fixed_length]. }
  destruct term as [|ch rest]; [assumption|].
  cbn [slice Nat.sub skipn firstn truthy negb List.length].
  rewrite Nat.sub_0_r.
  apply (raw_inv_transitions rest _ [] ch); [assumption|].
  apply raw_inv_increment;
    [assumption | right; right; left; reflexivity |].
  split; [|intros p; discriminate].
  intros _. exists ch. split; [reflexivity|]. now exists (ch :: rest), rest.
Qed.

Lemma raw_inv_train_terms terms :
  forall model,
    Forall seen terms -> raw_inv seen model ->
    raw_inv seen (fold_left train_term terms model).
Proof.
  induction terms as [|t terms IH]; intros model Hall Hinv; [assumption|].
  inversion Hall; subst. simpl. apply IH; [assumption|].
  now apply raw_inv_train_term.
Qed.

Lemma raw_inv_train_sequence model sequence :
  Forall seen (tokenize sequence) ->
  raw_inv seen model -> raw_inv seen (train_sequence model sequence).
Proof.
  intros Hall Hinv. unfold train_sequence.
  destruct (negb (truthy sequence)); [assumption|].
  destruct (List.length (tokenize sequence) =? 0)%nat; [assumption|].
  apply raw_inv_train_terms; [assumption|].
  apply raw_inv_increment;
    [assumption | left; reflexivity | apply choice_ok_fixed_count].
Qed.

Lemma raw_inv_train_sequences sequences :
  forall model,
    Forall (fun s => Forall seen (tokenize s)) sequences ->
    raw_inv seen model ->
    raw_inv seen (fold_left train_sequence sequences model).
Proof.
  induction sequences as [|s sequences IH]; intros model Hall Hinv;
    [assumption|].
  inversion Hall; subst. simpl. apply IH; [assumption|].
  now apply raw_inv_train_sequence.
Qed.

End Trainer.

Lemma raw_inv_buildRawModel sourceSequences :
  raw_inv (training_term sourceSequences) (buildRawModel sourceSequences).
Proof.
  apply raw_inv_train_sequences; [|apply raw_inv_initial].
  apply Forall_forall. intros s Hs. apply Forall_forall. intros t Ht.
  now exists s.
Qed.

(** ** The re-weighting function *)

Lemma root10_bits_spec n b :
  forall r,
    (r ^ 10 <= n < (r + 2 ^ N.of_nat b) ^ 10)%N ->
    (root10_bits n r b ^ 10 <= n < (root10_bits n r b + 1) ^ 10)%N.
Proof.
  induction b as [|b IH]; intros r Hr.
  - simpl in *. exact Hr.
  - cbn [root10_bits]. apply IH.
    assert (E : (2 ^ N.of_nat (S b) = 2 ^ N.of_nat b + 2 ^ N.of_nat b)%N).
    { rewrite Nat2N.inj_succ, N.pow_succ_r'. lia. }
    rewrite E in Hr.
    destruct ((r + 2 ^ N.of_nat b) ^ 10 <=? n)%N eqn:Hle.
    + apply N.leb_le in Hle. split; [assumption|].
      rewrite <- N.add_assoc. apply Hr.
    + apply N.leb_gt in Hle. split; [apply Hr | assumption].
Qed.

Lemma root10_spec n : (root10 n ^ 10 <= n < (root10 n + 1) ^ 10)%N.
Proof.
  unfold root10. apply root10_bits_spec.
  rewrite N2Nat.id, N.add_0_l. split; [rewrite N.pow_0_l by lia; lia|].
  apply N.lt_le_trans with (2 ^ N.size n)%N; [apply N.size_gt|].
  rewrite <- (N.pow_1_r (2 ^ N.size n)) at 1.
  apply N.pow_le_mono_r; [|lia].
  apply N.pow_nonzero. lia.
Qed.

(** ** The bounds of [precision] bits *)

Lemma value_pair (m e : N) : value (m, e) = (m * 2 ^ e)%N.
Proof. reflexivity. Qed.

Lemma round_below_le (x : N * N) : (value (round_below x) <= value x)%N.
Proof.
  destruct x as [m e]. unfold round_below. cbn [fst snd].
  set (s := (N.size m - precision)%N).
  rewrite !value_pair, N.shiftr_div_pow2, N.pow_add_r.
  pose proof (N.Div0.mul_div_le m (2 ^ s)) as H.
  replace (m / 2 ^ s * (2 ^ e * 2 ^ s))%N
    with (2 ^ s * (m / 2 ^ s) * 2 ^ e)%N by ring.
  now apply N.mul_le_mono_r.
Qed.

Lemma round_above_ge (x : N * N) : (value x <= value (round_above x))%N.
Proof.
  destruct x as [m e]. unfold round_above. cbn [fst snd].
  set (s := (N.size m - precision)%N).
  destruct (s =? 0)%N; [apply N.le_refl|].
  rewrite !value_pair, N.shiftr_div_pow2, N.pow_add_r.
  assert (Hs : (2 ^ s <> 0)%N) by (apply N.pow_nonzero; discriminate).
  pose proof (N.mul_succ_div_gt m (2 ^ s) Hs) as H.
  replace ((m / 2 ^ s + 1) * (2 ^ e * 2 ^ s))%N
    with (2 ^ s * N.succ (m / 2 ^ s) * 2 ^ e)%N
    by (rewrite <- N.add_1_r; ring).
  apply N.mul_le_mono_r. now apply N.lt_le_incl.
Qed.

Lemma value_mul (a b : N * N) :
  value ((fst a * fst b)%N, (snd a + snd b)%N) = (value a * value b)%N.
Proof. unfold value. cbn [fst snd]. rewrite N.pow_add_r. ring. Qed.

Lemma mul_below_le (a b : N * N) (A B : N) :
  (value a <= A)%N -> (value b <= B)%N -> (value (mul_below a b) <= A * B)%N.
Proof.
  intros Ha Hb. unfold mul_below.
  eapply N.le_trans; [apply round_below_le|].
  rewrite value_mul. now apply N.mul_le_mono.
Qed.

Lemma mul_above_ge (a b : N * N) (A B : N) :
  (A <= value a)%N -> (B <= value b)%N -> (A * B <= value (mul_above a b))%N.
Proof.
  intros Ha Hb. unfold mul_above.
  eapply N.le_trans; [|apply round_above_ge].
  rewrite value_mul. now apply N.mul_le_mono.
Qed.

Lemma pow_xO (x : N) (q : positive) :
  (x ^ N.pos q~0 = x ^ N.pos q * x ^ N.pos q)%N.
Proof. rewrite <- N.pow_add_r. f_equal. lia. Qed.

Lemma pow_xI (x : N) (q : positive) :
  (x ^ N.pos q~1 = x ^ N.pos q * x ^ N.pos q * x)%N.
Proof.
  replace (N.pos q~1) with (N.pos q + N.pos q + 1)%N by lia.
  now rewrite !N.pow_add_r, N.pow_1_r.
Qed.

Lemma pow_below_le (x : N * N) (p : positive) :
  (value (pow_with mul_below x p) <= value x ^ N.pos p)%N.
Proof.
  induction p as [q IH|q IH|]; cbn [pow_with].
  - rewrite pow_xI. apply mul_below_le; [|apply N.le_refl].
    now apply mul_below_le.
  - rewrite pow_xO. now apply mul_below_le.
  - rewrite N.pow_1_r. apply N.le_refl.
Qed.

Lemma pow_above_ge (x : N * N) (p : positive) :
  (value x ^ N.pos p <= value (pow_with mul_above x p))%N.
Proof.
  induction p as [q IH|q IH|]; cbn [pow_with].
  - rewrite pow_xI. apply mul_above_ge; [|apply N.le_refl].
    now apply mul_above_ge.
  - rewrite pow_xO. now apply mul_above_ge.
  - rewrite N.pow_1_r. apply N.le_refl.
Qed.

Lemma value_exact (n : N) : value (n, 0%N) = n.
Proof. unfold value. cbn [fst snd]. rewrite N.pow_0_r. apply N.mul_1_r. Qed.

Lemma value_scale54 (den : positive) (x : N * N) :
  value (scale54 den x) = (value x * 2 ^ (54 * N.pos den))%N.
Proof. unfold scale54, value. cbn [fst snd]. rewrite N.pow_add_r. ring. Qed.

Lemma approx_leb_spec (a b : N * N) :
  approx_leb a b = true <-> (value a <= value b)%N.
Proof.
  destruct a as [m1 e1], b as [m2 e2]. unfold approx_leb. rewrite !value_pair.
  destruct (e1 <=? e2)%N eqn:He.
  - apply N.leb_le in He.
    cbv zeta. set (d := (e2 - e1)%N).
    assert (E : (2 ^ e2 = 2 ^ e1 * 2 ^ d)%N)
      by (rewrite <- N.pow_add_r; f_equal; unfold d; lia).
    rewrite E.
    assert (Hp : (0 < 2 ^ e1)%N)
      by (apply N.neq_0_lt_0, N.pow_nonzero; discriminate).
    replace (m2 * (2 ^ e1 * 2 ^ d))%N with (m2 * 2 ^ d * 2 ^ e1)%N by ring.
    rewrite <- N.mul_le_mono_pos_r by assumption.
    destruct (m2 =? 0)%N eqn:Hm2.
    + apply N.eqb_eq in Hm2. subst m2. rewrite N.mul_0_l, N.eqb_eq. lia.
    + apply N.eqb_neq in Hm2.
      destruct (N.size m1 <=? d)%N eqn:Hs.
      * apply N.leb_le in Hs. split; [intros _ | reflexivity].
        pose proof (N.size_gt m1) as H1.
        assert (H2 : (2 ^ N.size m1 <= 2 ^ d)%N)
          by (apply N.pow_le_mono_r; [discriminate | assumption]).
        assert (H3 : (1 * 2 ^ d <= m2 * 2 ^ d)%N)
          by (apply N.mul_le_mono_r; lia).
        lia.
      * rewrite N.shiftl_mul_pow2. apply N.leb_le.
  - apply N.leb_gt in He.
    cbv zeta. set (d := (e1 - e2)%N).
    assert (E : (2 ^ e1 = 2 ^ e2 * 2 ^ d)%N)
      by (rewrite <- N.pow_add_r; f_equal; unfold d; lia).
    rewrite E.
    assert (Hp : (0 < 2 ^ e2)%N)
      by (apply N.neq_0_lt_0, N.pow_nonzero; discriminate).
    replace (m1 * (2 ^ e2 * 2 ^ d))%N with (m1 * 2 ^ d * 2 ^ e2)%N by ring.
    rewrite <- N.mul_le_mono_pos_r by assumption.
    destruct (m1 =? 0)%N eqn:Hm1.
    + apply N.eqb_eq in Hm1. subst m1. rewrite N.mul_0_l. split; [lia|reflexivity].
    + apply N.eqb_neq in Hm1.
      destruct (N.size m2 <=? d)%N eqn:Hs.
      * apply N.leb_le in Hs. split; [discriminate | intros H].
        pose proof (N.size_gt m2) as H1.
        assert (H2 : (2 ^ N.size m2 <= 2 ^ d)%N)
          by (apply N.pow_le_mono_r; [discriminate | assumption]).
        assert (H3 : (1 * 2 ^ d <= m1 * 2 ^ d)%N)
          by (apply N.mul_le_mono_r; lia).
        lia.
      * rewrite N.shiftl_mul_pow2. apply N.leb_le.
Qed.

(** ** The comparison with the power *)

Lemma bernoulli (Y d K : N) :
  (Y ^ (K + 1) + K * Y ^ K * d <= Y * (Y + d) ^ K)%N.
Proof.
  induction K as [|K IH] using N.peano_ind.
  - rewrite N.add_0_l, N.pow_1_r, !N.pow_0_r. lia.
  - replace (N.succ K + 1)%N with (N.succ (N.succ K)) by lia.
    rewrite !N.pow_succ_r'. rewrite N.add_1_r, N.pow_succ_r' in IH.
    set (P := (Y ^ K)%N) in *. set (T := ((Y + d) ^ K)%N) in *.
    assert (H : ((Y + d) * (Y * P + K * P * d) <= (Y + d) * (Y * T))%N)
      by (apply N.mul_le_mono_l; exact IH).
    nia.
Qed.

Lemma pow_le_root (a b c : N) : c <> 0%N -> (a ^ c <= b ^ c)%N -> (a <= b)%N.
Proof. intros Hc. now apply N.pow_le_mono_l_iff. Qed.

Section PowerGe.

Variables num den : positive.

(** The exponent is [13/10 + 2 / (10 * den)]. *)
Hypothesis exponent : (10 * N.pos num = 13 * N.pos den + 2)%N.

Lemma power_ge_le (n a a' : N) :
  (a' <= a)%N -> power_ge num den n a -> power_ge num den n a'.
Proof.
  unfold power_ge. intros Ha H.
  eapply N.le_trans; [|exact H]. now apply N.pow_le_mono_l.
Qed.

Lemma power_ge_mono (n n' a : N) :
  (n <= n')%N -> power_ge num den n a -> power_ge num den n' a.
Proof.
  unfold power_ge. intros Hn H.
  eapply N.le_trans; [exact H|].
  apply N.mul_le_mono_r. now apply N.pow_le_mono_l.
Qed.

(** [2 ^ 54 * y] is at most the power when [y ^ den <= n ^ num]. *)
Lemma power_ge_integer (n y : N) :
  power_ge num den n (2 ^ 54 * y) <-> (y ^ N.pos den <= n ^ N.pos num)%N.
Proof.
  unfold power_ge. rewrite N.pow_mul_l, <- N.pow_mul_r.
  rewrite (N.mul_comm (2 ^ (54 * N.pos den))).
  symmetry. apply N.mul_le_mono_pos_r.
  apply N.neq_0_lt_0, N.pow_nonzero. discriminate.
Qed.

(** The tenth power of both sides. *)
Lemma power_ge_tenth (n a : N) :
  power_ge num den n a ->
  ((a ^ 10) ^ N.pos den <= (n ^ 13 * 2 ^ 540) ^ N.pos den * (n * n))%N.
Proof.
  unfold power_ge. intros H.
  apply (N.pow_le_mono_l _ _ 10) in H.
  assert (E : ((n ^ N.pos num * 2 ^ (54 * N.pos den)) ^ 10
               = (n ^ 13 * 2 ^ 540) ^ N.pos den * (n * n))%N).
  { rewrite !N.pow_mul_l, <- !N.pow_mul_r.
    replace (N.pos num * 10)%N with (13 * N.pos den + 2)%N by lia.
    replace (54 * N.pos den * 10)%N with (540 * N.pos den)%N by lia.
    rewrite N.pow_add_r, N.pow_2_r. ring. }
  rewrite E in H.
  rewrite <- N.pow_mul_r, (N.mul_comm 10), N.pow_mul_r. exact H.
Qed.

(** The power is at least as large as [n ^ (13/10)], and at most
    [n ^ 2]. *)
Lemma power_ge_exact (n t : N) :
  (1 <= n)%N -> (t ^ 10 <= n ^ 13)%N -> power_ge num den n (2 ^ 54 * t).
Proof.
  intros Hn Ht. apply power_ge_integer.
  apply (pow_le_root _ _ 10); [discriminate|].
  rewrite <- !N.pow_mul_r.
  replace (N.pos num * 10)%N with (13 * N.pos den + 2)%N by lia.
  rewrite (N.mul_comm (N.pos den) 10), N.pow_mul_r.
  apply N.le_trans with ((n ^ 13) ^ N.pos den)%N.
  - now apply N.pow_le_mono_l.
  - rewrite <- N.pow_mul_r. apply N.pow_le_mono_r; lia.
Qed.

Lemma power_ge_square (n y : N) :
  (1 <= n)%N -> power_ge num den n (2 ^ 54 * y) -> (y <= n * n)%N.
Proof.
  intros Hn H. apply power_ge_integer in H.
  apply (pow_le_root _ _ (N.pos den)); [discriminate|].
  eapply N.le_trans; [exact H|].
  rewrite <- N.pow_2_r, <- N.pow_mul_r.
  apply N.pow_le_mono_r; lia.
Qed.

Lemma far_above (n a : N) :
  (1 <= n)%N ->
  (N.shiftl (n ^ 13) 540 * (n * n) <= N.pos den * (a ^ 10 - N.shiftl (n ^ 13) 540))%N ->
  ~ power_ge num den n a.
Proof.
  intros Hn Hfar H. apply power_ge_tenth in H.
  rewrite N.shiftl_mul_pow2 in Hfar.
  set (Y := (n ^ 13 * 2 ^ 540)%N) in *. set (X := (a ^ 10)%N) in *.
  set (K := N.pos den) in *.
  assert (HY : (0 < Y)%N).
  { unfold Y. apply N.mul_pos_pos; apply N.neq_0_lt_0, N.pow_nonzero; lia. }
  assert (Hnn : (1 <= n * n)%N) by nia.
  assert (HYK : (0 < Y ^ K)%N) by (apply N.neq_0_lt_0, N.pow_nonzero; lia).
  destruct (N.le_gt_cases X Y) as [Hle|Hgt].
  - replace (X - Y)%N with 0%N in Hfar by lia.
    rewrite N.mul_0_r in Hfar.
    assert (H3 : (0 < Y * (n * n))%N) by (apply N.mul_pos_pos; lia).
    revert Hfar H3. generalize (Y * (n * n))%N. clear. intros; lia.
  - pose proof (bernoulli Y (X - Y) K) as B.
    replace (Y + (X - Y))%N with X in B by lia.
    rewrite N.add_1_r, N.pow_succ_r' in B.
    assert (H1 : (Y * X ^ K <= Y * (Y ^ K * (n * n)))%N)
      by (apply N.mul_le_mono_l; exact H).
    assert (H2 : (Y ^ K * (Y * (n * n)) <= Y ^ K * (K * (X - Y)))%N)
      by (apply N.mul_le_mono_l; exact Hfar).
    assert (H3 : (0 < Y * Y ^ K)%N) by now apply N.mul_pos_pos.
    revert B H1 H2 H3. clear.
    generalize (Y ^ K)%N (X ^ K)%N (X - Y)%N (n * n)%N. clearbody Y K.
    intros P XK d nn B H1 H2 H3. nia.
Qed.

Lemma at_least_spec (n a : N) :
  (1 <= n)%N ->
  at_least num den n a = true <-> power_ge num den n a.
Proof.
  intros Hn. unfold at_least. cbv zeta.
  destruct (_ <=? _)%N eqn:Hfar.
  { apply N.leb_le in Hfar. split; [discriminate|].
    intros H. exfalso. exact (far_above n a Hn Hfar H). }
  pose proof (pow_above_ge (a, 0%N) den) as Ahi.
  pose proof (pow_below_le (a, 0%N) den) as Alo.
  pose proof (pow_above_ge (n, 0%N) num) as Bhi.
  pose proof (pow_below_le (n, 0%N) num) as Blo.
  rewrite value_exact in Ahi, Alo, Bhi, Blo.
  destruct (approx_leb (pow_with mul_above _ _) _) eqn:Hyes.
  { apply approx_leb_spec in Hyes. rewrite value_scale54 in Hyes.
    split; [intros _ | reflexivity]. unfold power_ge.
    eapply N.le_trans; [exact Ahi|]. eapply N.le_trans; [exact Hyes|].
    now apply N.mul_le_mono_r. }
  destruct (approx_leb (pow_with mul_below _ _) _) eqn:Hno.
  { apply N.leb_le. }
  split; [discriminate|]. intros H. exfalso.
  assert (Hle : approx_leb (pow_with mul_below (a, 0%N) den)
                  (scale54 den (pow_with mul_above (n, 0%N) num)) = true).
  { apply approx_leb_spec. rewrite value_scale54.
    eapply N.le_trans; [exact Alo|]. eapply N.le_trans; [exact H|].
    now apply N.mul_le_mono_r. }
  rewrite Hle in Hno. discriminate.
Qed.

End PowerGe.

(** ** The integers that are doubles *)

Lemma pow2_pos (k : N) : (0 < 2 ^ k)%N.
Proof. apply N.neq_0_lt_0, N.pow_nonzero. discriminate. Qed.

Lemma pow2_divide (j k : N) : (j <= k)%N -> (2 ^ j | 2 ^ k)%N.
Proof.
  intros H. exists (2 ^ (k - j))%N. rewrite <- N.pow_add_r. f_equal. lia.
Qed.

Lemma size_mono (x y : N) : (x <= y)%N -> (N.size x <= N.size y)%N.
Proof.
  intros H. destruct (N.eq_dec x 0) as [->|Hx]; [apply N.le_0_l|].
  rewrite !N.size_log2 by lia. apply -> N.succ_le_mono.
  now apply N.log2_le_mono.
Qed.

Lemma size_below (x s : N) : (x < 2 ^ s)%N -> (N.size x <= s)%N.
Proof.
  intros H. destruct (N.eq_dec x 0) as [->|Hx]; [apply N.le_0_l|].
  rewrite N.size_log2 by assumption. apply N.le_succ_l.
  apply N.log2_lt_pow2; [lia | assumption].
Qed.

Lemma size_pow2 (s : N) : N.size (2 ^ s) = N.succ s.
Proof.
  rewrite N.size_log2 by (apply N.pow_nonzero; discriminate).
  f_equal. apply N.log2_pow2. apply N.le_0_l.
Qed.

Lemma half_size_le (x : N) : x <> 0%N -> (2 ^ N.size x <= 2 * x)%N.
Proof.
  intros Hx. rewrite N.size_log2 by assumption.
  rewrite N.pow_succ_r'. apply N.mul_le_mono_l.
  apply N.log2_spec. lia.
Qed.

Lemma round_down53_mul (x : N) :
  round_down53 x = (x / 2 ^ (N.size x - 53) * 2 ^ (N.size x - 53))%N.
Proof.
  unfold round_down53. cbv zeta.
  now rewrite N.shiftl_mul_pow2, N.shiftr_div_pow2.
Qed.

Lemma round_down53_le (x : N) : (round_down53 x <= x)%N.
Proof.
  rewrite round_down53_mul, N.mul_comm. apply N.Div0.mul_div_le.
Qed.

Lemma round_down53_small (x : N) : (N.size x <= 53)%N -> round_down53 x = x.
Proof.
  intros H. rewrite round_down53_mul.
  replace (N.size x - 53)%N with 0%N by lia.
  rewrite N.pow_0_r, N.div_1_r. apply N.mul_1_r.
Qed.

Lemma is_double_divide (x : N) :
  is_double x <-> (2 ^ (N.size x - 53) | x)%N.
Proof.
  unfold is_double. rewrite round_down53_mul.
  set (k := (N.size x - 53)%N).
  rewrite <- (N.Lcm0.mod_divide x (2 ^ k)), <- (N.Div0.div_exact x (2 ^ k)).
  rewrite (N.mul_comm (2 ^ k)). split; intros H; now symmetry.
Qed.

Lemma round_down53_top (x : N) :
  x <> 0%N -> (2 ^ N.log2 x <= round_down53 x)%N.
Proof.
  intros Hx. rewrite round_down53_mul, N.size_log2 by assumption.
  set (l := N.log2 x). set (k := (N.succ l - 53)%N).
  assert (Hl : (2 ^ l <= x)%N) by (apply N.log2_spec; lia).
  assert (E : (2 ^ l = 2 ^ k * 2 ^ (l - k))%N)
    by (rewrite <- N.pow_add_r; f_equal; lia).
  assert (H : (2 ^ (l - k) <= x / 2 ^ k)%N).
  { apply N.div_le_lower_bound; [apply N.pow_nonzero; discriminate|].
    now rewrite <- E. }
  rewrite E, (N.mul_comm (2 ^ k)). now apply N.mul_le_mono_r.
Qed.

Lemma size_round_down53 (x : N) : N.size (round_down53 x) = N.size x.
Proof.
  apply N.le_antisymm; [apply size_mono, round_down53_le|].
  destruct (N.eq_dec x 0) as [->|Hx]; [apply N.le_0_l|].
  pose proof (round_down53_top x Hx) as Htop.
  pose proof (pow2_pos (N.log2 x)) as Hpos.
  rewrite !N.size_log2 by lia. apply -> N.succ_le_mono.
  apply N.log2_le_pow2; [lia | assumption].
Qed.

Lemma is_double_round (x : N) : is_double (round_down53 x).
Proof.
  apply is_double_divide. rewrite size_round_down53, round_down53_mul.
  apply N.divide_factor_r.
Qed.

Lemma is_double_multiple (x j : N) :
  (2 ^ j | x)%N -> (N.size x - 53 <= j)%N -> is_double x.
Proof.
  intros Hd Hj. apply is_double_divide.
  eapply N.divide_trans; [|exact Hd]. now apply pow2_divide.
Qed.

Lemma multiple_next (x y d : N) :
  (d | x)%N -> (d | y)%N -> (y < x)%N -> (y + d <= x)%N.
Proof.
  intros [a ->] [b ->] H.
  assert (Hab : (b < a)%N) by nia. nia.
Qed.

(** The doubles are in a row: [next_double y] is the first one above
    [y]. *)
Lemma double_next_le (x y : N) :
  is_double x -> is_double y -> (y < x)%N -> (next_double y <= x)%N.
Proof.
  intros Hx Hy Hlt. apply is_double_divide in Hx, Hy.
  unfold next_double. apply multiple_next; [|assumption..].
  eapply N.divide_trans; [|exact Hx].
  apply pow2_divide.
  assert (N.size y <= N.size x)%N by (apply size_mono; lia). lia.
Qed.

Lemma next_double_gt (c : N) : (c < next_double c)%N.
Proof. unfold next_double. pose proof (pow2_pos (N.size c - 53)). lia. Qed.

Lemma is_double_next (c : N) : is_double c -> is_double (next_double c).
Proof.
  intros Hc. apply is_double_divide in Hc.
  set (s := N.size c) in *. set (k := (s - 53)%N) in *.
  assert (Hle : (next_double c <= 2 ^ s)%N).
  { unfold next_double. fold s k.
    apply multiple_next; [apply pow2_divide; lia | assumption |].
    apply N.size_gt. }
  assert (Hd : (2 ^ k | next_double c)%N).
  { unfold next_double. fold s k.
    apply N.divide_add_r; [assumption | apply N.divide_refl]. }
  destruct (N.eq_dec (next_double c) (2 ^ s)) as [E|Hne].
  - rewrite E. apply (is_double_multiple _ s); [apply N.divide_refl|].
    rewrite size_pow2. lia.
  - apply (is_double_multiple _ k); [assumption|].
    assert (N.size (next_double c) <= s)%N by (apply size_below; lia).
    lia.
Qed.

Lemma half_way_bounds (c : N) :
  (2 ^ 54 * c <= half_way c <= 2 ^ 54 * next_double c)%N.
Proof.
  unfold half_way, next_double.
  set (s := N.size c). set (k := (s - 53)%N).
  assert (H : (2 ^ s <= 2 ^ 54 * 2 ^ k)%N).
  { rewrite <- N.pow_add_r. apply N.pow_le_mono_r; [discriminate|lia]. }
  rewrite N.mul_add_distr_l.
  generalize dependent (2 ^ s)%N. generalize (2 ^ 54 * 2 ^ k)%N.
  generalize (2 ^ 54 * c)%N. intros; lia.
Qed.

(** ** The nearest double of the power *)

Lemma floor_pow_positive (num den : positive) (count : N) :
  (1 <= count)%N ->
  floor_pow num den count
  = fst (climb num den count (N.to_nat (2 * N.size count + 2))
           (round_down53 (exact_floor count))).
Proof. intros H. destruct count; [lia | reflexivity]. Qed.

Section NearestDouble.

Variables num den : positive.

Hypothesis exponent : (10 * N.pos num = 13 * N.pos den + 2)%N.

Variable n : N.

Hypothesis count_positive : (1 <= n)%N.

Lemma reached_next (c : N) :
  reached num den n c -> power_ge num den n (half_way c) ->
  reached num den n (next_double c).
Proof.
  intros [Hc Hbelow] Hge. split; [now apply is_double_next|].
  intros y Hy Hlt.
  destruct (N.lt_trichotomy y c) as [H|[->|H]].
  - now apply Hbelow.
  - assumption.
  - pose proof (double_next_le y c Hy Hc H). lia.
Qed.

Lemma reached_exact : reached num den n (round_down53 (exact_floor n)).
Proof.
  split; [apply is_double_round|]. intros y Hy Hlt.
  pose proof (double_next_le _ _ (is_double_round _) Hy Hlt) as Hnext.
  apply (power_ge_le num den n (2 ^ 54 * exact_floor n)).
  - eapply N.le_trans; [apply half_way_bounds|].
    apply N.mul_le_mono_l.
    eapply N.le_trans; [exact Hnext | apply round_down53_le].
  - apply power_ge_exact; [assumption.. |].
    unfold exact_floor. apply root10_spec.
Qed.

Lemma climb_spec (depth : nat) :
  forall c c' found,
    reached num den n c ->
    climb num den n depth c = (c', found) ->
    reached num den n c'
    /\ (c <= c')%N
    /\ (found = true -> ~ power_ge num den n (half_way c'))
    /\ (found = false ->
        (c + 2 ^ N.of_nat depth <= c')%N
        /\ power_ge num den n (2 ^ 54 * (c + 2 ^ N.of_nat depth - 1))).
Proof.
  induction depth as [|d IH]; intros c c' found Hc.
  - cbn [climb].
    destruct (at_least num den n (half_way c)) eqn:Hat; intros [= <- <-].
    + apply (at_least_spec num den exponent n _ count_positive) in Hat.
      split; [now apply reached_next|].
      pose proof (next_double_gt c) as Hgt.
      split; [lia|]. split; [discriminate|]. intros _.
      change (2 ^ N.of_nat 0)%N with 1%N. split; [lia|].
      replace (c + 1 - 1)%N with c by lia.
      eapply power_ge_le; [|exact Hat]. apply half_way_bounds.
    + split; [assumption|]. split; [apply N.le_refl|].
      split; [|discriminate]. intros _ H.
      apply (at_least_spec num den exponent n _ count_positive) in H.
      rewrite H in Hat. discriminate.
  - cbn [climb].
    destruct (climb num den n d c) as [c1 found1] eqn:E1.
    destruct (IH _ _ _ Hc E1) as (Hc1 & Hle1 & Hstop1 & Hgo1).
    destruct found1.
    + intros [= <- <-]. split; [assumption|]. split; [assumption|].
      split; [intros _; now apply Hstop1 | discriminate].
    + intros E2. destruct (IH _ _ _ Hc1 E2) as (Hc2 & Hle2 & Hstop2 & Hgo2).
      destruct (Hgo1 eq_refl) as [Hfar1 _].
      split; [assumption|]. split; [lia|]. split; [assumption|].
      intros Hf. destruct (Hgo2 Hf) as [Hfar2 Hge2].
      assert (E : (2 ^ N.of_nat (S d) = 2 ^ N.of_nat d + 2 ^ N.of_nat d)%N).
      { rewrite Nat2N.inj_succ, N.pow_succ_r'. lia. }
      rewrite E. split; [lia|].
      eapply power_ge_le; [|exact Hge2].
      apply N.mul_le_mono_l. lia.
Qed.

Lemma floor_pow_spec :
  nearest_floor num den n (floor_pow num den n)
  /\ (round_down53 (exact_floor n) <= floor_pow num den n)%N.
Proof.
  rewrite floor_pow_positive by assumption.
  destruct (climb num den n _ _) as [w found] eqn:E. cbn [fst].
  destruct (climb_spec _ _ _ _ reached_exact E)
    as ([Hw Hbelow] & Hle & Hstop & Hgo).
  destruct found.
  - split; [|assumption]. split; [now split | now apply Hstop].
  - exfalso. destruct (Hgo eq_refl) as [_ Hge].
    apply power_ge_square in Hge; [|assumption..].
    rewrite N2Nat.id in Hge.
    pose proof (N.size_gt n) as Hsize.
    assert (E2 : (2 ^ (2 * N.size n + 2) = 4 * (2 ^ N.size n * 2 ^ N.size n))%N).
    { rewrite N.pow_add_r, N.pow_mul_r, <- N.pow_mul_l, N.pow_2_r.
      change (2 ^ 2)%N with 4%N. lia. }
    rewrite E2 in Hge.
    generalize dependent (2 ^ N.size n)%N. intros; nia.
Qed.

End NearestDouble.

(** ** The weight of a count *)

Lemma exponent_1_3 :
  (10 * N.pos exponent_num = 13 * N.pos exponent_den + 2)%N.
Proof. reflexivity. Qed.

Lemma exact_floor_spec n :
  (exact_floor n ^ 10 <= n ^ 13 < (exact_floor n + 1) ^ 10)%N.
Proof. apply root10_spec. Qed.

Lemma exact_floor_unique n k :
  (k ^ 10 <= n ^ 13 < (k + 1) ^ 10)%N -> exact_floor n = k.
Proof.
  intros [Hk1 Hk2]. destruct (exact_floor_spec n) as [Hw1 Hw2].
  destruct (N.lt_trichotomy (exact_floor n) k) as [Hlt|[Heq|Hgt]];
    [exfalso | assumption | exfalso].
  - assert ((exact_floor n + 1) ^ 10 <= k ^ 10)%N
      by (apply N.pow_le_mono_l; lia). lia.
  - assert ((k + 1) ^ 10 <= exact_floor n ^ 10)%N
      by (apply N.pow_le_mono_l; lia). lia.
Qed.

Lemma exact_floor_ge (n : N) : (n <= exact_floor n)%N.
Proof.
  destruct (exact_floor_spec n) as [_ Hn].
  destruct (N.le_gt_cases n (exact_floor n)) as [|Hgt]; [assumption|].
  exfalso.
  assert (H1 : ((exact_floor n + 1) ^ 10 <= n ^ 10)%N)
    by (apply N.pow_le_mono_l; lia).
  assert (H2 : (n ^ 10 <= n ^ 13)%N)
    by (apply N.pow_le_mono_r; lia).
  lia.
Qed.

(** Rounding the exact integer part down to 53 bits does not take it
    below the count. *)
Lemma count_le_round (n : N) : (n <= round_down53 (exact_floor n))%N.
Proof.
  pose proof (exact_floor_ge n) as Hge.
  destruct (N.le_gt_cases (N.size (exact_floor n)) 53) as [Hs|Hs].
  { now rewrite round_down53_small. }
  destruct (N.le_gt_cases n (round_down53 (exact_floor n))) as [|Hlt];
    [assumption | exfalso].
  destruct (exact_floor_spec n) as [_ Hn].
  set (t := exact_floor n) in *. set (c := round_down53 t) in *.
  assert (Ht : t <> 0%N) by (intros E; rewrite E in Hs; discriminate Hs).
  assert (Hc : (2 ^ N.log2 t <= c)%N) by now apply round_down53_top.
  assert (Hsize : N.size t = N.succ (N.log2 t)) by now apply N.size_log2.
  assert (Ht2 : (t < 2 * c)%N).
  { pose proof (N.size_gt t) as H. rewrite Hsize, N.pow_succ_r' in H. lia. }
  assert (Hbig : (2 ^ 53 <= c)%N).
  { eapply N.le_trans; [|exact Hc]. apply N.pow_le_mono_r; lia. }
  assert (H1 : ((t + 1) ^ 10 <= (2 * n) ^ 10)%N)
    by (apply N.pow_le_mono_l; lia).
  rewrite N.pow_mul_l in H1.
  assert (H2 : (n ^ 13 = n ^ 10 * n ^ 3)%N)
    by (rewrite <- N.pow_add_r; reflexivity).
  assert (H3 : (2 ^ 53 <= n)%N) by lia.
  assert (H4 : ((2 ^ 53) ^ 3 <= n ^ 3)%N) by now apply N.pow_le_mono_l.
  assert (H5 : (0 < n ^ 10)%N) by (apply N.neq_0_lt_0, N.pow_nonzero; lia).
  rewrite H2 in Hn.
  assert (H6 : (n ^ 10 * n ^ 3 < 2 ^ 10 * n ^ 10)%N) by lia.
  assert (H7 : (n ^ 10 * 2 ^ 10 < n ^ 10 * n ^ 3)%N).
  { apply N.mul_lt_mono_pos_l; [assumption|].
    eapply N.lt_le_trans; [|exact H4]. reflexivity. }
  lia.
Qed.

(** [weightedCount n] is the integer part of the double nearest to
    [n ^ 1.3], for the double [1.3]. *)
Lemma weightedCount_nearest (n : N) :
  (1 <= n)%N -> nearest_floor exponent_num exponent_den n (weightedCount n).
Proof.
  intros Hn. now apply (floor_pow_spec _ _ exponent_1_3 n Hn).
Qed.


Lemma weightedCount_round (n : N) :
  (round_down53 (exact_floor n) <= weightedCount n)%N.
Proof.
  destruct (N.eq_dec n 0) as [->|Hn]; [vm_compute; discriminate|].
  apply (floor_pow_spec _ _ exponent_1_3 n). lia.
Qed.

Lemma weightedCount_ge (n : N) : (n <= weightedCount n)%N.
Proof.
  eapply N.le_trans; [apply count_le_round | apply weightedCount_round].
Qed.

Lemma weightedCount_positive n : (1 <= n)%N -> (1 <= weightedCount n)%N.
Proof. intros Hn. pose proof (weightedCount_ge n). lia. Qed.

Lemma weightedCount_le (a b : N) :
  (a <= b)%N -> (weightedCount a <= weightedCount b)%N.
Proof.
  intros Hab. destruct (N.eq_dec a 0) as [->|Ha]; [apply N.le_0_l|].
  destruct (weightedCount_nearest a) as [[_ Hbelow] _]; [lia|].
  destruct (weightedCount_nearest b) as [[Hb _] Hstop]; [lia|].
  destruct (N.le_gt_cases (weightedCount a) (weightedCount b)) as [|Hgt];
    [assumption | exfalso].
  apply Hstop. apply (power_ge_mono _ _ a b); [assumption|].
  now apply Hbelow.
Qed.


Example weightedCount_values :
  weightedCount 1 = 1%N /\ weightedCount 2 = 2%N
  /\ weightedCount 10 = 19%N /\ weightedCount 100 = 398%N.
Proof. repeat split; vm_compute; reflexivity. Qed.



(** ** The trained model *)

Lemma category_ok_not_weights c :
  category_ok c -> str_eqb c selectionWeights_key = false.
Proof.
  intros [->|[->|[->|[p ->]]]]; try reflexivity.
  apply str_eqb_neq. intros H.
  apply (f_equal (@List.length code_unit)) in H. discriminate H.
Qed.

Lemma MarkovGenerator_categories sourceSequences c :
  obj_get (categories (MarkovGenerator sourceSequences)) c
  = option_map weigh_map (obj_get (buildRawModel sourceSequences) c).
Proof.
  unfold MarkovGenerator.
  destruct sourceSequences as [|s rest].
  - simpl. unfold initial_model. simpl.
    repeat (destruct (str_eqb _ c); [reflexivity|]). reflexivity.
  - cbn [List.length Nat.eqb].
    pose proof (raw_inv_buildRawModel (s :: rest)) as Hinv.
    apply applyWeighting_spec; [apply Hinv | apply Hinv].
Qed.

Lemma MarkovGenerator_order sourceSequences :
  insertion_order (categories (MarkovGenerator sourceSequences))
  = insertion_order (buildRawModel sourceSequences).
Proof.
  unfold MarkovGenerator.
  destruct sourceSequences as [|s rest]; [reflexivity|].
  cbn [List.length Nat.eqb].
  pose proof (raw_inv_buildRawModel (s :: rest)) as Hinv.
  apply applyWeighting_spec; [apply Hinv | apply Hinv].
Qed.

(** Every total of the trained model is the sum of its category. *)
Lemma MarkovGenerator_weights sourceSequences c total :
  obj_get (selectionWeights (MarkovGenerator sourceSequences)) c = Some total ->
  exists fm,
    obj_get (categories (MarkovGenerator sourceSequences)) c = Some fm
    /\ model_get (MarkovGenerator sourceSequences) c = Some fm
    /\ NoDup (insertion_order fm)
    /\ total = total_weight fm.
Proof.
  intros Hw.
  pose proof (MarkovGenerator_categories sourceSequences c) as Hc.
  pose proof (raw_inv_buildRawModel sourceSequences) as Hinv.
  unfold MarkovGenerator in Hw.
  destruct sourceSequences as [|s rest]; [discriminate|].
  cbn [List.length Nat.eqb] in Hw.
  destruct (applyWeighting_spec (buildRawModel (s :: rest))
              (inv_nodup _ _ Hinv) (inv_distinct _ _ Hinv)) as (_ & _ & Hws).
  rewrite Hws in Hw.
  destruct (obj_get (buildRawModel (s :: rest)) c) as [fm|] eqn:Efm;
    [|discriminate].
  simpl in Hw, Hc. injection Hw as <-.
  exists (weigh_map fm). split; [assumption|]. split; [|split].
  - unfold model_get. rewrite category_ok_not_weights; [assumption|].
    eapply inv_categories; [exact Hinv|]. eauto using obj_get_some_key.
  - rewrite insertion_order_weigh_map. eapply inv_distinct; eauto.
  - reflexivity.
Qed.

(** Every leaf of the trained model is the weight of a count of at
    least one. *)
Lemma MarkovGenerator_leaf sourceSequences c fm k (x : N) :
  obj_get (categories (MarkovGenerator sourceSequences)) c = Some fm ->
  obj_get fm k = Some x ->
  exists raw_fm n,
    obj_get (buildRawModel sourceSequences) c = Some raw_fm
    /\ obj_get raw_fm k = Some n /\ (1 <= n)%N /\ x = weightedCount n.
Proof.
  rewrite MarkovGenerator_categories.
  destruct (obj_get (buildRawModel sourceSequences) c) as [raw_fm|] eqn:E;
    [|discriminate].
  intros [= <-]. rewrite obj_get_weigh_map.
  destruct (obj_get raw_fm k) as [n|] eqn:En; [|discriminate].
  intros [= <-]. exists raw_fm, n. repeat split; try assumption.
  eapply inv_positive; eauto using raw_inv_buildRawModel.
Qed.

(** ** The sampler *)

Lemma randomIndex_lt u total :
  (0 < total)%N -> (randomIndex u total < total)%N.
Proof.
  intros Ht. unfold randomIndex.
  apply N.Div0.div_lt_upper_bound.
  assert (0 < N.pos (ui_gap u))%N by lia. nia.
Qed.

Lemma randomIndex_draw_of r total :
  (r < total)%N -> randomIndex (draw_of r total) total = r.
Proof.
  intros Hr. unfold randomIndex, draw_of. simpl.
  rewrite N.succ_pos_spec.
  replace (r + N.succ (N.pred (total - r)))%N with total by lia.
  apply N.div_mul. lia.
Qed.

(** What the loop of [selectChoice] returns, started with the weight
    [acc] on the choices [ks]. *)
Lemma walk_choices_some fm r ks :
  forall acc choice,
    walk_choices fm r acc ks = Some choice ->
    (acc <= r)%N ->
    exists pre post,
      ks = pre ++ choice :: post
      /\ (acc + cumulative fm pre <= r
          < acc + cumulative fm pre + or_zero (obj_get fm choice))%N.
Proof.
  induction ks as [|k ks IH]; intros acc choice Hwalk Hacc; [discriminate|].
  simpl in Hwalk.
  destruct (r <? acc + or_zero (obj_get fm k))%N eqn:Hlt.
  - injection Hwalk as <-. apply N.ltb_lt in Hlt.
    exists [], ks. simpl. split; [reflexivity | lia].
  - apply N.ltb_ge in Hlt.
    destruct (IH _ _ Hwalk Hlt) as (pre & post & -> & Hb).
    exists (k :: pre), post. rewrite cumulative_cons.
    split; [reflexivity | lia].
Qed.

Lemma walk_choices_none fm r ks :
  forall acc,
    walk_choices fm r acc ks = None ->
    (acc <= r)%N -> (acc + cumulative fm ks <= r)%N.
Proof.
  induction ks as [|k ks IH]; intros acc Hwalk Hacc;
    [simpl; lia|].
  rewrite cumulative_cons. simpl in Hwalk.
  destruct (r <? acc + or_zero (obj_get fm k))%N eqn:Hlt; [discriminate|].
  apply N.ltb_ge in Hlt. apply IH in Hwalk; [lia | assumption].
Qed.

Lemma walk_choices_in fm r ks acc choice :
  walk_choices fm r acc ks = Some choice -> In choice ks.
Proof.
  revert acc. induction ks as [|k ks IH]; intros acc; simpl; [discriminate|].
  destruct (r <? acc + or_zero (obj_get fm k))%N.
  - intros [= ->]. now left.
  - intros H. right. eauto.
Qed.

Lemma last_or_false_in choices choice :
  last_or_false choices = Some choice -> In choice choices.
Proof.
  unfold last_or_false. destruct (rev choices) as [|c l] eqn:E; [discriminate|].
  destruct (truthy c); [|discriminate]. intros [= <-].
  apply in_rev. rewrite E. now left.
Qed.

(** The two ways [selectChoice] ends: without a draw and with [false],
    or with one draw. *)
Lemma selectChoice_cases m category src pos :
  selectChoice m category src pos = (None, pos)
  \/ exists total fm,
       obj_get (selectionWeights m) category = Some total
       /\ (0 < total)%N
       /\ model_get m category = Some fm
       /\ Object_keys fm <> []
       /\ selectChoice m category src pos
          = (match walk_choices fm (randomIndex (src pos) total) 0
                     (Object_keys fm) with
             | Some choice => Some choice
             | None => last_or_false (Object_keys fm)
             end, S pos).
Proof.
  unfold selectChoice.
  destruct (obj_get (selectionWeights m) category) as [total|]; [|now left].
  destruct (total <=? 0)%N eqn:Ht; [now left|]. apply N.leb_gt in Ht.
  destruct (model_get m category) as [fm|]; [|now left].
  destruct (Object_keys fm) as [|k ks] eqn:Eks; [now left|].
  right. exists total, fm. rewrite Eks.
  repeat (split; [first [reflexivity | assumption | discriminate]|]).
  cbn [List.length Nat.eqb]. unfold bind, Math_random, ret.
  destruct (walk_choices _ _ _ _); reflexivity.
Qed.

(** A choice returned by [selectChoice] is a key of the category. *)
Lemma selectChoice_key m category src pos choice pos' :
  selectChoice m category src pos = (Some choice, pos') ->
  exists fm,
    model_get m category = Some fm /\ In choice (insertion_order fm).
Proof.
  intros H.
  destruct (selectChoice_cases m category src pos)
    as [E|(total & fm & _ & _ & Hfm & _ & E)]; rewrite E in H;
    [discriminate|].
  exists fm. split; [assumption|]. apply in_Object_keys.
  injection H as H _.
  destruct (walk_choices _ _ _ _) eqn:Hw.
  - injection H as ->. eauto using walk_choices_in.
  - now apply last_or_false_in.
Qed.

(** ** Computations read the random source only where they draw *)

Lemma local_ret {A} (a : A) : local (ret a).
Proof.
  intros src1 pos a' pos'. unfold ret. intros [= <- <-].
  split; [lia | reflexivity].
Qed.

Lemma local_Math_random : local Math_random.
Proof.
  intros src1 pos a pos'. unfold Math_random. intros [= <- <-].
  split; [lia|]. intros src2 H. rewrite (H pos); [reflexivity | lia].
Qed.

Lemma local_bind {A B} (c : Rand A) (k : A -> Rand B) :
  local c -> (forall a, local (k a)) -> local (bind c k).
Proof.
  intros Hc Hk src1 pos b pos'. unfold bind.
  destruct (c src1 pos) as [a pos1] eqn:Ec. intros Ek.
  destruct (Hc _ _ _ _ Ec) as [Hle1 Hc'].
  destruct (Hk a _ _ _ _ Ek) as [Hle2 Hk'].
  split; [lia|]. intros src2 Hagree.
  rewrite Hc' by (intros i Hi; apply Hagree; lia).
  apply Hk'. intros i Hi. apply Hagree. lia.
Qed.

Create HintDb local_db.
#[local] Hint Resolve local_ret local_Math_random : local_db.

Lemma local_selectChoice m category : local (selectChoice m category).
Proof.
  unfold selectChoice.
  destruct (obj_get _ _); [|auto with local_db].
  destruct (_ <=? _)%N; [auto with local_db|].
  destruct (model_get _ _); [|auto with local_db].
  destruct (_ =? _)%nat; [auto with local_db|].
  apply local_bind; [auto with local_db|]. intros u.
  destruct (walk_choices _ _ _ _); auto with local_db.
Qed.

Lemma local_grow_term m len fuel :
  forall cur prev, local (grow_term m len fuel cur prev).
Proof.
  induction fuel as [|fuel IH]; intros cur prev; simpl;
    [auto with local_db|].
  destruct (shorter_than cur len); [|auto with local_db].
  apply local_bind; [apply local_selectChoice|].
  intros [next|]; [|auto with local_db].
  destruct (truthy next); auto with local_db.
Qed.

Lemma local_generate_term m : local (generate_term m).
Proof.
  unfold generate_term.
  apply local_bind; [apply local_selectChoice|]. intros len.
  apply local_bind; [apply local_selectChoice|]. intros initial.
  destruct (_ || _); [auto with local_db|].
  apply local_bind; [apply local_grow_term | auto with local_db].
Qed.

Lemma local_generate_terms m n :
  forall terms, local (generate_terms m n terms).
Proof.
  induction n as [|n IH]; intros terms; simpl; [auto with local_db|].
  apply local_bind; [apply local_generate_term|].
  intros [t|e]; auto with local_db.
Qed.

Lemma local_generate m : local (generate m).
Proof.
  unfold generate.
  apply local_bind; [apply local_selectChoice|]. intros count.
  apply local_bind; [apply local_generate_terms|].
  intros [terms|e]; auto with local_db.
Qed.

Lemma selectChoice_draw m category src pos total fm :
  obj_get (selectionWeights m) category = Some total ->
  (0 < total)%N ->
  model_get m category = Some fm ->
  Object_keys fm <> [] ->
  selectChoice m category src pos
  = (match walk_choices fm (randomIndex (src pos) total) 0 (Object_keys fm) with
     | Some choice => Some choice
     | None => last_or_false (Object_keys fm)
     end, S pos).
Proof.
  intros Hw Ht Hfm Hks. unfold selectChoice. rewrite Hw.
  apply N.leb_gt in Ht. rewrite Ht, Hfm.
  destruct (Object_keys fm) as [|k ks] eqn:Eks; [contradiction|].
  cbn [List.length Nat.eqb]. unfold bind, Math_random, ret.
  destruct (walk_choices _ _ _ _); reflexivity.
Qed.

Lemma selectChoice_no_entry m category src pos :
  obj_get (selectionWeights m) category = None ->
  selectChoice m category src pos = (None, pos).
Proof. intros Hw. unfold selectChoice. now rewrite Hw. Qed.

Lemma selectChoice_no_weight m category src pos total :
  obj_get (selectionWeights m) category = Some total ->
  (total <= 0)%N ->
  selectChoice m category src pos = (None, pos).
Proof.
  intros Hw Ht. unfold selectChoice. rewrite Hw.
  apply N.leb_le in Ht. now rewrite Ht.
Qed.

(** In a category whose total is the sum of its weights, the walk finds
    the first choice whose cumulative weight is above the index. *)
Lemma selectChoice_consistent m category src pos total fm :
  obj_get (selectionWeights m) category = Some total ->
  (0 < total)%N ->
  model_get m category = Some fm ->
  NoDup (insertion_order fm) ->
  total = total_weight fm ->
  exists choice,
    first_exceeding (Object_keys fm) fm (randomIndex (src pos) total) choice
    /\ selectChoice m category src pos = (Some choice, S pos).
Proof.
  intros Hw Ht Hfm Hnd Htotal.
  pose proof (randomIndex_lt (src pos) total Ht) as Hr.
  pose proof (cumulative_Object_keys fm Hnd) as Hcum.
  assert (Hks : Object_keys fm <> []).
  { intros E. rewrite E in Hcum. simpl in Hcum. lia. }
  rewrite (selectChoice_draw m category src pos total fm Hw Ht Hfm Hks).
  destruct (walk_choices fm (randomIndex (src pos) total) 0 (Object_keys fm))
    as [choice|] eqn:Hwalk.
  - exists choice. split; [|reflexivity].
    apply walk_choices_some in Hwalk; [|lia].
    destruct Hwalk as (pre & post & E & Hb).
    exists pre, post. split; [assumption | lia].
  - apply walk_choices_none in Hwalk; lia.
Qed.

(** There is one first choice above the index at most. *)
Lemma first_exceeding_unique order fm :
  forall r c1 c2,
    first_exceeding order fm r c1 -> first_exceeding order fm r c2 -> c1 = c2.
Proof.
  intros r c1 c2 (pre1 & post1 & E1 & H1) (pre2 & post2 & E2 & H2).
  subst order. revert r pre2 E2 H1 H2.
  induction pre1 as [|k pre1 IH]; intros r [|k2 pre2] E2 H1 H2;
    simpl in E2; injection E2 as E2h E2t.
  - congruence.
  - subst k2. rewrite cumulative_cons in H2. simpl in H1. lia.
  - subst k. rewrite cumulative_cons in H1. simpl in H2. lia.
  - subst k2. rewrite cumulative_cons in H1, H2.
    apply (IH (r - or_zero (obj_get fm k))%N pre2); [assumption | lia | lia].
Qed.

(** The order of [Object.keys]: the digits come first, in ascending
    order, then the other keys as they were created. *)
Example Object_keys_indices_first :
  Object_keys [(lit "b", 1%N); (lit "10", 1%N); (lit "a", 1%N);
               (lit "9", 1%N); (lit "01", 1%N)]
  = [lit "9"; lit "10"; lit "b"; lit "a"; lit "01"].
Proof. reflexivity. Qed.

(** ** C1: the weighted-sample primitive *)

(** C1, amended.  On every trained model and for every category name:
    when the category has no entry in [selectionWeights] or its total is
    not positive, [selectChoice] returns [false] (here [None]) without
    drawing; otherwise it draws once, the index [r] it computes lies in
    [0, total), and it returns the first choice, in the order of
    [Object.keys] (array indices in ascending numeric order, then the
    other keys in creation order), whose cumulative weight is strictly
    above [r].  Every index of [0, total) is the index of some draw. *)
Theorem selectChoice_spec (sourceSequences : list jsstring)
    (category : jsstring) (src : random_source) (pos : nat) :
  let m := MarkovGenerator sourceSequences in
  match obj_get (selectionWeights m) category with
  | None => selectChoice m category src pos = (None, pos)
  | Some total =>
      if (total <=? 0)%N then selectChoice m category src pos = (None, pos)
      else
        let r := randomIndex (src pos) total in
        (r < total)%N
        /\ (exists fm choice,
              model_get m category = Some fm
              /\ first_exceeding (Object_keys fm) fm r choice
              /\ selectChoice m category src pos = (Some choice, S pos))
        /\ (forall r', (r' < total)%N ->
                       randomIndex (draw_of r' total) total = r')
  end.
Proof.
  intros m.
  destruct (obj_get (selectionWeights m) category) as [total|] eqn:Hw;
    [|now apply selectChoice_no_entry].
  destruct (total <=? 0)%N eqn:Ht.
  - apply N.leb_le in Ht. eapply selectChoice_no_weight; eauto.
  - apply N.leb_gt in Ht. intros r. split; [now apply randomIndex_lt|].
    split; [|intros r'; apply randomIndex_draw_of].
    destruct (MarkovGenerator_weights _ _ _ Hw) as (fm & _ & Hfm & Hnd & Htot).
    destruct (selectChoice_consistent m category src pos total fm
                Hw Ht Hfm Hnd Htot) as (choice & Hfirst & Hsel).
    now exists fm, choice.
Qed.

(** C1 as stated fails: the stored order of [termCount] after training
    on "a b" and then "c" is "2", "1", and with the index [0] the first
    choice of that order whose cumulative weight exceeds the index is
    "2"; [selectChoice] returns "1", the first key of [Object.keys]. *)
Lemma selectChoice_not_insertion_order :
  let m := MarkovGenerator [lit "a b"; lit "c"] in
  let fm := [(lit "2", 1%N); (lit "1", 1%N)] in
  model_get m termCount = Some fm
  /\ insertion_order fm = [lit "2"; lit "1"]
  /\ obj_get (selectionWeights m) termCount = Some 2%N
  /\ randomIndex zero_draw 2 = 0%N
  /\ first_exceeding (insertion_order fm) fm 0 (lit "2")
  /\ selectChoice m termCount (always zero_draw) 0 = (Some (lit "1"), 1%nat)
  /\ ~ first_exceeding (insertion_order fm) fm 0 (lit "1").
Proof.
  cbv zeta. repeat split; try reflexivity.
  - exists [], [lit "1"]. split; [reflexivity|]. vm_compute. split; [discriminate | reflexivity].
  - intros (pre & post & E & Hb).
    destruct pre as [|k pre]; [discriminate E|].
    injection E as <- E.
    rewrite cumulative_cons in Hb.
    change (or_zero (obj_get [(lit "2", 1%N); (lit "1", 1%N)] (lit "2")))
      with 1%N in Hb.
    lia.
Qed.

(** ** C2: the totals of the weighting stage *)

(** C2.  For every training input, the weighting stage keeps the
    categories of the raw model, in their order, and replaces every raw
    count of a category by its weight; [selectionWeights] has an entry
    exactly for the categories of the raw model, the three fixed ones
    among them, and the entry of a category is the sum of the re-weighted
    leaf values stored in that category, that is the sum of the weights
    of the raw counts of the category. *)
Theorem selectionWeights_sum (sourceSequences : list jsstring)
    (c : jsstring) :
  let raw := buildRawModel sourceSequences in
  let m := applyWeighting raw in
  insertion_order (categories m) = insertion_order raw
  /\ obj_get (categories m) c = option_map weigh_map (obj_get raw c)
  /\ obj_get (selectionWeights m) c
     = option_map total_weight (obj_get (categories m) c)
  /\ obj_get (selectionWeights m) c
     = option_map
         (fun fm : FrequencyMap =>
            fold_right N.add 0%N
              (List.map (fun kv => weightedCount (snd kv)) fm))
         (obj_get raw c)
  /\ (obj_get (selectionWeights m) c <> None
      <-> In c (insertion_order raw))
  /\ (In c [termCount; termLength; initialUnit] ->
      obj_get (selectionWeights m) c <> None).
Proof.
  intros raw m.
  pose proof (raw_inv_buildRawModel sourceSequences) as Hinv. fold raw in Hinv.
  destruct (applyWeighting_spec raw
              (inv_nodup _ _ Hinv) (inv_distinct _ _ Hinv)) as (Ho & Hc & Hw).
  fold m in Ho, Hc, Hw.
  assert (Hentry : obj_get (selectionWeights m) c <> None
                   <-> In c (insertion_order raw)).
  { rewrite Hw. split.
    - intros Hsome. destruct (obj_get raw c) as [fm|] eqn:E;
        [|now elim Hsome]. eapply obj_get_some_key; eassumption.
    - intros Hin. apply obj_key_get in Hin. destruct Hin as (fm & ->).
      discriminate. }
  split; [exact Ho|]. split; [apply Hc|]. split; [|split; [|split]].
  - rewrite Hw, Hc. now destruct (obj_get raw c).
  - rewrite Hw. destruct (obj_get raw c) as [fm|]; [|reflexivity].
    simpl. f_equal. unfold total_weight, weigh_map. now rewrite map_map.
  - exact Hentry.
  - intros Hin. apply Hentry.
    destruct (inv_fixed _ _ Hinv) as (H1 & H2 & H3).
    destruct Hin as [<-|[<-|[<-|[]]]]; assumption.
Qed.

Lemma selectionWeights_sum_witness :
  let raw :=
    buildRawModel [lit "a"; lit "a"; lit "a"; lit "a"; lit "b"] in
  let m := applyWeighting raw in
  obj_get raw initialUnit = Some [(lit "a", 4%N); (lit "b", 1%N)]
  /\ obj_get (categories m) initialUnit
     = Some [(lit "a", 6%N); (lit "b", 1%N)]
  /\ obj_get (selectionWeights m) initialUnit = Some 7%N.
Proof.
  intros raw m.
  destruct (selectionWeights_sum
              [lit "a"; lit "a"; lit "a"; lit "a"; lit "b"] initialUnit)
    as (_ & Hc & _ & Hw & _ & Hfixed).
  fold raw in Hc, Hw, Hfixed. fold m in Hc, Hw, Hfixed.
  assert (Hraw : obj_get raw initialUnit
                 = Some [(lit "a", 4%N); (lit "b", 1%N)])
    by (vm_compute; reflexivity).
  split; [exact Hraw|]. split.
  - rewrite Hc, Hraw. vm_compute. reflexivity.
  - rewrite Hw, Hraw. vm_compute. reflexivity.
Defined.

(** ** C3: the re-weighting of the leaves *)



(** ** C9: no leaf of a trained model has weight zero *)

(** C9 as stated fails: no model built from training data has a leaf of
    weight 0. *)
Lemma no_zero_weight_leaf :
  ~ exists sourceSequences c fm k,
      obj_get (categories (MarkovGenerator sourceSequences)) c = Some fm
      /\ obj_get fm k = Some 0%N.
Proof.
  intros (sourceSequences & c & fm & k & Hfm & Hk).
  destruct (MarkovGenerator_leaf _ _ _ _ _ Hfm Hk) as (raw_fm & n & _ & _ & Hn & Hx).
  apply weightedCount_positive in Hn. lia.
Qed.

(** C9, amended.  Every leaf of a model built from training data has a
    weight of at least 1 (raw counts are at least 1, and so is the
    integer part of their power); the weighting stage removes no entry:
    every category keeps its choices, in their order; and in any model,
    in a category whose total is the sum of its weights, a choice that
    [selectChoice] returns has a positive weight, so that an entry of
    weight 0 is never returned. *)
Theorem weights_positive_entries_kept (sourceSequences : list jsstring)
    (c : jsstring) :
  let raw := buildRawModel sourceSequences in
  let m := MarkovGenerator sourceSequences in
  (forall fm k x,
      obj_get (categories m) c = Some fm -> obj_get fm k = Some x ->
      (1 <= x)%N)
  /\ option_map insertion_order (obj_get (categories m) c)
     = option_map insertion_order (obj_get raw c)
  /\ (forall (model : WeightedModel) category total fm src pos choice pos',
         obj_get (selectionWeights model) category = Some total ->
         model_get model category = Some fm ->
         NoDup (insertion_order fm) ->
         total = total_weight fm ->
         selectChoice model category src pos = (Some choice, pos') ->
         (0 < or_zero (obj_get fm choice))%N).
Proof.
  intros raw m. split; [|split].
  - intros fm k x Hfm Hk.
    destruct (MarkovGenerator_leaf _ _ _ _ _ Hfm Hk)
      as (raw_fm & n & _ & _ & Hn & ->).
    now apply weightedCount_positive.
  - unfold m. rewrite MarkovGenerator_categories. fold raw.
    destruct (obj_get raw c) as [fm|]; [|reflexivity].
    simpl. now rewrite insertion_order_weigh_map.
  - intros model category total fm src pos choice pos' Hw Hfm Hnd Htot Hsel.
    destruct (N.eq_dec total 0) as [E|Hpos].
    + rewrite (selectChoice_no_weight model category src pos total Hw) in Hsel
        by lia. discriminate.
    + destruct (selectChoice_consistent model category src pos total fm
                  Hw ltac:(lia) Hfm Hnd Htot)
        as (choice' & (pre & post & _ & Hb) & Hsel').
      rewrite Hsel' in Hsel. injection Hsel as <- _. lia.
Qed.

Lemma weights_positive_entries_kept_witness :
  (1 <= 6)%N
  /\ (0 < or_zero (obj_get [(lit "a", 0%N); (lit "b", 2%N)] (lit "b")))%N.
Proof.
  destruct (weights_positive_entries_kept [lit "a b"; lit "c"; lit "d"]
              termLength) as (Hpos & _ & Hsel).
  split.
  - apply (Hpos [(lit "1", 6%N)] (lit "1")); reflexivity.
  - apply (Hsel zero_entry_model initialUnit 2%N
             [(lit "a", 0%N); (lit "b", 2%N)] (always zero_draw) 0%nat
             (lit "b") 1%nat); try reflexivity.
    repeat constructor; simpl; intuition discriminate.
Defined.

(** ** C5: training on nothing *)

Lemma tokenize_spaces_from (s : jsstring) :
  forallb is_space s = true ->
  forall in_gap,
    filter (fun t => (0 <? str_length t)%N) (split_ws_from [] in_gap s) = [].
Proof.
  induction s as [|c s IH]; intros Hs in_gap; [reflexivity|].
  simpl in Hs. apply andb_prop in Hs. destruct Hs as [Hc Hs].
  cbn [split_ws_from]. rewrite Hc.
  destruct in_gap; [now apply IH|].
  cbn [filter rev]. now apply IH.
Qed.

Lemma tokenize_spaces (s : jsstring) :
  forallb is_space s = true -> tokenize s = [].
Proof. intros Hs. now apply tokenize_spaces_from. Qed.

Lemma train_sequence_spaces model (s : jsstring) :
  forallb is_space s = true -> train_sequence model s = model.
Proof.
  intros Hs. unfold train_sequence.
  destruct (negb (truthy s)); [reflexivity|].
  now rewrite (tokenize_spaces s Hs).
Qed.

Lemma buildRawModel_spaces (sourceSequences : list jsstring) :
  Forall (fun s => forallb is_space s = true) sourceSequences ->
  buildRawModel sourceSequences = initial_model.
Proof.
  unfold buildRawModel. generalize initial_model.
  induction sourceSequences as [|s rest IH]; intros model Hall;
    [reflexivity|].
  inversion Hall; subst. simpl.
  rewrite train_sequence_spaces by assumption. now apply IH.
Qed.

(** C5 as stated fails: after training on an empty string and a string
    of three spaces, [selectionWeights] is not empty; it holds the three
    fixed categories with the total 0. *)
Lemma selectionWeights_not_empty :
  selectionWeights (MarkovGenerator [lit ""; lit "   "]) = zero_weights
  /\ selectionWeights (MarkovGenerator [lit ""; lit "   "]) <> obj_empty.
Proof. split; [reflexivity | discriminate]. Qed.

(** C5, amended.  The constructor is a total function.  From an empty
    array, or from strings that are empty or made of white space only,
    it yields a model whose categories are exactly the three fixed
    ones, each an empty mapping; [selectionWeights] is empty when the
    array is empty, and otherwise holds the three fixed categories with
    the total 0.  On such a model every call of [generate] throws its
    error, without a draw, whatever the random source. *)
Theorem degenerate_training (sourceSequences : list jsstring) :
  Forall (fun s => forallb is_space s = true) sourceSequences ->
  let m := MarkovGenerator sourceSequences in
  categories m = initial_model
  /\ selectionWeights m
     = match sourceSequences with [] => obj_empty | _ :: _ => zero_weights end
  /\ forall src pos, generate m src pos = (Thrown generate_error, pos).
Proof.
  intros Hall m. unfold m, MarkovGenerator.
  destruct sourceSequences as [|s rest].
  - repeat split.
  - cbn [List.length Nat.eqb].
    rewrite (buildRawModel_spaces (s :: rest) Hall).
    repeat split.
Qed.

Lemma degenerate_training_witness :
  let m := MarkovGenerator [lit ""; lit "   "] in
  categories m = initial_model
  /\ selectionWeights m = zero_weights
  /\ forall src pos, generate m src pos = (Thrown generate_error, pos).
Proof.
  apply (degenerate_training [lit ""; lit "   "]).
  repeat constructor.
Defined.

(** ** Loops that push what their body returns *)

Section PushLoop.

Variable body : Rand (completion jsstring).

Lemma rounds_return_length src n pos results pos' :
  rounds_return body src n pos results pos' -> List.length results = n.
Proof. induction 1; simpl; congruence. Qed.

Lemma push_loop_returned src n :
  forall acc pos results pos',
    push_loop body n acc src pos = (Returned results, pos') <->
    exists rs, results = acc ++ rs /\ rounds_return body src n pos rs pos'.
Proof.
  induction n as [|n IH]; intros acc pos results pos'.
  - simpl. unfold ret. split.
    + intros [= <- <-]. exists []. rewrite app_nil_r.
      split; [reflexivity | constructor].
    + intros (rs & -> & H). inversion H; subst. now rewrite app_nil_r.
  - cbn [push_loop]. unfold bind.
    destruct (body src pos) as [[s|e] pos1] eqn:Eg.
    + rewrite IH. split.
      * intros (rs & -> & H). exists (s :: rs).
        rewrite <- app_assoc. split; [reflexivity|]. econstructor; eauto.
      * intros (rs & -> & H).
        inversion H as [|n0 p0 s0 p1 rs0 p2 Hg Hc]; subst.
        assert (s0 = s /\ p1 = pos1) as [-> ->] by (split; congruence).
        exists rs0. rewrite <- app_assoc. now split.
    + unfold ret. split; [discriminate|].
      intros (rs & _ & H). inversion H; subst. congruence.
Qed.

Lemma push_loop_thrown src n :
  forall acc pos e pos',
    push_loop body n acc src pos = (Thrown e, pos') <->
    exists k rs pos1,
      (k < n)%nat
      /\ rounds_return body src k pos rs pos1
      /\ body src pos1 = (Thrown e, pos').
Proof.
  induction n as [|n IH]; intros acc pos e pos'.
  - simpl. unfold ret. split; [discriminate|].
    intros (k & _ & _ & Hk & _). lia.
  - cbn [push_loop]. unfold bind.
    destruct (body src pos) as [[s|e0] pos1] eqn:Eg.
    + rewrite IH. split.
      * intros (k & rs & p & Hk & Hcalls & Hthrow).
        exists (S k), (s :: rs), p.
        split; [lia|]. split; [econstructor; eauto | assumption].
      * intros (k & rs & p & Hk & Hcalls & Hthrow).
        inversion Hcalls as [|n0 p0 s0 p1 rs0 p2 Hg Hc]; subst;
          [congruence|].
        assert (s0 = s /\ p1 = pos1) as [-> ->] by (split; congruence).
        exists n0, rs0, p. split; [lia|]. now split.
    + unfold ret. split.
      * intros [= <- <-]. exists 0%nat, [], pos.
        split; [lia|]. split; [constructor | assumption].
      * intros (k & rs & p & Hk & Hcalls & Hthrow).
        inversion Hcalls; subst; congruence.
Qed.

End PushLoop.

(** The two loops of the sampler have that shape. *)

Lemma generate_terms_push_loop m src n :
  forall terms pos,
    generate_terms m n terms src pos
    = push_loop (generate_term m) n terms src pos.
Proof.
  induction n as [|n IH]; intros terms pos; [reflexivity|].
  cbn [generate_terms push_loop]. unfold bind.
  destruct (generate_term m src pos) as [[s|e] pos1];
    [apply IH | reflexivity].
Qed.

Lemma generate_loop_push_loop m src n :
  forall results pos,
    generate_loop m n results src pos
    = push_loop (generate m) n results src pos.
Proof.
  induction n as [|n IH]; intros results pos; [reflexivity|].
  cbn [generate_loop push_loop]. unfold bind.
  destruct (generate m src pos) as [[s|e] pos1];
    [apply IH | reflexivity].
Qed.

(** ** C6: [generateList] *)

(** C6.  For every model, every finite [count] and every random source,
    with [n = max(0, floor(count))]: [generateList(count)] returns a list
    exactly when [n] calls of [generate] in a row return, and the list
    holds their [n] strings in the order of the calls, duplicates
    included; it throws exactly when, after fewer than [n] calls that
    returned, the next call of [generate] throws, and then the error of
    that call is all that is left; when [count] is below 1, in
    particular when it is -3 or 0, it returns the empty list without
    calling [generate]. *)
Theorem generateList_spec (m : WeightedModel) (count : Q)
    (src : random_source) (pos : nat) :
  let n := Z.to_nat (Z.max 0 (Qfloor count)) in
  (forall results pos',
      generateList m count src pos = (Returned results, pos') <->
      generate_calls m src n pos results pos')
  /\ (forall results pos',
         generateList m count src pos = (Returned results, pos') ->
         List.length results = n)
  /\ (forall e pos',
         generateList m count src pos = (Thrown e, pos') <->
         exists k results pos1,
           (k < n)%nat
           /\ generate_calls m src k pos results pos1
           /\ generate m src pos1 = (Thrown e, pos'))
  /\ (Qlt count 1 -> generateList m count src pos = (Returned [], pos))
  /\ generateList m (-3 # 1) src pos = (Returned [], pos)
  /\ generateList m 0 src pos = (Returned [], pos).
Proof.
  intros n. unfold generateList, numToGenerate. fold n.
  assert (Hret : forall results pos',
             generate_loop m n [] src pos = (Returned results, pos') <->
             generate_calls m src n pos results pos').
  { intros results pos'.
    rewrite generate_loop_push_loop, push_loop_returned. split.
    - now intros (rs & -> & H).
    - intros H. now exists results. }
  split; [exact Hret|]. split; [|split; [|split; [|split]]].
  - intros results pos' H. apply Hret in H.
    eapply rounds_return_length; eauto.
  - intros e pos'. rewrite generate_loop_push_loop. apply push_loop_thrown.
  - intros Hlt. subst n.
    assert (Qfloor count < 1)%Z.
    { destruct (Z_lt_le_dec (Qfloor count) 1) as [|Hge]; [assumption|].
      exfalso. apply (Qlt_not_le _ _ Hlt).
      apply Qle_trans with (inject_Z (Qfloor count)); [|apply Qfloor_le].
      change 1%Q with (inject_Z 1). now rewrite <- Zle_Qle. }
    replace (Z.to_nat (Z.max 0 (Qfloor count))) with 0%nat by lia.
    reflexivity.
  - reflexivity.
  - reflexivity.
Qed.

Lemma generateList_spec_witness :
  generateList (MarkovGenerator [lit "a"]) (1 # 2) (always zero_draw) 0
  = (Returned [], 0%nat).
Proof.
  destruct (generateList_spec (MarkovGenerator [lit "a"]) (1 # 2)
              (always zero_draw) 0) as (_ & _ & _ & Hbelow & _).
  apply Hbelow. reflexivity.
Defined.

(** No deduplication: two calls that return the same string give a list
    with that string twice. *)
Example generateList_duplicates :
  generateList (MarkovGenerator [lit "a"]) (5 # 2) (always zero_draw) 0
  = (Returned [lit "a"; lit "a"], 6%nat).
Proof. reflexivity. Qed.

(** ** C4: when [generate] throws *)

(** One round of the loop over the terms throws exactly on the check
    that follows its two samples. *)
Lemma generate_term_thrown m src pos e pos' :
  generate_term m src pos = (Thrown e, pos') <->
  exists len pos1 initial,
    selectChoice m termLength src pos = (len, pos1)
    /\ selectChoice m initialUnit src pos1 = (initial, pos')
    /\ (falsy initial = true
        \/ non_positive (parseInt (or_default len (lit "6"))) = true)
    /\ e = generate_error.
Proof.
  unfold generate_term, bind.
  destruct (selectChoice m termLength src pos) as [len pos1] eqn:Elen.
  destruct (selectChoice m initialUnit src pos1) as [initial pos2] eqn:Einit.
  destruct (falsy initial
            || non_positive (parseInt (or_default len (lit "6")))) eqn:Echeck.
  - unfold ret. split.
    + intros [= <- <-]. exists len, pos1, initial.
      apply orb_prop in Echeck. now repeat split.
    + intros (len' & p1 & initial' & [= <- <-] & H2 & _ & ->).
      rewrite Einit in H2. now injection H2 as <- <-.
  - destruct (grow_term _ _ _ _ _ _ _) as [term pos3]. unfold ret.
    split; [discriminate|].
    intros (len' & p1 & initial' & [= <- <-] & H2 & Hor & _).
    rewrite Einit in H2. injection H2 as <- <-.
    apply orb_false_elim in Echeck. destruct Echeck, Hor; congruence.
Qed.

(** C4.  For every model and every random source, [generate] throws
    exactly when, after some rounds of the loop over the terms that
    returned their term, the round that follows samples no initial unit
    (a falsy result of [selectChoice] on [initialUnit]) or samples a
    term length that is not positive.  What it throws is the error with
    its fixed message: the terms of the rounds before are not part of
    the outcome. *)
Theorem generate_throws_iff (m : WeightedModel) (src : random_source)
    (pos : nat) (e : jsstring) (pos' : nat) :
  generate m src pos = (Thrown e, pos') <->
  exists count pos0 k terms pos1 len pos2 initial,
    selectChoice m termCount src pos = (count, pos0)
    /\ (k < rounds (parseInt (or_default count (lit "1"))))%nat
    /\ rounds_return (generate_term m) src k pos0 terms pos1
    /\ selectChoice m termLength src pos1 = (len, pos2)
    /\ selectChoice m initialUnit src pos2 = (initial, pos')
    /\ (falsy initial = true
        \/ non_positive (parseInt (or_default len (lit "6"))) = true)
    /\ e = generate_error.
Proof.
  unfold generate, bind.
  destruct (selectChoice m termCount src pos) as [count pos0] eqn:Ecount.
  destruct (generate_terms m _ [] src pos0) as [[terms|e0] p] eqn:Eterms;
    unfold ret.
  - split; [discriminate|].
    intros (count' & p0 & k & ts & p1 & len & p2 & initial
            & [= <- <-] & Hk & Hrounds & Hlen & Hinit & Hor & ->).
    rewrite generate_terms_push_loop in Eterms.
    assert (Hthrown : push_loop (generate_term m)
                        (rounds (parseInt (or_default count (lit "1")))) []
                        src pos0 = (Thrown generate_error, pos')).
    { apply push_loop_thrown. exists k, ts, p1.
      split; [assumption|]. split; [assumption|].
      apply generate_term_thrown. now exists len, p2, initial. }
    congruence.
  - rewrite generate_terms_push_loop in Eterms.
    apply push_loop_thrown in Eterms.
    destruct Eterms as (k & ts & p1 & Hk & Hrounds & Hthrown).
    apply generate_term_thrown in Hthrown.
    destruct Hthrown as (len & p2 & initial & Hlen & Hinit & Hor & ->).
    split.
    + intros [= <- <-].
      now exists count, pos0, k, ts, p1, len, p2, initial.
    + intros (count' & p0 & k' & ts' & p1' & len' & p2' & initial'
              & [= <- <-] & Hk' & Hrounds' & Hlen' & Hinit' & Hor' & ->).
      assert (Hthrown : push_loop (generate_term m)
                          (rounds (parseInt (or_default count (lit "1")))) []
                          src pos0 = (Thrown generate_error, pos')).
      { apply push_loop_thrown. exists k', ts', p1'.
        split; [assumption|]. split; [assumption|].
        apply generate_term_thrown. now exists len', p2', initial'. }
      assert (Hthrown0 : push_loop (generate_term m)
                          (rounds (parseInt (or_default count (lit "1")))) []
                          src pos0 = (Thrown generate_error, p)).
      { apply push_loop_thrown. exists k, ts, p1.
        split; [assumption|]. split; [assumption|].
        apply generate_term_thrown. now exists len, p2, initial. }
      congruence.
Qed.

(** The first round returns the term "a", the second samples the length
    0: the call throws and the term "a" is lost with it. *)
Example generate_discards_terms :
  rounds_return (generate_term short_model) second_half 1 1 [lit "a"] 3
  /\ generate short_model second_half 0 = (Thrown generate_error, 5%nat).
Proof.
  split; [|reflexivity].
  apply (rounds_next _ _ 0 1 (lit "a") 3 [] 3); [reflexivity | constructor].
Qed.

(** ** The loop that grows a term *)

Lemma shorter_than_needed len cur :
  shorter_than cur len = true <-> (0 < rounds_needed len cur)%nat.
Proof.
  unfold shorter_than, rounds_needed. destruct len as [z|]; [|split; [discriminate | lia]].
  rewrite Z.ltb_lt. lia.
Qed.

Lemma rounds_needed_app len cur next :
  truthy next = true ->
  (rounds_needed len (cur ++ next) <= rounds_needed len cur - 1)%nat.
Proof.
  intros Ht. unfold rounds_needed, str_length. destruct len as [z|]; [|lia].
  rewrite length_app. destruct next as [|c next]; [discriminate|].
  simpl List.length. lia.
Qed.

(** The result of the loop does not depend on the fuel, once there is
    enough of it. *)
Lemma grow_term_fuel m len :
  forall fuel1 fuel2 cur prev src pos,
    (rounds_needed len cur <= fuel1)%nat ->
    (rounds_needed len cur <= fuel2)%nat ->
    grow_term m len fuel1 cur prev src pos
    = grow_term m len fuel2 cur prev src pos.
Proof.
  induction fuel1 as [|fuel1 IH]; intros fuel2 cur prev src pos H1 H2.
  - destruct fuel2 as [|fuel2]; [reflexivity|]. simpl.
    destruct (shorter_than cur len) eqn:Es; [|reflexivity].
    apply shorter_than_needed in Es. lia.
  - destruct fuel2 as [|fuel2]; simpl.
    + destruct (shorter_than cur len) eqn:Es; [|reflexivity].
      apply shorter_than_needed in Es. lia.
    + destruct (shorter_than cur len) eqn:Es; [|reflexivity].
      unfold bind. destruct (selectChoice m prev src pos) as [[next|] pos1];
        [|reflexivity].
      destruct (truthy next) eqn:Et; [|reflexivity].
      pose proof (rounds_needed_app len cur next Et).
      apply IH; lia.
Qed.

Lemma grow_term_S m len fuel cur prev :
  grow_term m len (S fuel) cur prev
  = if shorter_than cur len then
      nextUnit <- selectChoice m prev ;;
      match nextUnit with
      | Some next =>
          if truthy next then grow_term m len fuel (cur ++ next) next
          else ret cur
      | None => ret cur
      end
    else ret cur.
Proof. reflexivity. Qed.

(** With enough fuel, [grow_term] satisfies the equation of the loop
    [while (currentTerm.length < termLength) { ... }]. *)
Lemma grow_term_loop m len fuel cur prev src pos :
  (rounds_needed len cur <= fuel)%nat ->
  grow_term m len fuel cur prev src pos
  = (if shorter_than cur len then
       nextUnit <- selectChoice m prev ;;
       match nextUnit with
       | Some next =>
           if truthy next then grow_term m len fuel (cur ++ next) next
           else ret cur
       | None => ret cur
       end
     else ret cur) src pos.
Proof.
  intros Hfuel. destruct fuel as [|fuel].
  - simpl. destruct (shorter_than cur len) eqn:Es; [|reflexivity].
    apply shorter_than_needed in Es. lia.
  - rewrite grow_term_S.
    destruct (shorter_than cur len) eqn:Es; [|reflexivity].
    unfold bind. destruct (selectChoice m prev src pos) as [[next|] pos1];
      [|reflexivity].
    destruct (truthy next) eqn:Et; [|reflexivity].
    pose proof (rounds_needed_app len cur next Et).
    apply grow_term_fuel; lia.
Qed.

(** [generate_term] gives the loop enough fuel. *)
Lemma rounds_needed_rounds len cur :
  (rounds_needed len cur <= rounds len)%nat.
Proof. unfold rounds_needed, rounds. destruct len; lia. Qed.

(** ** C7: a miss while a term grows *)

(** C7.  For every model: at any point of the growth of a term, when the
    term is still below its target length and the sample of the next
    unit is falsy (in particular when the category named by the previous
    unit has no entry in [selectionWeights]), the loop ends, nothing is
    thrown and the term is kept as it is; and a round of the loop over
    the terms whose initial sample is truthy and whose target length is
    not non-positive pushes the term the growth returned, however short,
    and the loop goes on with the rounds that remain. *)
Theorem growth_miss_truncates (m : WeightedModel) (src : random_source) :
  (forall len fuel cur prev pos r pos',
      (rounds_needed len cur <= fuel)%nat ->
      shorter_than cur len = true ->
      selectChoice m prev src pos = (r, pos') ->
      falsy r = true ->
      grow_term m len fuel cur prev src pos = (cur, pos'))
  /\ (forall len fuel cur prev pos,
         (rounds_needed len cur <= fuel)%nat ->
         shorter_than cur len = true ->
         obj_get (selectionWeights m) prev = None ->
         grow_term m len fuel cur prev src pos = (cur, pos))
  /\ (forall n terms pos lenStr pos1 initial pos2,
         selectChoice m termLength src pos = (lenStr, pos1) ->
         selectChoice m initialUnit src pos1 = (Some initial, pos2) ->
         truthy initial = true ->
         let len := parseInt (or_default lenStr (lit "6")) in
         non_positive len = false ->
         let grown := grow_term m len (rounds len) initial initial src pos2 in
         generate_terms m (S n) terms src pos
         = generate_terms m n (terms ++ [fst grown]) src (snd grown)).
Proof.
  assert (Hmiss : forall len fuel cur prev pos r pos',
             (rounds_needed len cur <= fuel)%nat ->
             shorter_than cur len = true ->
             selectChoice m prev src pos = (r, pos') ->
             falsy r = true ->
             grow_term m len fuel cur prev src pos = (cur, pos')).
  { intros len fuel cur prev pos r pos' Hfuel Hs Hsel Hr.
    rewrite grow_term_loop by assumption. rewrite Hs.
    unfold bind. rewrite Hsel.
    destruct r as [next|]; [|reflexivity].
    simpl in Hr. apply negb_true_iff in Hr. now rewrite Hr. }
  split; [exact Hmiss|]. split.
  - intros len fuel cur prev pos Hfuel Hs Hw.
    apply (Hmiss len fuel cur prev pos None pos); try assumption.
    + now apply selectChoice_no_entry.
    + reflexivity.
  - intros n terms pos lenStr pos1 initial pos2 Hlen Hinit Ht len Hnp grown.
    cbn [generate_terms]. unfold bind at 1. unfold generate_term, bind.
    rewrite Hlen, Hinit. fold len.
    change (falsy (Some initial)) with (negb (truthy initial)).
    change (or_default (Some initial) [])
      with (if truthy initial then initial else []).
    rewrite Ht, Hnp. cbn [negb orb]. fold grown.
    destruct grown as [term pos3]. reflexivity.
Qed.

(** Training on "ab" and "cdef": the term that starts with "a" stops at
    "ab", no unit was seen after "b". *)
Lemma growth_miss_truncates_witness :
  let m := MarkovGenerator [lit "ab"; lit "cdef"] in
  grow_term m (Some 4%Z) 4 (lit "ab") (lit "b") second_half 4
  = (lit "ab", 4%nat)
  /\ generate_terms m 1 [] second_half 1
     = generate_terms m 0 [lit "ab"] second_half 4.
Proof.
  intros m.
  destruct (growth_miss_truncates m second_half) as (_ & Habsent & Hround).
  split.
  - apply Habsent; [vm_compute; lia | reflexivity | reflexivity].
  - apply (Hround 0%nat [] 1%nat (Some (lit "4")) 2%nat (lit "a") 3%nat);
      reflexivity.
Defined.

(** ** C10: [generate] is a function of the model and of its draws *)

(** C10.  For every model: when a run of [generate] ends with some
    outcome (a returned string or the thrown error) after it has drawn
    the values of the random source from position [pos] up to [pos'],
    every run on a random source with the same values at these
    positions ends with the same outcome after the same draws. *)
Theorem generate_deterministic (m : WeightedModel)
    (src1 src2 : random_source) (pos : nat)
    (outcome : completion jsstring) (pos' : nat) :
  generate m src1 pos = (outcome, pos') ->
  agree_on src1 src2 pos pos' ->
  generate m src2 pos = (outcome, pos').
Proof.
  intros Hrun Hagree.
  destruct (local_generate m src1 pos outcome pos' Hrun) as [_ H].
  now apply H.
Qed.

Lemma generate_deterministic_witness :
  generate (MarkovGenerator [lit "ab"; lit "cdef"]) second_half_then_half 0
  = (Returned (lit "ab"), 4%nat).
Proof.
  apply (generate_deterministic (MarkovGenerator [lit "ab"; lit "cdef"])
           second_half second_half_then_half 0 (Returned (lit "ab")) 4).
  - reflexivity.
  - intros i Hi. do 4 (destruct i as [|i]; [reflexivity|]). lia.
Defined.

(** ** C8: no unit is invented *)

Section Observed.

Variable sourceSequences : list jsstring.

Lemma observed_in_training ch :
  observed sourceSequences ch ->
  exists sequence term,
    In sequence sourceSequences
    /\ In term (tokenize sequence)
    /\ In ch term.
Proof.
  intros [(term & rest & (sequence & Hs & Ht) & ->)
         |(p & term & pre & post & (sequence & Hs & Ht) & ->)];
    exists sequence; eexists; (split; [eassumption|]); (split; [eassumption|]).
  - now left.
  - apply in_app_iff. right. right. now left.
Qed.

Lemma trained_choice_ok category choice src pos pos' :
  category_ok category ->
  selectChoice (MarkovGenerator sourceSequences) category src pos = (Some choice, pos') ->
  choice_ok (training_term sourceSequences) category choice.
Proof.
  intros Hcat Hsel.
  destruct (selectChoice_key _ _ _ _ _ _ Hsel) as (fm & Hfm & Hin).
  unfold model_get in Hfm.
  rewrite (category_ok_not_weights _ Hcat) in Hfm.
  rewrite MarkovGenerator_categories in Hfm.
  destruct (obj_get (buildRawModel sourceSequences) category) as [raw_fm|] eqn:E;
    [|discriminate].
  injection Hfm as <-. rewrite insertion_order_weigh_map in Hin.
  eapply inv_choices; eauto using raw_inv_buildRawModel.
Qed.

Lemma trained_initial choice src pos pos' :
  selectChoice (MarkovGenerator sourceSequences) initialUnit src pos = (Some choice, pos') ->
  exists ch, choice = [ch] /\ observed sourceSequences ch.
Proof.
  intros Hsel.
  destruct (trained_choice_ok initialUnit choice src pos pos') as [H _];
    [right; right; left; reflexivity | assumption |].
  destruct (H eq_refl) as (ch & -> & Hch).
  exists ch. split; [reflexivity | now left].
Qed.

Lemma trained_transition p choice src pos pos' :
  selectChoice (MarkovGenerator sourceSequences) [p] src pos = (Some choice, pos') ->
  exists ch, choice = [ch] /\ observed sourceSequences ch.
Proof.
  intros Hsel.
  destruct (trained_choice_ok [p] choice src pos pos') as [_ H];
    [right; right; right; now exists p | assumption |].
  destruct (H p eq_refl) as (ch & -> & Hch).
  exists ch. split; [reflexivity | right; now exists p].
Qed.

Lemma grow_term_observed len src fuel :
  forall cur p pos term pos',
    Forall (observed sourceSequences) cur ->
    grow_term (MarkovGenerator sourceSequences) len fuel cur [p] src pos = (term, pos') ->
    Forall (observed sourceSequences) term.
Proof.
  induction fuel as [|fuel IH]; intros cur p pos term pos' Hcur; simpl.
  - unfold ret. now intros [= <- _].
  - destruct (shorter_than cur len); [|unfold ret; now intros [= <- _]].
    unfold bind.
    destruct (selectChoice (MarkovGenerator sourceSequences) [p] src pos) as [[next|] pos1] eqn:Esel;
      [|unfold ret; now intros [= <- _]].
    destruct (truthy next); [|unfold ret; now intros [= <- _]].
    destruct (trained_transition _ _ _ _ _ Esel) as (ch & -> & Hch).
    apply IH. apply Forall_app. split; [assumption | now constructor].
Qed.

Lemma generate_term_observed src pos term pos' :
  generate_term (MarkovGenerator sourceSequences) src pos = (Returned term, pos') -> Forall (observed sourceSequences) term.
Proof.
  unfold generate_term, bind.
  destruct (selectChoice (MarkovGenerator sourceSequences) termLength src pos) as [len pos1].
  destruct (selectChoice (MarkovGenerator sourceSequences) initialUnit src pos1) as [initial pos2] eqn:Einit.
  destruct (falsy initial || _) eqn:Echeck; [discriminate|].
  apply orb_false_elim in Echeck. destruct Echeck as [Hfalsy _].
  destruct initial as [initial|]; [|discriminate].
  simpl in Hfalsy. apply negb_false_iff in Hfalsy.
  destruct (trained_initial _ _ _ _ Einit) as (ch & -> & Hch).
  simpl or_default.
  destruct (grow_term _ _ _ _ _ _ _) as [t pos3] eqn:Egrow.
  unfold ret. intros [= <- _].
  eapply grow_term_observed; [|exact Egrow]. now constructor.
Qed.

Lemma rounds_return_observed src n pos terms pos' :
  rounds_return (generate_term (MarkovGenerator sourceSequences)) src n pos terms pos' ->
  Forall (Forall (observed sourceSequences)) terms.
Proof.
  induction 1 as [|n pos s pos1 results pos2 Hterm _ IH]; constructor;
    [|assumption].
  eapply generate_term_observed; eauto.
Qed.

End Observed.

(** C8.  For every training input and every call of [generate] on the
    trained model that returns: the returned string is the join, with
    one space, of terms whose every code unit was observed in the
    training data, as the first unit of a term or right after some unit
    inside a term; such a unit occurs in a term of the training data. *)
Theorem generate_units_observed (sourceSequences : list jsstring)
    (src : random_source) (pos : nat) (s : jsstring) (pos' : nat) :
  generate (MarkovGenerator sourceSequences) src pos = (Returned s, pos') ->
  exists terms,
    s = join_space terms
    /\ Forall (Forall (observed sourceSequences)) terms
    /\ (forall term ch,
           In term terms -> In ch term ->
           exists sequence trained,
             In sequence sourceSequences
             /\ In trained (tokenize sequence)
             /\ In ch trained).
Proof.
  unfold generate, bind.
  destruct (selectChoice _ termCount src pos) as [count pos0].
  destruct (generate_terms _ _ [] src pos0) as [[terms|e] p] eqn:Eterms;
    unfold ret; [|discriminate].
  intros [= <- <-]. exists terms.
  rewrite generate_terms_push_loop in Eterms.
  apply push_loop_returned in Eterms.
  destruct Eterms as (rs & -> & Hrounds). simpl.
  apply rounds_return_observed in Hrounds.
  split; [reflexivity|]. split; [assumption|].
  intros term ch Hterm Hch. apply observed_in_training.
  rewrite Forall_forall in Hrounds. specialize (Hrounds term Hterm).
  rewrite Forall_forall in Hrounds. auto.
Qed.

Lemma generate_units_observed_witness :
  exists terms,
    lit "ab" = join_space terms
    /\ Forall (Forall (observed [lit "ab"; lit "cdef"])) terms
    /\ (forall term ch,
           In term terms -> In ch term ->
           exists sequence trained,
             In sequence [lit "ab"; lit "cdef"]
             /\ In trained (tokenize sequence)
             /\ In ch trained).
Proof.
  apply (generate_units_observed [lit "ab"; lit "cdef"] second_half 0
           (lit "ab") 4).
  reflexivity.
Defined.

(** * Further properties of the code *)

(** ** The tokenizer of [buildRawModel] *)

Lemma space_free_rev (s : jsstring) : space_free (rev s) = space_free s.
Proof.
  unfold space_free.
  destruct (forallb _ s) eqn:E.
  - apply forallb_forall. intros c Hc. apply in_rev in Hc.
    now apply (proj1 (forallb_forall _ _) E).
  - destruct (forallb _ (rev s)) eqn:E'; [|reflexivity].
    rewrite <- E. symmetry. apply forallb_forall. intros c Hc.
    apply (proj1 (forallb_forall _ _) E'). now apply in_rev in Hc.
Qed.

Lemma split_ws_from_space_free (s : jsstring) :
  forall cur in_gap,
    space_free cur = true ->
    Forall (fun t => space_free t = true) (split_ws_from cur in_gap s).
Proof.
  induction s as [|c s IH]; intros cur in_gap Hcur; simpl.
  - constructor; [now rewrite space_free_rev | constructor].
  - destruct (is_space c) eqn:Ec.
    + destruct in_gap; [now apply IH|].
      constructor; [now rewrite space_free_rev | now apply IH].
    + apply IH. simpl. now rewrite Ec.
Qed.

Lemma split_ws_from_concat (s : jsstring) :
  forall cur in_gap,
    List.concat (split_ws_from cur in_gap s) = rev cur ++ remove_spaces s.
Proof.
  unfold remove_spaces.
  induction s as [|c s IH]; intros cur in_gap; simpl.
  - reflexivity.
  - destruct (is_space c) eqn:Ec; simpl.
    + destruct in_gap; [apply IH|]. simpl. now rewrite IH.
    + rewrite IH. simpl. now rewrite <- app_assoc.
Qed.

Lemma concat_filter_nonempty (pieces : list jsstring) :
  List.concat (filter (fun t => (0 <? str_length t)%N) pieces) = List.concat pieces.
Proof.
  induction pieces as [|t pieces IH]; [reflexivity|]. simpl.
  destruct t as [|c t]; simpl; [assumption | now rewrite IH].
Qed.

Lemma tokenize_nonempty (sequence term : jsstring) :
  In term (tokenize sequence) -> term <> [].
Proof.
  unfold tokenize. intros H. apply filter_In in H. destruct H as [_ H].
  intros ->. discriminate H.
Qed.

Lemma tokenize_space_free (sequence term : jsstring) :
  In term (tokenize sequence) -> space_free term = true.
Proof.
  unfold tokenize. intros H. apply filter_In in H. destruct H as [H _].
  pose proof (split_ws_from_space_free sequence [] false eq_refl) as Hall.
  rewrite Forall_forall in Hall. now apply Hall.
Qed.

(** The terms of a string are its non-empty pieces without white space,
    in order: put end to end they give the string without its white
    space. *)
Theorem tokenize_pieces (sequence : jsstring) :
  Forall (fun term => term <> [] /\ space_free term = true)
    (tokenize sequence)
  /\ List.concat (tokenize sequence) = remove_spaces sequence.
Proof.
  split.
  - apply Forall_forall. intros term H.
    split; [eapply tokenize_nonempty | eapply tokenize_space_free]; eauto.
  - unfold tokenize. rewrite concat_filter_nonempty.
    apply (split_ws_from_concat sequence [] false).
Qed.

(** Splitting goes through a term without white space. *)
Lemma split_ws_from_term (t : jsstring) :
  space_free t = true ->
  forall cur rest,
    split_ws_from cur false (t ++ rest)
    = split_ws_from (rev t ++ cur) false rest.
Proof.
  induction t as [|c t IH]; intros Ht cur rest; [reflexivity|].
  simpl in Ht. apply andb_prop in Ht. destruct Ht as [Hc Ht].
  apply negb_true_iff in Hc. simpl. rewrite Hc.
  rewrite IH by assumption. now rewrite <- app_assoc.
Qed.

Lemma split_ws_from_first_term (t : jsstring) :
  t <> [] -> space_free t = true ->
  forall in_gap rest,
    split_ws_from [] in_gap (t ++ rest)
    = split_ws_from (rev t) false rest.
Proof.
  intros Hne Ht in_gap rest. destruct t as [|c t]; [contradiction|].
  simpl in Ht. apply andb_prop in Ht. destruct Ht as [Hc Ht].
  apply negb_true_iff in Hc. simpl. rewrite Hc.
  now rewrite split_ws_from_term by assumption.
Qed.

Lemma split_ws_from_join (terms : list jsstring) :
  Forall (fun term => term <> [] /\ space_free term = true) terms ->
  terms <> [] ->
  forall in_gap, split_ws_from [] in_gap (join_space terms) = terms.
Proof.
  induction terms as [|t terms IH]; intros Hall Hne in_gap; [contradiction|].
  inversion Hall as [|? ? [Ht1 Ht2] Hall']; subst.
  destruct terms as [|t2 terms].
  - simpl. rewrite <- (app_nil_r t) at 1.
    rewrite split_ws_from_first_term by assumption.
    simpl. now rewrite rev_involutive.
  - change (join_space (t :: t2 :: terms))
      with (t ++ 32%N :: join_space (t2 :: terms)).
    rewrite split_ws_from_first_term by assumption.
    cbn [split_ws_from]. change (is_space 32%N) with true. cbv iota.
    rewrite rev_involutive. f_equal.
    apply IH; [assumption | discriminate].
Qed.

Lemma tokenize_join_terms (terms : list jsstring) :
  Forall (fun term => term <> [] /\ space_free term = true) terms ->
  tokenize (join_space terms) = terms.
Proof.
  intros Hall. destruct terms as [|t terms]; [reflexivity|].
  unfold tokenize, split_ws.
  rewrite split_ws_from_join by (assumption || discriminate).
  apply forallb_filter_id. apply forallb_forall. intros x Hx.
  rewrite Forall_forall in Hall. destruct (Hall x Hx) as [Hne _].
  destruct x as [|c x]; [contradiction|].
  unfold str_length. simpl List.length. apply N.ltb_lt. lia.
Qed.

(** Joining non-empty terms without white space with [join(' ')] and
    splitting the result as the trainer does gives the terms back. *)
Theorem tokenize_join_space (terms : list jsstring) :
  Forall (fun term => term <> [] /\ space_free term = true) terms ->
  tokenize (join_space terms) = terms.
Proof. apply tokenize_join_terms. Qed.

Lemma tokenize_join_space_witness :
  tokenize (join_space [lit "ab"; lit "c"]) = [lit "ab"; lit "c"].
Proof.
  apply (tokenize_join_space [lit "ab"; lit "c"]).
  repeat constructor; discriminate.
Defined.

(** ** [String] of a number and [parseInt] *)

Lemma lit_String (a : ascii) (s : string) :
  lit (String a s) = N_of_ascii a :: lit s.
Proof. reflexivity. Qed.

Lemma digits_value_acc (d : Decimal.uint) :
  forall acc,
    fold_left (fun a c => (10 * a + digit_value c)%N)
      (lit (NilEmpty.string_of_uint d)) (N.pos acc)
    = N.pos (Pos.of_uint_acc d acc).
Proof.
  induction d; intros acc; cbn [NilEmpty.string_of_uint Pos.of_uint_acc];
    [reflexivity|..];
    rewrite lit_String; cbn [fold_left]; rewrite <- IHd; f_equal;
    unfold digit_value; simpl N_of_ascii; lia.
Qed.

Lemma digits_value_uint (d : Decimal.uint) :
  digits_value (lit (NilEmpty.string_of_uint d)) = Pos.of_uint d.
Proof.
  unfold digits_value.
  induction d; cbn [NilEmpty.string_of_uint Pos.of_uint];
    [reflexivity|..];
    rewrite lit_String; cbn [fold_left];
    first [ exact IHd | rewrite <- digits_value_acc; f_equal ].
Qed.

Lemma digits_value_of_N (n : N) : digits_value (of_N n) = n.
Proof.
  unfold of_N. rewrite digits_value_uint.
  apply DecimalN.Unsigned.of_to.
Qed.

Lemma of_N_inj (a b : N) : of_N a = of_N b -> a = b.
Proof.
  intros H. rewrite <- (digits_value_of_N a), <- (digits_value_of_N b).
  now rewrite H.
Qed.

Lemma all_digits_uint (d : Decimal.uint) :
  forallb is_digit (lit (NilEmpty.string_of_uint d)) = true.
Proof. induction d; simpl; auto. Qed.

Lemma of_N_nonempty (n : N) : of_N n <> [].
Proof.
  intros H. pose proof (digits_value_of_N n) as Hv. rewrite H in Hv.
  change (digits_value []) with 0%N in Hv. subst n. discriminate H.
Qed.

Lemma is_digit_not_space (c : code_unit) :
  is_digit c = true -> is_space c = false.
Proof.
  unfold is_digit. intros H. apply andb_prop in H. destruct H as [H1 H2].
  apply N.leb_le in H1. apply N.leb_le in H2.
  assert (Hc : (c = 48 \/ c = 49 \/ c = 50 \/ c = 51 \/ c = 52 \/ c = 53
                \/ c = 54 \/ c = 55 \/ c = 56 \/ c = 57)%N) by lia.
  repeat (destruct Hc as [->|Hc]; [reflexivity|]). now subst c.
Qed.

Lemma take_digits_all (s : jsstring) :
  forallb is_digit s = true -> take_digits s = s.
Proof.
  induction s as [|c s IH]; [reflexivity|]. simpl.
  intros H. apply andb_prop in H. destruct H as [Hc Hs].
  rewrite Hc. now rewrite IH.
Qed.

(** A run of digits is read back by [parseInt] as its value. *)
Lemma parseInt_digits (s : jsstring) :
  s <> [] -> forallb is_digit s = true ->
  parseInt s = Some (Z.of_N (digits_value s)).
Proof.
  intros Hne Hd. destruct s as [|c s]; [contradiction|].
  pose proof Hd as Hd'. simpl in Hd'. apply andb_prop in Hd'.
  destruct Hd' as [Hc _].
  unfold parseInt. cbn [skip_space]. rewrite (is_digit_not_space c Hc).
  unfold is_digit in Hc. apply andb_prop in Hc. destruct Hc as [H1 H2].
  apply N.leb_le in H1.
  assert (E45 : (c =? 45)%N = false) by (apply N.eqb_neq; lia).
  assert (E43 : (c =? 43)%N = false) by (apply N.eqb_neq; lia).
  rewrite E45, E43. rewrite take_digits_all by assumption. reflexivity.
Qed.

Lemma parseInt_String (n : N) : parseInt (of_N n) = Some (Z.of_N n).
Proof.
  rewrite parseInt_digits.
  - now rewrite digits_value_of_N.
  - apply of_N_nonempty.
  - apply all_digits_uint.
Qed.

(** The numbers the trainer writes with [String] are read back by
    [parseInt]: [parseInt(String(n), 10)] is [n], for every count or
    length [n]; two numbers with the same string are equal, and the
    string is not empty. *)
Theorem parseInt_of_N (n n' : N) :
  parseInt (of_N n) = Some (Z.of_N n)
  /\ (of_N n = of_N n' <-> n = n')
  /\ of_N n <> [].
Proof.
  split; [apply parseInt_String|]. split; [|apply of_N_nonempty].
  split; [apply of_N_inj | now intros ->].
Qed.

(** ** [increment]: what one call changes *)

Lemma leaf_obj_set model c fm c' k :
  leaf (obj_set model c fm) c' k
  = if str_eqb c c' then obj_get fm k else leaf model c' k.
Proof.
  unfold leaf. case_key c c'.
  - now rewrite obj_get_set_same.
  - now rewrite obj_get_set_other by assumption.
Qed.

Lemma increment_count model c choice c' k' :
  truthy (String_of choice) = true ->
  count_of (increment model c choice) c' k'
  = (count_of model c' k'
     + if str_eqb c c' && str_eqb (String_of choice) k' then 1 else 0)%N.
Proof.
  intros Ht.
  destruct (increment_spec model c choice Ht) as (fm0 & Hfm0 & ->).
  unfold count_of. rewrite leaf_obj_set.
  destruct (str_eqb c c') eqn:Ec; simpl andb; [|now rewrite N.add_0_r].
  apply str_eqb_eq in Ec. rewrite <- Ec.
  assert (Hleaf : forall k, leaf model c k = obj_get fm0 k).
  { intros k. unfold leaf. destruct Hfm0 as [->|[-> ->]]; reflexivity. }
  rewrite Hleaf.
  case_key (String_of choice) k'.
  - rewrite obj_get_set_same. reflexivity.
  - rewrite obj_get_set_other by assumption. now rewrite N.add_0_r.
Qed.

(** One call of [increment] with a non-empty choice adds one to the
    count of that choice in that category, leaves every other count as
    it is, and creates the category, after the others, when the model
    did not have it; a call with the empty string changes nothing. *)
Theorem increment_lookup (model : RawModel) (c : jsstring)
    (choice : choice_arg) (c' k' : jsstring) :
  (String_of choice = [] -> increment model c choice = model)
  /\ (String_of choice <> [] ->
      count_of (increment model c choice) c' k'
      = (count_of model c' k'
         + if str_eqb c c' && str_eqb (String_of choice) k' then 1 else 0)%N
      /\ insertion_order (increment model c choice)
         = if in_dec str_eq_dec c (insertion_order model)
           then insertion_order model
           else insertion_order model ++ [c]).
Proof.
  split.
  - intros H. apply increment_falsy. now rewrite H.
  - intros H. apply truthy_cons in H. split; [now apply increment_count|].
    destruct (increment_spec model c choice H) as (fm0 & _ & ->).
    apply insertion_order_set.
Qed.

Lemma increment_lookup_witness :
  count_of (increment initial_model (lit "a") (ChoiceString (lit "b")))
    (lit "a") (lit "b") = 1%N
  /\ insertion_order (increment initial_model (lit "a") (ChoiceString (lit "b")))
     = [termCount; termLength; initialUnit; lit "a"].
Proof.
  destruct (increment_lookup initial_model (lit "a") (ChoiceString (lit "b"))
              (lit "a") (lit "b")) as [_ H].
  destruct H as [H1 H2]; [discriminate|].
  split; [exact H1 | exact H2].
Defined.

(** ** The trainer as a sequence of calls of [increment] *)

Lemma slice_next (pre : jsstring) (p c : code_unit) (rest : jsstring) :
  slice (pre ++ p :: c :: rest) (S (List.length pre))
    (S (List.length pre) + 1) = [c].
Proof.
  unfold slice.
  replace (S (List.length pre) + 1 - S (List.length pre))%nat with 1%nat
    by lia.
  replace (pre ++ p :: c :: rest) with ((pre ++ [p]) ++ c :: rest)
    by (rewrite <- app_assoc; reflexivity).
  rewrite skipn_app.
  replace (S (List.length pre)) with (List.length (pre ++ [p]))
    by (rewrite length_app; simpl; lia).
  rewrite skipn_all, Nat.sub_diag. reflexivity.
Qed.

Lemma transitions_trace (rest : jsstring) :
  forall model pre p,
    transitions model (pre ++ p :: rest) [p]
      (S (List.length pre)) (List.length rest)
    = fold_left record_choice (pairs_trace p rest) model.
Proof.
  induction rest as [|c rest IH]; intros model pre p; [reflexivity|].
  cbn [List.length transitions pairs_trace fold_left].
  rewrite slice_next.
  replace (pre ++ p :: c :: rest) with ((pre ++ [p]) ++ c :: rest)
    by (rewrite <- app_assoc; reflexivity).
  replace (S (S (List.length pre))) with (S (List.length (pre ++ [p])))
    by (rewrite length_app; simpl; lia).
  apply IH.
Qed.

Lemma train_term_trace model (term : jsstring) :
  train_term model term = fold_left record_choice (term_trace term) model.
Proof.
  unfold train_term, term_trace. destruct term as [|ch rest]; [reflexivity|].
  cbn [slice Nat.sub skipn firstn truthy negb List.length fold_left].
  rewrite Nat.sub_0_r.
  apply (transitions_trace rest _ [] ch).
Qed.

Lemma train_terms_trace (terms : list jsstring) :
  forall model,
    fold_left train_term terms model
    = fold_left record_choice (flat_map term_trace terms) model.
Proof.
  induction terms as [|t terms IH]; intros model; [reflexivity|].
  cbn [fold_left flat_map]. rewrite fold_left_app, IH.
  now rewrite train_term_trace.
Qed.

Lemma tokenize_empty : tokenize [] = [].
Proof. reflexivity. Qed.

Lemma train_sequence_trace model (sequence : jsstring) :
  train_sequence model sequence
  = fold_left record_choice (sequence_trace sequence) model.
Proof.
  unfold train_sequence, sequence_trace.
  destruct sequence as [|c s]; [reflexivity|].
  cbn [truthy negb].
  destruct (tokenize (c :: s)) as [|t terms]; [reflexivity|].
  cbn [List.length Nat.eqb]. rewrite train_terms_trace. reflexivity.
Qed.

Lemma buildRawModel_trace (sourceSequences : list jsstring) :
  buildRawModel sourceSequences
  = fold_left record_choice (training_trace sourceSequences) initial_model.
Proof.
  unfold buildRawModel, training_trace. generalize initial_model.
  induction sourceSequences as [|s rest IH]; intros model; [reflexivity|].
  cbn [fold_left flat_map]. rewrite fold_left_app, IH.
  now rewrite train_sequence_trace.
Qed.

Lemma trace_count_app trace1 trace2 c k :
  trace_count (trace1 ++ trace2) c k
  = (trace_count trace1 c k + trace_count trace2 c k)%nat.
Proof. unfold trace_count. now rewrite filter_app, length_app. Qed.

Lemma trace_count_cons e trace c k :
  trace_count (e :: trace) c k
  = ((if str_eqb (fst e) c && str_eqb (snd e) k then 1 else 0)
     + trace_count trace c k)%nat.
Proof.
  unfold trace_count. simpl.
  now destruct (str_eqb (fst e) c && str_eqb (snd e) k).
Qed.

(** After the calls of a trace of non-empty choices, every count has
    grown by the number of times its pair is in the trace. *)
Lemma count_of_trace (trace : list (jsstring * jsstring)) :
  forall model c k,
    Forall (fun e : jsstring * jsstring => snd e <> []) trace ->
    count_of (fold_left record_choice trace model) c k
    = (count_of model c k + N.of_nat (trace_count trace c k))%N.
Proof.
  induction trace as [|e trace IH]; intros model c k Hall.
  - simpl. lia.
  - inversion Hall as [|? ? He Hall']; subst.
    cbn [fold_left]. rewrite IH by assumption.
    unfold record_choice.
    rewrite increment_count by (now apply truthy_cons).
    rewrite trace_count_cons.
    change (String_of (ChoiceString (snd e))) with (snd e).
    destruct (str_eqb (fst e) c && str_eqb (snd e) k); lia.
Qed.

Lemma pairs_trace_nonempty p rest :
  Forall (fun e : jsstring * jsstring => snd e <> []) (pairs_trace p rest).
Proof.
  revert p. induction rest as [|c rest IH]; intros p; constructor;
    [discriminate | apply IH].
Qed.

Lemma term_trace_nonempty term :
  Forall (fun e : jsstring * jsstring => snd e <> []) (term_trace term).
Proof.
  unfold term_trace. constructor; [apply of_N_nonempty|].
  destruct term as [|ch rest]; constructor;
    [discriminate | apply pairs_trace_nonempty].
Qed.

Lemma Forall_flat_map_intro {A B} (P : B -> Prop) (f : A -> list B) l :
  (forall x, In x l -> Forall P (f x)) -> Forall P (flat_map f l).
Proof.
  intros H. apply Forall_forall. intros y Hy.
  apply in_flat_map in Hy. destruct Hy as (x & Hx & Hy).
  specialize (H x Hx). rewrite Forall_forall in H. now apply H.
Qed.

Lemma sequence_trace_nonempty sequence :
  Forall (fun e : jsstring * jsstring => snd e <> []) (sequence_trace sequence).
Proof.
  unfold sequence_trace. destruct (tokenize sequence) as [|t terms];
    constructor; [apply of_N_nonempty|].
  apply Forall_flat_map_intro. intros x _. apply term_trace_nonempty.
Qed.

Lemma training_trace_nonempty sourceSequences :
  Forall (fun e : jsstring * jsstring => snd e <> []) (training_trace sourceSequences).
Proof.
  apply Forall_flat_map_intro. intros x _. apply sequence_trace_nonempty.
Qed.

(** The raw model counts the pairs of the training trace. *)
Lemma buildRawModel_count sourceSequences c k :
  count_of (buildRawModel sourceSequences) c k
  = N.of_nat (trace_count (training_trace sourceSequences) c k).
Proof.
  rewrite buildRawModel_trace, count_of_trace
    by apply training_trace_nonempty.
  assert (E : count_of initial_model c k = 0%N); [|now rewrite E].
  unfold count_of, leaf, initial_model. simpl.
  repeat (destruct (str_eqb _ c); [reflexivity|]). reflexivity.
Qed.

(** ** What the raw model counts *)

Lemma str_eqb_length (a b : jsstring) :
  List.length a <> List.length b -> str_eqb a b = false.
Proof. intros H. apply str_eqb_neq. intros ->. now apply H. Qed.

Lemma str_eqb_single (c ch : code_unit) : str_eqb [c] [ch] = (c =? ch)%N.
Proof.
  destruct (c =? ch)%N eqn:E.
  - apply N.eqb_eq in E. subst. apply str_eqb_refl.
  - apply N.eqb_neq in E. apply str_eqb_neq. congruence.
Qed.

Lemma trace_count_flat_map {A} (f : A -> list (jsstring * jsstring)) l c k :
  trace_count (flat_map f l) c k
  = list_sum (List.map (fun x => trace_count (f x) c k) l).
Proof.
  induction l as [|x l IH]; [reflexivity|].
  cbn [flat_map List.map list_sum]. now rewrite trace_count_app, IH.
Qed.

Lemma length_filter_sum {A} (g : A -> bool) l :
  List.length (filter g l)
  = list_sum (List.map (fun x => if g x then 1%nat else 0%nat) l).
Proof.
  induction l as [|x l IH]; [reflexivity|]. simpl.
  destruct (g x); simpl; now rewrite IH.
Qed.

Lemma list_sum_ext {A} (f g : A -> nat) l :
  (forall x, In x l -> f x = g x) ->
  list_sum (List.map f l) = list_sum (List.map g l).
Proof.
  induction l as [|x l IH]; intros H; [reflexivity|]. simpl.
  rewrite (H x) by now left. rewrite IH; [reflexivity|].
  intros y Hy. apply H. now right.
Qed.

(** The transitions never write in a category with a longer name. *)
Lemma pairs_trace_other (c k : jsstring) rest :
  List.length c <> 1%nat ->
  forall p, trace_count (pairs_trace p rest) c k = 0%nat.
Proof.
  intros Hc. induction rest as [|a rest IH]; intros p; [reflexivity|].
  cbn [pairs_trace]. rewrite trace_count_cons, IH.
  cbn [fst snd]. rewrite (str_eqb_length [p] c) by (simpl; congruence).
  reflexivity.
Qed.

Lemma pairs_trace_adjacent (p ch : code_unit) rest :
  forall a,
    trace_count (pairs_trace a rest) [p] [ch]
    = adjacent_count p ch (a :: rest).
Proof.
  induction rest as [|b rest IH]; intros a; [reflexivity|].
  cbn [pairs_trace]. rewrite trace_count_cons, IH.
  cbn [fst snd]. rewrite !str_eqb_single. reflexivity.
Qed.

Lemma term_trace_initial (ch : code_unit) term :
  trace_count (term_trace term) initialUnit [ch]
  = if starts_with ch term then 1%nat else 0%nat.
Proof.
  unfold term_trace. rewrite trace_count_cons. cbn [fst snd].
  rewrite (str_eqb_length termLength initialUnit) by (simpl; discriminate).
  destruct term as [|c rest]; [reflexivity|].
  rewrite trace_count_cons. cbn [fst snd].
  rewrite str_eqb_refl, str_eqb_single.
  rewrite pairs_trace_other by (simpl; discriminate).
  simpl. now destruct (c =? ch)%N.
Qed.

Lemma term_trace_transition (p ch : code_unit) term :
  trace_count (term_trace term) [p] [ch] = adjacent_count p ch term.
Proof.
  unfold term_trace. rewrite trace_count_cons. cbn [fst snd].
  rewrite (str_eqb_length termLength [p]) by (simpl; discriminate).
  destruct term as [|c rest]; [reflexivity|].
  rewrite trace_count_cons. cbn [fst snd].
  rewrite (str_eqb_length initialUnit [p]) by (simpl; discriminate).
  now rewrite pairs_trace_adjacent.
Qed.

Lemma term_trace_length (n : N) term :
  trace_count (term_trace term) termLength (of_N n)
  = if (str_length term =? n)%N then 1%nat else 0%nat.
Proof.
  unfold term_trace. rewrite trace_count_cons. cbn [fst snd].
  rewrite str_eqb_refl.
  assert (E : str_eqb (of_N (str_length term)) (of_N n)
              = (str_length term =? n)%N).
  { destruct (str_length term =? n)%N eqn:E.
    - apply N.eqb_eq in E. rewrite E. apply str_eqb_refl.
    - apply N.eqb_neq in E. apply str_eqb_neq. intros H.
      now apply of_N_inj in H. }
  rewrite E.
  assert (E0 : trace_count
                 match term with
                 | [] => []
                 | ch :: rest => (initialUnit, [ch]) :: pairs_trace ch rest
                 end termLength (of_N n) = 0%nat).
  { destruct term as [|c rest]; [reflexivity|].
    rewrite trace_count_cons. cbn [fst snd].
    rewrite (str_eqb_length initialUnit termLength) by (simpl; discriminate).
    now rewrite pairs_trace_other by (simpl; discriminate). }
  rewrite E0. simpl. now destruct (str_length term =? n)%N.
Qed.

Lemma term_trace_count (k : jsstring) term :
  trace_count (term_trace term) termCount k = 0%nat.
Proof.
  unfold term_trace. rewrite trace_count_cons. cbn [fst snd].
  rewrite (str_eqb_length termLength termCount) by (simpl; discriminate).
  destruct term as [|c rest]; [reflexivity|].
  rewrite trace_count_cons. cbn [fst snd].
  rewrite (str_eqb_length initialUnit termCount) by (simpl; discriminate).
  now rewrite pairs_trace_other by (simpl; discriminate).
Qed.

(** The counts of a category other than [termCount] add up over the
    terms. *)
Lemma training_trace_terms sourceSequences (c k : jsstring) :
  str_eqb termCount c = false ->
  trace_count (training_trace sourceSequences) c k
  = list_sum (List.map (fun t => trace_count (term_trace t) c k)
                (all_terms sourceSequences)).
Proof.
  intros Hc. unfold training_trace, all_terms.
  induction sourceSequences as [|s rest IH]; [reflexivity|].
  cbn [flat_map]. rewrite trace_count_app, IH, map_app, list_sum_app.
  f_equal. unfold sequence_trace.
  destruct (tokenize s) as [|t terms]; [reflexivity|].
  rewrite trace_count_cons. cbn [fst]. rewrite Hc.
  now rewrite trace_count_flat_map.
Qed.

Lemma raw_leaf_none sourceSequences c k :
  leaf (buildRawModel sourceSequences) c k = None
  <-> count_of (buildRawModel sourceSequences) c k = 0%N.
Proof.
  unfold count_of. split; [now intros ->|].
  destruct (leaf _ c k) as [n|] eqn:E; [|reflexivity].
  simpl. intros ->. exfalso. unfold leaf in E.
  destruct (obj_get (buildRawModel sourceSequences) c) as [fm|] eqn:Efm;
    [|discriminate].
  pose proof (inv_positive _ _ (raw_inv_buildRawModel sourceSequences)
                _ _ _ _ Efm E). lia.
Qed.

(** The counts of the Markov chain.  After training, the count of the
    unit [ch] in [initialUnit] is the number of terms of the training
    data that start with [ch], and the count of [ch] in the category of
    the unit [p] is the number of places of the terms where [ch] comes
    right after [p]; the model has a leaf exactly where the count is not
    zero. *)
Theorem chain_counts (sourceSequences : list jsstring) (p ch : code_unit) :
  let raw := buildRawModel sourceSequences in
  count_of raw initialUnit [ch]
  = count_if (starts_with ch) (all_terms sourceSequences)
  /\ count_of raw [p] [ch]
     = N.of_nat (list_sum (List.map (adjacent_count p ch)
                             (all_terms sourceSequences)))
  /\ (leaf raw initialUnit [ch] = None <-> count_of raw initialUnit [ch] = 0%N)
  /\ (leaf raw [p] [ch] = None <-> count_of raw [p] [ch] = 0%N).
Proof.
  intros raw. unfold raw. split; [|split; [|split; apply raw_leaf_none]].
  - rewrite buildRawModel_count, training_trace_terms
      by (apply str_eqb_length; simpl; discriminate).
    unfold count_if. f_equal. rewrite length_filter_sum.
    apply list_sum_ext. intros t _. apply term_trace_initial.
  - rewrite buildRawModel_count, training_trace_terms
      by (apply str_eqb_length; simpl; discriminate).
    f_equal. apply list_sum_ext. intros t _. apply term_trace_transition.
Qed.

Lemma termCount_count (sourceSequences : list jsstring) (n : N) :
  count_of (buildRawModel sourceSequences) termCount (of_N n)
  = count_if (fun s =>
                let terms := N.of_nat (List.length (tokenize s)) in
                (0 <? terms)%N && (terms =? n)%N)
      sourceSequences.
Proof.
  rewrite buildRawModel_count. unfold count_if. f_equal.
  rewrite length_filter_sum. unfold training_trace.
  rewrite trace_count_flat_map.
  apply list_sum_ext. intros s _. unfold sequence_trace.
  destruct (tokenize s) as [|t terms] eqn:Et; [reflexivity|].
  rewrite trace_count_cons. cbn [fst snd].
  rewrite str_eqb_refl, trace_count_flat_map.
  rewrite (list_sum_ext _ (fun _ => 0%nat))
    by (intros x _; apply term_trace_count).
  assert (E0 : list_sum (List.map (fun _ : jsstring => 0%nat) (t :: terms))
               = 0%nat).
  { generalize (t :: terms). intros l.
    induction l as [|x l IH]; [reflexivity | exact IH]. }
  rewrite E0, Nat.add_0_r. cbv zeta.
  assert (Hpos : (0 <? N.of_nat (List.length (t :: terms)))%N = true)
    by (apply N.ltb_lt; simpl List.length; lia).
  rewrite Hpos. cbn [andb]. simpl andb.
  destruct (N.of_nat (List.length (t :: terms)) =? n)%N eqn:E.
  - apply N.eqb_eq in E. rewrite E. now rewrite str_eqb_refl.
  - apply N.eqb_neq in E.
    assert (Hneq : str_eqb (of_N (N.of_nat (List.length (t :: terms))))
                     (of_N n) = false).
    { apply str_eqb_neq. intros H. now apply of_N_inj in H. }
    now rewrite Hneq.
Qed.

(** The counts of the sizes.  After training, the count of [String(n)]
    in [termLength] is the number of terms of the training data with [n]
    code units, and its count in [termCount] is the number of source
    strings with [n] terms, for [n] other than 0. *)
Theorem size_counts (sourceSequences : list jsstring) (n : N) :
  let raw := buildRawModel sourceSequences in
  count_of raw termLength (of_N n)
  = count_if (fun t => (str_length t =? n)%N) (all_terms sourceSequences)
  /\ count_of raw termCount (of_N n)
     = count_if (fun s =>
                   let terms := N.of_nat (List.length (tokenize s)) in
                   (0 <? terms)%N && (terms =? n)%N)
         sourceSequences.
Proof.
  intros raw. unfold raw. split.
  - rewrite buildRawModel_count, training_trace_terms
      by (apply str_eqb_length; simpl; discriminate).
    unfold count_if. f_equal. rewrite length_filter_sum.
    apply list_sum_ext. intros t _. apply term_trace_length.
  - apply termCount_count.
Qed.

(** ** C3: a count whose weight is not the integer part of its power *)





(** ** The leaves of the raw model *)

Lemma trace_count_in (trace : list (jsstring * jsstring)) c k :
  (0 < trace_count trace c k)%nat <-> In (c, k) trace.
Proof.
  induction trace as [|[c0 k0] trace IH];
    [unfold trace_count; simpl; split; [lia | tauto]|].
  rewrite trace_count_cons. cbn [fst snd]. simpl In. rewrite <- IH.
  destruct (str_eqb c0 c) eqn:Ec; [destruct (str_eqb k0 k) eqn:Ek|];
    cbn [andb].
  - apply str_eqb_eq in Ec, Ek. subst. split; [now left | lia].
  - apply str_eqb_neq in Ek. split; [intros; right; lia|].
    intros [[= _ H]|H]; [contradiction | lia].
  - apply str_eqb_neq in Ec. split; [intros; right; lia|].
    intros [[= H _]|H]; [contradiction | lia].
Qed.

Lemma raw_leaf_some sourceSequences c k :
  leaf (buildRawModel sourceSequences) c k <> None
  <-> In (c, k) (training_trace sourceSequences).
Proof.
  rewrite <- trace_count_in, raw_leaf_none, buildRawModel_count. lia.
Qed.

Lemma pairs_trace_in (c k : jsstring) rest :
  forall a,
    In (c, k) (pairs_trace a rest) <->
    exists p ch pre post,
      c = [p] /\ k = [ch] /\ a :: rest = pre ++ p :: ch :: post.
Proof.
  induction rest as [|b rest IH]; intros a.
  - simpl. split; [tauto|].
    intros (p & ch & pre & post & _ & _ & E).
    destruct pre as [|x [|y pre]]; discriminate.
  - cbn [pairs_trace]. simpl In. rewrite IH. split.
    + intros [[= <- <-]|(p & ch & pre & post & -> & -> & E)].
      * now exists a, b, [], rest.
      * exists p, ch, (a :: pre), post. rewrite E. now repeat split.
    + intros (p & ch & pre & post & -> & -> & E).
      destruct pre as [|x pre].
      * left. simpl in E. now injection E as -> ->.
      * right. injection E as -> E. now exists p, ch, pre, post.
Qed.

Lemma term_trace_in (c k : jsstring) term :
  In (c, k) (term_trace term) <->
  (c = termLength /\ k = of_N (str_length term))
  \/ (c = initialUnit /\ exists ch rest, k = [ch] /\ term = ch :: rest)
  \/ (exists p ch pre post,
        c = [p] /\ k = [ch] /\ term = pre ++ p :: ch :: post).
Proof.
  unfold term_trace. simpl In. destruct term as [|a rest].
  - simpl In. split.
    + intros [[= <- <-]|[]]. now left.
    + intros [[-> ->]|[(_ & ch & r & _ & [=])|(p & ch & pre & post & _ & _ & E)]];
        [now left|].
      destruct pre; discriminate.
  - simpl In. rewrite pairs_trace_in. split.
    + intros [[= <- <-]|[[= <- <-]|H]]; [now left | | now right; right].
      right. left. split; [reflexivity|]. now exists a, rest.
    + intros [[-> ->]|[(-> & ch & r & -> & [= -> ->])|H]];
        [now left | right; now left | right; now right].
Qed.

Lemma sequence_trace_in (c k : jsstring) sequence :
  In (c, k) (sequence_trace sequence) <->
  (c = termCount /\ tokenize sequence <> []
   /\ k = of_N (N.of_nat (List.length (tokenize sequence))))
  \/ exists term, In term (tokenize sequence) /\ In (c, k) (term_trace term).
Proof.
  unfold sequence_trace. destruct (tokenize sequence) as [|t terms] eqn:Et.
  - simpl. split; [tauto|]. intros [(_ & H & _)|(term & [] & _)]. now apply H.
  - split.
    + intros [[= <- <-]|H]; [left | right; now apply in_flat_map in H].
      split; [reflexivity|]. split; [discriminate | reflexivity].
    + intros [(-> & _ & ->)|H]; [now left | right; now apply in_flat_map].
Qed.

Lemma raw_leaf_recorded (sourceSequences : list jsstring)
    (c k : jsstring) :
  leaf (buildRawModel sourceSequences) c k <> None
  <-> recorded sourceSequences c k.
Proof.
  rewrite raw_leaf_some. unfold training_trace, recorded.
  rewrite in_flat_map. split.
  - intros (s & Hs & H). apply sequence_trace_in in H.
    destruct H as [(-> & Hne & ->)|(term & Hterm & H)].
    + left. split; [reflexivity|]. now exists s.
    + right. apply term_trace_in in H.
      assert (Ht : training_term sourceSequences term) by now exists s.
      destruct H as [[-> ->]|[(-> & ch & rest & -> & ->)
                              |(p & ch & pre & post & -> & -> & ->)]].
      * left. split; [reflexivity|]. now exists term.
      * right. left. split; [reflexivity|]. exists ch.
        split; [reflexivity|]. now exists (ch :: rest), rest.
      * right. right. exists p, ch. repeat split.
        now exists (pre ++ p :: ch :: post), pre, post.
  - intros [(-> & s & Hs & Hne & ->)
           |[(-> & term & (s & Hs & Hterm) & ->)
            |[(-> & ch & -> & term & rest & (s & Hs & Hterm) & ->)
             |(p & ch & -> & -> & term & pre & post & (s & Hs & Hterm) & ->)]]];
      exists s; (split; [assumption|]); apply sequence_trace_in.
    + now left.
    + right. eexists. split; [eassumption|]. apply term_trace_in. now left.
    + right. eexists. split; [eassumption|]. apply term_trace_in.
      right. left. split; [reflexivity|]. now exists ch, rest.
    + right. eexists. split; [eassumption|]. apply term_trace_in.
      right. right. now exists p, ch, pre, post.
Qed.

(** The raw model has a leaf for a category and a choice exactly when
    the trainer saw the pair in the training data: a source string with
    that number of terms, a term of that length, a term that starts with
    that unit, or a unit right after another in a term. *)
Theorem raw_model_entries (sourceSequences : list jsstring)
    (c k : jsstring) :
  leaf (buildRawModel sourceSequences) c k <> None
  <-> recorded sourceSequences c k.
Proof. apply raw_leaf_recorded. Qed.

(** ** The sampler on a trained model *)

Lemma buildRawModel_nil : buildRawModel [] = initial_model.
Proof. reflexivity. Qed.

Lemma raw_leaf_nil c k : leaf (buildRawModel []) c k = None.
Proof.
  destruct (leaf (buildRawModel []) c k) eqn:E; [|reflexivity].
  assert (H : leaf (buildRawModel []) c k <> None) by congruence.
  apply raw_leaf_some in H. destruct H.
Qed.

Lemma trained_leaf sourceSequences c k :
  leaf (categories (MarkovGenerator sourceSequences)) c k
  = option_map weightedCount (leaf (buildRawModel sourceSequences) c k).
Proof.
  unfold leaf. rewrite MarkovGenerator_categories.
  destruct (obj_get (buildRawModel sourceSequences) c) as [fm|];
    [|reflexivity].
  apply obj_get_weigh_map.
Qed.

Lemma MarkovGenerator_weight_entry sourceSequences c :
  sourceSequences <> [] ->
  obj_get (selectionWeights (MarkovGenerator sourceSequences)) c
  = option_map (fun fm => total_weight (weigh_map fm))
      (obj_get (buildRawModel sourceSequences) c).
Proof.
  intros Hne. unfold MarkovGenerator.
  destruct sourceSequences as [|s rest]; [contradiction|].
  cbn [List.length Nat.eqb].
  pose proof (raw_inv_buildRawModel (s :: rest)) as Hinv.
  apply applyWeighting_spec; apply Hinv.
Qed.

Lemma total_weight_ge fm k (n : N) :
  obj_get fm k = Some n -> (n <= total_weight fm)%N.
Proof.
  unfold total_weight.
  induction fm as [|[k0 n0] fm IH]; simpl; [discriminate|].
  case_key k0 k.
  - intros [= ->]. lia.
  - intros H. apply IH in H. lia.
Qed.

(** A category with a recorded choice gives a choice, after one draw. *)
Lemma trained_select_some sourceSequences c k src pos :
  leaf (buildRawModel sourceSequences) c k <> None ->
  exists choice,
    selectChoice (MarkovGenerator sourceSequences) c src pos
    = (Some choice, S pos)
    /\ leaf (buildRawModel sourceSequences) c choice <> None.
Proof.
  intros Hleaf.
  assert (Hne : sourceSequences <> []).
  { intros ->. apply Hleaf. apply raw_leaf_nil. }
  pose proof (raw_inv_buildRawModel sourceSequences) as Hinv.
  unfold leaf in Hleaf.
  destruct (obj_get (buildRawModel sourceSequences) c) as [fm|] eqn:Efm;
    [|contradiction].
  destruct (obj_get fm k) as [n|] eqn:En; [|contradiction].
  pose proof (inv_positive _ _ Hinv _ _ _ _ Efm En) as Hn.
  pose proof (MarkovGenerator_weight_entry sourceSequences c Hne) as Hw.
  rewrite Efm in Hw. simpl in Hw.
  assert (Hpos : (0 < total_weight (weigh_map fm))%N).
  { assert (Hk : obj_get (weigh_map fm) k = Some (weightedCount n))
      by (rewrite obj_get_weigh_map, En; reflexivity).
    apply total_weight_ge in Hk.
    pose proof (weightedCount_positive n Hn). lia. }
  destruct (MarkovGenerator_weights _ _ _ Hw) as (fm' & Hc & Hfm' & Hnd & Htot).
  rewrite MarkovGenerator_categories, Efm in Hc. injection Hc as <-.
  destruct (selectChoice_consistent _ c src pos _ _ Hw Hpos Hfm' Hnd eq_refl)
    as (choice & (pre & post & Hkeys & _) & Hsel).
  exists choice. split; [assumption|].
  assert (Hin : In choice (insertion_order fm)).
  { rewrite <- insertion_order_weigh_map. apply in_Object_keys.
    rewrite Hkeys. apply in_app_iff. right. now left. }
  destruct (obj_key_get _ _ _ Hin) as [v Hv].
  unfold leaf. rewrite Efm, Hv. discriminate.
Qed.

(** A category without a recorded choice gives [false], without a draw. *)
Lemma trained_select_none sourceSequences c src pos :
  (forall k, leaf (buildRawModel sourceSequences) c k = None) ->
  selectChoice (MarkovGenerator sourceSequences) c src pos = (None, pos).
Proof.
  intros Hnone.
  destruct sourceSequences as [|s rest]; [reflexivity|].
  pose proof (MarkovGenerator_weight_entry (s :: rest) c) as Hw.
  specialize (Hw ltac:(discriminate)).
  destruct (obj_get (buildRawModel (s :: rest)) c) as [fm|] eqn:Efm.
  - simpl in Hw. destruct fm as [|[k n] fm].
    + eapply selectChoice_no_weight;
        [exact Hw | unfold total_weight, weigh_map; simpl; lia].
    + specialize (Hnone k). unfold leaf in Hnone. rewrite Efm in Hnone.
      simpl in Hnone. rewrite str_eqb_refl in Hnone. discriminate.
  - now apply selectChoice_no_entry.
Qed.

(** On the model of any training data, [selectChoice] returns [false],
    without drawing, exactly for the categories in which nothing was
    recorded, and for the others it draws once and returns a choice that
    was recorded in the category. *)
Theorem selectChoice_trained (sourceSequences : list jsstring)
    (c : jsstring) (src : random_source) (pos : nat) :
  let m := MarkovGenerator sourceSequences in
  ((forall k, ~ recorded sourceSequences c k) ->
   selectChoice m c src pos = (None, pos))
  /\ (forall k, recorded sourceSequences c k ->
        exists choice,
          selectChoice m c src pos = (Some choice, S pos)
          /\ recorded sourceSequences c choice).
Proof.
  intros m. split.
  - intros Hnone. apply trained_select_none. intros k.
    destruct (leaf (buildRawModel sourceSequences) c k) eqn:E; [|reflexivity].
    exfalso. apply (Hnone k). apply raw_leaf_recorded. congruence.
  - intros k Hk. apply raw_leaf_recorded in Hk.
    destruct (trained_select_some sourceSequences c k src pos Hk)
      as (choice & Hsel & Hleaf).
    exists choice. split; [assumption | now apply raw_leaf_recorded].
Qed.

Lemma selectChoice_trained_witness :
  selectChoice (MarkovGenerator [lit "ab"; lit "cdef"]) (lit "b")
    second_half 0 = (None, 0%nat)
  /\ exists choice,
       selectChoice (MarkovGenerator [lit "ab"; lit "cdef"]) (lit "a")
         second_half 0 = (Some choice, 1%nat)
       /\ recorded [lit "ab"; lit "cdef"] (lit "a") choice.
Proof.
  split.
  - apply (selectChoice_trained [lit "ab"; lit "cdef"] (lit "b")).
    intros k Hk. apply raw_leaf_recorded in Hk. apply Hk.
    unfold leaf. reflexivity.
  - destruct (selectChoice_trained [lit "ab"; lit "cdef"] (lit "a")
                second_half 0) as [_ H].
    apply (H (lit "b")). apply raw_leaf_recorded. vm_compute. discriminate.
Defined.

(** ** [generate] on a trained model *)

Lemma recorded_termLength sourceSequences k :
  recorded sourceSequences termLength k ->
  exists term,
    training_term sourceSequences term /\ k = of_N (str_length term).
Proof.
  intros [(H & _)|[(_ & H)|[(H & _)|(p & ch & H & _)]]];
    try assumption; apply (f_equal (@List.length code_unit)) in H;
    discriminate H.
Qed.

Lemma recorded_termCount sourceSequences k :
  recorded sourceSequences termCount k ->
  exists sequence,
    In sequence sourceSequences
    /\ tokenize sequence <> []
    /\ k = of_N (N.of_nat (List.length (tokenize sequence))).
Proof.
  intros [(_ & H)|[(H & _)|[(H & _)|(p & ch & H & _)]]];
    try assumption; apply (f_equal (@List.length code_unit)) in H;
    discriminate H.
Qed.

Lemma recorded_initialUnit sourceSequences k :
  recorded sourceSequences initialUnit k ->
  exists ch, k = [ch] /\ initial_of (training_term sourceSequences) ch.
Proof.
  intros [(H & _)|[(H & _)|[(_ & H)|(p & ch & H & _)]]];
    try assumption; apply (f_equal (@List.length code_unit)) in H;
    discriminate H.
Qed.

Lemma recorded_unit sourceSequences (p : code_unit) k :
  recorded sourceSequences [p] k ->
  exists ch, k = [ch] /\ transition_of (training_term sourceSequences) p ch.
Proof.
  intros [(H & _)|[(H & _)|[(H & _)|(p' & ch & H & -> & Ht)]]];
    try (apply (f_equal (@List.length code_unit)) in H; discriminate H).
  injection H as <-. now exists ch.
Qed.

Lemma chain_like_single sourceSequences (ch : code_unit) :
  initial_of (training_term sourceSequences) ch ->
  chain_like sourceSequences [ch].
Proof.
  intros H. split; [now exists ch, []|].
  intros pre a b post E. destruct pre as [|x [|y pre]]; discriminate.
Qed.

Lemma chain_like_grow sourceSequences (pre : jsstring) (p c : code_unit) :
  chain_like sourceSequences (pre ++ [p]) ->
  transition_of (training_term sourceSequences) p c ->
  chain_like sourceSequences ((pre ++ [p]) ++ [c]).
Proof.
  intros [(ch & rest & E & Hinit) Hpairs] Ht. split.
  - exists ch, (rest ++ [c]). rewrite E. now split.
  - intros pre' a b post E'.
    destruct (list_eq_dec N.eq_dec post []) as [->|Hne].
    + assert (E2 : (pre ++ [p]) ++ [c] = (pre' ++ [a]) ++ [b])
        by (rewrite E', <- app_assoc; reflexivity).
      apply app_inj_tail in E2. destruct E2 as [E2 <-].
      apply app_inj_tail in E2. destruct E2 as [_ <-]. assumption.
    + destruct (exists_last Hne) as (post' & x & ->).
      assert (E2 : (pre ++ [p]) ++ [c] = (pre' ++ a :: b :: post') ++ [x])
        by (rewrite E', <- app_assoc; reflexivity).
      apply app_inj_tail in E2. destruct E2 as [E2 _].
      eapply Hpairs; eauto.
Qed.

Lemma chain_like_observed sourceSequences term ch :
  chain_like sourceSequences term -> In ch term ->
  observed sourceSequences ch.
Proof.
  intros [(c0 & rest & E & Hinit) Hpairs] Hin.
  apply in_split in Hin. destruct Hin as (l1 & l2 & El).
  destruct (list_eq_dec N.eq_dec l1 []) as [->|Hne].
  - left. rewrite E in El. simpl in El. now injection El as ->.
  - right. destruct (exists_last Hne) as (l1' & a & ->).
    exists a. apply (Hpairs l1' a ch l2).
    rewrite El, <- app_assoc. reflexivity.
Qed.

Lemma observed_not_space sourceSequences ch :
  observed sourceSequences ch -> is_space ch = false.
Proof.
  intros H. apply observed_in_training in H.
  destruct H as (s & t & _ & Ht & Hch).
  apply tokenize_space_free in Ht. unfold space_free in Ht.
  rewrite forallb_forall in Ht. specialize (Ht ch Hch).
  now apply negb_true_iff in Ht.
Qed.

Lemma chain_like_token sourceSequences term :
  chain_like sourceSequences term ->
  term <> [] /\ space_free term = true.
Proof.
  intros H. split.
  - destruct H as [(ch & rest & -> & _) _]. discriminate.
  - unfold space_free. apply forallb_forall. intros ch Hch.
    apply negb_true_iff. eapply observed_not_space.
    eapply chain_like_observed; eauto.
Qed.

Section TrainedGenerate.

Variable sourceSequences : list jsstring.

(** The growth of a term on the trained model keeps to the chain and to
    the target length. *)
Lemma grow_term_trained (z : Z) src fuel :
  forall pre p pos term pos',
    chain_like sourceSequences (pre ++ [p]) ->
    (Z.of_N (str_length (pre ++ [p])) <= z)%Z ->
    grow_term (MarkovGenerator sourceSequences) (Some z) fuel
      (pre ++ [p]) [p] src pos = (term, pos') ->
    chain_like sourceSequences term /\ (Z.of_N (str_length term) <= z)%Z.
Proof.
  induction fuel as [|fuel IH]; intros pre p pos term pos' Hchain Hlen;
    cbn [grow_term].
  - unfold ret. intros [= <- _]. now split.
  - destruct (shorter_than (pre ++ [p]) (Some z)) eqn:Es;
      [|unfold ret; intros [= <- _]; now split].
    unfold bind.
    destruct (selectChoice _ [p] src pos) as [[next|] pos1] eqn:Esel;
      [|unfold ret; intros [= <- _]; now split].
    destruct (truthy next); [|unfold ret; intros [= <- _]; now split].
    destruct (trained_choice_ok sourceSequences [p] next src pos pos1)
      as [_ Hok]; [right; right; right; now exists p | assumption |].
    destruct (Hok p eq_refl) as (c & -> & Htrans).
    apply IH.
    + now apply chain_like_grow.
    + unfold shorter_than in Es. apply Z.ltb_lt in Es.
      unfold str_length in Es |- *. repeat rewrite length_app in Es.
      repeat rewrite length_app. cbn [List.length] in Es |- *. lia.
Qed.

Hypothesis trained : exists term, training_term sourceSequences term.

Lemma trained_termLength src pos :
  exists term,
    training_term sourceSequences term
    /\ selectChoice (MarkovGenerator sourceSequences) termLength src pos
       = (Some (of_N (str_length term)), S pos).
Proof.
  destruct trained as (t & Ht).
  destruct (trained_select_some sourceSequences termLength
              (of_N (str_length t)) src pos) as (choice & Hsel & Hleaf).
  { apply raw_leaf_recorded. right. left. split; [reflexivity|]. now exists t. }
  apply raw_leaf_recorded, recorded_termLength in Hleaf.
  destruct Hleaf as (term & Hterm & ->). now exists term.
Qed.

Lemma trained_initialUnit src pos :
  exists ch,
    initial_of (training_term sourceSequences) ch
    /\ selectChoice (MarkovGenerator sourceSequences) initialUnit src pos
       = (Some [ch], S pos).
Proof.
  destruct trained as (t & Ht).
  assert (Hne : t <> []).
  { destruct Ht as (s & _ & Ht). eapply tokenize_nonempty; eauto. }
  destruct t as [|c0 rest]; [contradiction|].
  destruct (trained_select_some sourceSequences initialUnit [c0] src pos)
    as (choice & Hsel & Hleaf).
  { apply raw_leaf_recorded. right. right. left. split; [reflexivity|].
    exists c0. split; [reflexivity|]. now exists (c0 :: rest), rest. }
  apply raw_leaf_recorded, recorded_initialUnit in Hleaf.
  destruct Hleaf as (ch & -> & Hch). now exists ch.
Qed.

Lemma trained_termCount src pos :
  exists sequence,
    In sequence sourceSequences
    /\ tokenize sequence <> []
    /\ selectChoice (MarkovGenerator sourceSequences) termCount src pos
       = (Some (of_N (N.of_nat (List.length (tokenize sequence)))), S pos).
Proof.
  destruct trained as (t & s & Hs & Ht).
  destruct (trained_select_some sourceSequences termCount
              (of_N (N.of_nat (List.length (tokenize s)))) src pos)
    as (choice & Hsel & Hleaf).
  { apply raw_leaf_recorded. left. split; [reflexivity|].
    exists s. split; [assumption|]. split; [|reflexivity].
    intros E. rewrite E in Ht. destruct Ht. }
  apply raw_leaf_recorded, recorded_termCount in Hleaf.
  destruct Hleaf as (sequence & Hin & Hne & ->). now exists sequence.
Qed.

Lemma or_default_of_N n dflt : or_default (Some (of_N n)) dflt = of_N n.
Proof.
  unfold or_default. pose proof (of_N_nonempty n) as H.
  apply truthy_cons in H. now rewrite H.
Qed.

(** One round of the loop over the terms. *)
Lemma generate_term_trained src pos :
  exists term pos',
    generate_term (MarkovGenerator sourceSequences) src pos
    = (Returned term, pos')
    /\ plausible_term sourceSequences term.
Proof.
  destruct (trained_termLength src pos) as (t & Ht & Hlen).
  destruct (trained_initialUnit src (S pos)) as (ch & Hch & Hinit).
  assert (Hpos : (1 <= Z.of_N (str_length t))%Z).
  { destruct Ht as (s & _ & Ht). apply tokenize_nonempty in Ht.
    destruct t; [contradiction|]. unfold str_length. simpl List.length. lia. }
  unfold generate_term, bind. rewrite Hlen, Hinit.
  rewrite or_default_of_N, parseInt_String.
  change (falsy (Some [ch])) with false.
  assert (Hnp : non_positive (Some (Z.of_N (str_length t))) = false)
    by (apply Z.leb_gt; lia).
  rewrite Hnp. cbn [orb]. change (or_default (Some [ch]) []) with [ch].
  destruct (grow_term _ _ _ [ch] [ch] src (S (S pos))) as [term pos'] eqn:Eg.
  exists term, pos'. split; [reflexivity|].
  destruct (grow_term_trained _ src _ [] ch _ _ _
              (chain_like_single _ _ Hch) Hpos Eg) as [Hchain Hle].
  split; [assumption|]. exists t. split; [assumption|].
  unfold str_length in Hle. lia.
Qed.

(** The loop over the terms. *)
Lemma generate_terms_trained src n :
  forall terms pos,
    exists out pos',
      generate_terms (MarkovGenerator sourceSequences) n terms src pos
      = (Returned (terms ++ out), pos')
      /\ List.length out = n
      /\ Forall (plausible_term sourceSequences) out.
Proof.
  induction n as [|n IH]; intros terms pos.
  - exists [], pos. rewrite app_nil_r. repeat split. constructor.
  - destruct (generate_term_trained src pos) as (term & pos1 & Hterm & Hp).
    destruct (IH (terms ++ [term]) pos1) as (out & pos' & Hloop & Hlen & Hall).
    exists (term :: out), pos'. cbn [generate_terms]. unfold bind.
    rewrite Hterm, Hloop, <- app_assoc. repeat split.
    + simpl. now rewrite Hlen.
    + now constructor.
Qed.

(** A call of [generate]. *)
Lemma generate_trained src pos :
  exists terms pos' sequence,
    generate (MarkovGenerator sourceSequences) src pos
    = (Returned (join_space terms), pos')
    /\ In sequence sourceSequences
    /\ tokenize sequence <> []
    /\ List.length terms = List.length (tokenize sequence)
    /\ Forall (plausible_term sourceSequences) terms.
Proof.
  destruct (trained_termCount src pos) as (sequence & Hin & Hne & Hcount).
  unfold generate, bind. rewrite Hcount.
  rewrite or_default_of_N, parseInt_String.
  destruct (generate_terms_trained src
              (rounds (Some (Z.of_N (N.of_nat (List.length (tokenize sequence))))))
              [] (S pos)) as (out & pos' & Hloop & Hlen & Hall).
  rewrite Hloop. exists out, pos', sequence.
  repeat split; try assumption.
  rewrite Hlen. unfold rounds. lia.
Qed.

End TrainedGenerate.

(** Training data without a term: the model is the empty one. *)
Lemma buildRawModel_no_term sourceSequences :
  (forall term, ~ training_term sourceSequences term) ->
  buildRawModel sourceSequences = initial_model.
Proof.
  intros Hnone. rewrite buildRawModel_trace.
  assert (E : training_trace sourceSequences = []); [|now rewrite E].
  unfold training_trace.
  induction sourceSequences as [|s rest IH]; [reflexivity|].
  cbn [flat_map]. rewrite IH.
  - unfold sequence_trace. destruct (tokenize s) as [|t terms] eqn:Et;
      [reflexivity|].
    exfalso. apply (Hnone t). exists s. split; [now left|].
    rewrite Et. now left.
  - intros term (s' & Hs' & Ht). apply (Hnone term). exists s'.
    split; [now right | assumption].
Qed.

Lemma generate_untrained sourceSequences src pos :
  (forall term, ~ training_term sourceSequences term) ->
  generate (MarkovGenerator sourceSequences) src pos
  = (Thrown generate_error, pos).
Proof.
  intros Hnone. unfold MarkovGenerator.
  destruct sourceSequences as [|s rest]; [reflexivity|].
  cbn [List.length Nat.eqb].
  now rewrite (buildRawModel_no_term (s :: rest) Hnone).
Qed.

Lemma training_term_dec sourceSequences :
  (exists term, training_term sourceSequences term)
  \/ (forall term, ~ training_term sourceSequences term).
Proof.
  destruct (all_terms sourceSequences) as [|t terms] eqn:E.
  - right. intros term (s & Hs & Ht).
    assert (H : In term (all_terms sourceSequences))
      by (apply in_flat_map; now exists s).
    rewrite E in H. destruct H.
  - left. exists t.
    assert (H : In t (all_terms sourceSequences)) by (rewrite E; now left).
    apply in_flat_map in H. destruct H as (s & Hs & Ht). now exists s.
Qed.

(** [generate] on the model of any training data returns a string when
    the training data has a term at least, whatever the random source,
    and throws its error, without a draw, when it has none: training on
    a single usable term is enough for [generate] never to throw. *)
Theorem generate_returns_iff (sourceSequences : list jsstring)
    (src : random_source) (pos : nat) :
  let m := MarkovGenerator sourceSequences in
  ((exists s pos', generate m src pos = (Returned s, pos'))
   <-> exists term, training_term sourceSequences term)
  /\ (generate m src pos = (Thrown generate_error, pos)
      <-> forall term, ~ training_term sourceSequences term).
Proof.
  intros m. unfold m.
  destruct (training_term_dec sourceSequences) as [Hsome|Hnone].
  - destruct (generate_trained sourceSequences Hsome src pos)
      as (terms & pos' & sequence & Hgen & _).
    split; split.
    + intros _. assumption.
    + intros _. now exists (join_space terms), pos'.
    + intros H. rewrite H in Hgen. discriminate.
    + intros H. destruct Hsome as (t & Ht). now apply H in Ht.
  - pose proof (generate_untrained sourceSequences src pos Hnone) as Hgen.
    split; split.
    + intros (s & pos' & H). rewrite H in Hgen. discriminate.
    + intros (t & Ht). now apply Hnone in Ht.
    + intros _. assumption.
    + intros _. assumption.
Qed.

(** What [generate] returns on the model of the training data: the
    join of as many terms as some source string of the training data
    has; splitting the string as the trainer does gives these terms
    back; every term starts with the first unit of a term of the
    training data, goes on, unit after unit, with transitions seen in
    the training data, and is not longer than some term of the training
    data. *)
Theorem generate_shape (sourceSequences : list jsstring)
    (src : random_source) (pos : nat) (s : jsstring) (pos' : nat) :
  generate (MarkovGenerator sourceSequences) src pos = (Returned s, pos') ->
  exists terms sequence,
    s = join_space terms
    /\ tokenize s = terms
    /\ In sequence sourceSequences
    /\ tokenize sequence <> []
    /\ List.length terms = List.length (tokenize sequence)
    /\ Forall (plausible_term sourceSequences) terms.
Proof.
  intros Hgen.
  destruct (training_term_dec sourceSequences) as [Hsome|Hnone].
  - destruct (generate_trained sourceSequences Hsome src pos)
      as (terms & p & sequence & Hgen' & Hin & Hne & Hlen & Hall).
    rewrite Hgen' in Hgen. injection Hgen as <- <-.
    exists terms, sequence. repeat split; try assumption.
    apply tokenize_join_terms. apply Forall_forall. intros t Ht.
    rewrite Forall_forall in Hall. destruct (Hall t Ht) as [Hchain _].
    now apply chain_like_token in Hchain.
  - rewrite (generate_untrained sourceSequences src pos Hnone) in Hgen.
    discriminate.
Qed.

Lemma generate_shape_witness :
  exists terms sequence,
    lit "ab" = join_space terms
    /\ tokenize (lit "ab") = terms
    /\ In sequence [lit "ab"; lit "cdef"]
    /\ tokenize sequence <> []
    /\ List.length terms = List.length (tokenize sequence)
    /\ Forall (plausible_term [lit "ab"; lit "cdef"]) terms.
Proof.
  apply (generate_shape [lit "ab"; lit "cdef"] second_half 0 (lit "ab") 4).
  reflexivity.
Defined.

(** ** Sampling in proportion to the weights *)

Lemma count_interval (a w : nat) (n : nat) :
  List.length
    (filter (fun r => (N.of_nat a <=? r)%N && (r <? N.of_nat (a + w))%N)
       (List.map N.of_nat (seq 0 n)))
  = Nat.min w (n - a).
Proof.
  induction n as [|n IH]; [simpl; lia|].
  rewrite seq_S, map_app, filter_app, length_app, IH.
  cbn [Nat.add List.map filter].
  destruct (N.of_nat a <=? N.of_nat n)%N eqn:E1;
    destruct (N.of_nat n <? N.of_nat (a + w))%N eqn:E2;
    cbn [andb List.length];
    try apply N.leb_le in E1; try apply N.leb_gt in E1;
    try apply N.ltb_lt in E2; try apply N.ltb_ge in E2; lia.
Qed.

Lemma count_interval_N (a w total : N) :
  (a + w <= total)%N ->
  count_if (fun r => (a <=? r)%N && (r <? a + w)%N) (indices total) = w.
Proof.
  intros H. unfold count_if, indices.
  pose proof (count_interval (N.to_nat a) (N.to_nat w) (N.to_nat total)) as C.
  rewrite Nat2N.inj_add, !N2Nat.id in C. rewrite C. lia.
Qed.

Lemma NoDup_split_unique (k : jsstring) (pre post pre' post' : list jsstring) :
  NoDup (pre ++ k :: post) ->
  pre ++ k :: post = pre' ++ k :: post' ->
  pre = pre'.
Proof.
  revert pre'. induction pre as [|x pre IH]; intros [|y pre'] Hnd E.
  - reflexivity.
  - simpl in E. injection E as <- E. inversion Hnd as [|? ? Hnotin _]; subst.
    exfalso. apply Hnotin. apply in_app_iff. right. now left.
  - simpl in E. injection E as -> E. inversion Hnd as [|? ? Hnotin _]; subst.
    exfalso. apply Hnotin. apply in_app_iff. right. now left.
  - simpl in E. injection E as <- E. inversion Hnd as [|? ? _ Hnd']; subst.
    f_equal. now apply IH.
Qed.

Lemma walk_choices_first fm r ks :
  forall acc choice pre post,
    ks = pre ++ choice :: post ->
    (acc + cumulative fm pre <= r
     < acc + cumulative fm pre + or_zero (obj_get fm choice))%N ->
    exists choice', walk_choices fm r acc ks = Some choice'.
Proof.
  induction ks as [|k ks IH]; intros acc choice pre post E Hb.
  - destruct pre; discriminate.
  - simpl. destruct (r <? acc + or_zero (obj_get fm k))%N eqn:Hlt; [eauto|].
    apply N.ltb_ge in Hlt. destruct pre as [|x pre].
    + simpl in E. injection E as <- _. simpl in Hb. lia.
    + simpl in E. injection E as <- E. rewrite cumulative_cons in Hb.
      apply (IH _ choice pre post E). lia.
Qed.

(** In a category whose total is the sum of its weights, the index [r]
    selects the choice [k] exactly when it falls in the interval of [k]:
    after the weights of the choices before it and within its own. *)
Lemma select_at_interval m c total fm pre k post r :
  obj_get (selectionWeights m) c = Some total ->
  model_get m c = Some fm ->
  NoDup (insertion_order fm) ->
  total = total_weight fm ->
  Object_keys fm = pre ++ k :: post ->
  (r < total)%N ->
  is_choice k (select_at m c r total)
  = (cumulative fm pre <=? r)%N
    && (r <? cumulative fm pre + or_zero (obj_get fm k))%N.
Proof.
  intros Hw Hfm Hnd Htot Hks Hr.
  assert (Ht : (0 < total)%N) by lia.
  destruct (selectChoice_consistent m c (always (draw_of r total)) 0
              total fm Hw Ht Hfm Hnd Htot) as (choice & Hfirst & Hsel).
  unfold always in Hfirst. rewrite randomIndex_draw_of in Hfirst by assumption.
  unfold select_at. rewrite Hsel. cbn [fst is_choice].
  assert (Hk : first_exceeding (Object_keys fm) fm r k
               <-> (cumulative fm pre <= r
                    < cumulative fm pre + or_zero (obj_get fm k))%N).
  { split.
    - intros (pre' & post' & E & Hb). rewrite Hks in E.
      pose proof (NoDup_Object_keys _ _ Hnd) as Hnd'. rewrite Hks in Hnd'.
      rewrite (NoDup_split_unique k pre post pre' post' Hnd' E). exact Hb.
    - intros Hb. now exists pre, post. }
  destruct (str_eqb choice k) eqn:E.
  - apply str_eqb_eq in E. subst choice. apply Hk in Hfirst.
    symmetry. apply andb_true_intro.
    split; [apply N.leb_le | apply N.ltb_lt]; lia.
  - apply str_eqb_neq in E. symmetry. apply not_true_is_false. intros Hb.
    apply andb_prop in Hb. destruct Hb as [H1 H2].
    apply N.leb_le in H1. apply N.ltb_lt in H2.
    apply E. eapply first_exceeding_unique; [exact Hfirst|].
    apply Hk. lia.
Qed.

Lemma select_at_key m c total r k :
  is_choice k (select_at m c r total) = true ->
  exists fm, model_get m c = Some fm /\ In k (insertion_order fm).
Proof.
  unfold select_at, is_choice.
  destruct (selectChoice m c (always (draw_of r total)) 0)
    as [[choice|] pos'] eqn:E; [|discriminate].
  cbn [fst]. intros H. apply str_eqb_eq in H. subst choice.
  eapply selectChoice_key; eauto.
Qed.

Lemma count_if_ext_in {A} (f g : A -> bool) l :
  (forall x, In x l -> f x = g x) -> count_if f l = count_if g l.
Proof.
  intros H. unfold count_if. f_equal. f_equal.
  induction l as [|x l IH]; [reflexivity|]. simpl.
  rewrite (H x) by now left. rewrite IH; [reflexivity|].
  intros y Hy. apply H. now right.
Qed.

Lemma in_indices r total : In r (indices total) -> (r < total)%N.
Proof.
  unfold indices. intros H. apply in_map_iff in H.
  destruct H as (i & <- & Hi). apply in_seq in Hi. lia.
Qed.

(** In a category whose total is the sum of its weights, the number of
    indices below the total that select a choice is the weight of the
    choice. *)
Lemma select_at_count m c total fm k :
  obj_get (selectionWeights m) c = Some total ->
  model_get m c = Some fm ->
  NoDup (insertion_order fm) ->
  total = total_weight fm ->
  count_if (fun r => is_choice k (select_at m c r total)) (indices total)
  = or_zero (obj_get fm k).
Proof.
  intros Hw Hfm Hnd Htot.
  destruct (in_dec str_eq_dec k (Object_keys fm)) as [Hin|Hnotin].
  - apply in_split in Hin. destruct Hin as (pre & post & Hks).
    rewrite (count_if_ext_in _
               (fun r => (cumulative fm pre <=? r)%N
                         && (r <? cumulative fm pre
                                  + or_zero (obj_get fm k))%N)).
    + apply count_interval_N.
      pose proof (cumulative_Object_keys fm Hnd) as Hcum.
      rewrite Hks, cumulative_app, cumulative_cons in Hcum. lia.
    + intros r Hr. apply in_indices in Hr.
      eapply select_at_interval; eauto.
  - rewrite (count_if_ext_in _ (fun _ => false)).
    + unfold count_if.
      assert (E : filter (fun _ : N => false) (indices total) = [])
        by (induction (indices total); simpl; auto).
      rewrite E. simpl.
      destruct (obj_get fm k) eqn:Ek; [|reflexivity].
      exfalso. apply Hnotin. apply in_Object_keys.
      eauto using obj_get_some_key.
    + intros r _. apply not_true_is_false. intros H.
      apply select_at_key in H. destruct H as (fm' & Hfm' & Hk).
      rewrite Hfm in Hfm'. injection Hfm' as <-.
      apply Hnotin. now apply in_Object_keys.
Qed.

(** Sampling is in proportion to the weights.  On the model of any
    training data, in a category with the total [total], among the
    indices [0], ..., [total - 1] that [selectChoice] can compute from
    its draw, the number of those for which it returns the choice [k] is
    the weight of [k] in the category (none when [k] is not one of its
    choices). *)
Theorem selectChoice_proportional (sourceSequences : list jsstring)
    (c k : jsstring) (total : N) :
  let m := MarkovGenerator sourceSequences in
  obj_get (selectionWeights m) c = Some total ->
  count_if (fun r => is_choice k (select_at m c r total)) (indices total)
  = or_zero (leaf (categories m) c k).
Proof.
  intros m Hw.
  destruct (MarkovGenerator_weights _ _ _ Hw) as (fm & Hc & Hfm & Hnd & Htot).
  rewrite (select_at_count m c total fm k Hw Hfm Hnd Htot).
  unfold leaf, m. now rewrite Hc.
Qed.

Lemma selectChoice_proportional_witness :
  count_if (fun r => is_choice (lit "2")
                       (select_at (MarkovGenerator [lit "ab"; lit "cdef"; lit "gh"])
                          termLength r 3))
    (indices 3)
  = 2%N.
Proof.
  apply (selectChoice_proportional [lit "ab"; lit "cdef"; lit "gh"]
           termLength (lit "2") 3).
  reflexivity.
Defined.

(** ** The re-weighting keeps the order of the counts *)



(** The weight [Math.floor(Math.pow(count, 1.3))] is never below the
    count, is 0 only for the count 0, and a larger count never gets a
    smaller weight. *)
Theorem weightedCount_order (a b : N) :
  (a <= weightedCount a)%N
  /\ (weightedCount a = 0%N <-> a = 0%N)
  /\ ((a <= b)%N -> (weightedCount a <= weightedCount b)%N).
Proof.
  split; [apply weightedCount_ge|]. split; [|apply weightedCount_le].
  split.
  - pose proof (weightedCount_ge a). lia.
  - intros ->. reflexivity.
Qed.

Lemma weightedCount_order_witness :
  (weightedCount 3 <= weightedCount 7)%N.
Proof.
  apply (weightedCount_order 3 7). lia.
Defined.

(** ** Batches of [generateList] *)

Lemma push_loop_acc body src n :
  forall acc pos,
    push_loop body n acc src pos
    = match push_loop body n [] src pos with
      | (Returned out, pos') => (Returned (acc ++ out), pos')
      | (Thrown e, pos') => (Thrown e, pos')
      end.
Proof.
  induction n as [|n IH]; intros acc pos.
  - simpl. unfold ret. now rewrite app_nil_r.
  - cbn [push_loop]. unfold bind.
    destruct (body src pos) as [[s|e] pos1]; [|reflexivity].
    rewrite (IH (acc ++ [s])), (IH ([] ++ [s])).
    destruct (push_loop body n [] src pos1) as [[out|e] pos2];
      [|reflexivity].
    now rewrite <- app_assoc.
Qed.

Lemma push_loop_add body src n1 n2 :
  forall acc pos,
    push_loop body (n1 + n2) acc src pos
    = match push_loop body n1 acc src pos with
      | (Returned out, pos') => push_loop body n2 out src pos'
      | (Thrown e, pos') => (Thrown e, pos')
      end.
Proof.
  induction n1 as [|n1 IH]; intros acc pos; [reflexivity|].
  cbn [Nat.add push_loop]. unfold bind.
  destruct (body src pos) as [[s|e] pos1]; [apply IH | reflexivity].
Qed.

Lemma numToGenerate_nat (n : nat) :
  numToGenerate (inject_Z (Z.of_nat n)) = n.
Proof. unfold numToGenerate. rewrite Qfloor_Z. lia. Qed.

(** A batch of [n1 + n2] strings is a batch of [n1] followed by a batch
    of [n2] that goes on with the random source where the first one left
    it: the strings of the two batches in order when both return, and
    the error of the first batch that throws otherwise. *)
Theorem generateList_add (m : WeightedModel) (n1 n2 : nat)
    (src : random_source) (pos : nat) :
  generateList m (inject_Z (Z.of_nat (n1 + n2))) src pos
  = match generateList m (inject_Z (Z.of_nat n1)) src pos with
    | (Returned out1, pos1) =>
        match generateList m (inject_Z (Z.of_nat n2)) src pos1 with
        | (Returned out2, pos2) => (Returned (out1 ++ out2), pos2)
        | (Thrown e, pos2) => (Thrown e, pos2)
        end
    | (Thrown e, pos1) => (Thrown e, pos1)
    end.
Proof.
  unfold generateList. rewrite !numToGenerate_nat.
  rewrite !generate_loop_push_loop, push_loop_add.
  destruct (push_loop (generate m) n1 [] src pos) as [[out1|e] pos1];
    [|reflexivity].
  rewrite generate_loop_push_loop. apply push_loop_acc.
Qed.

(** ** The page: [generateNew] *)

Lemma set_add_in x y set :
  In y (Page.set_add x set) <-> y = x \/ In y set.
Proof.
  unfold Page.set_add. destruct (existsb (str_eqb x) set) eqn:E.
  - split; [tauto|]. intros [->|H]; [|assumption].
    apply existsb_exists in E. destruct E as (z & Hz & Ez).
    apply str_eqb_eq in Ez. now subst.
  - rewrite in_app_iff. simpl. split; intros; intuition congruence.
Qed.

Lemma set_add_NoDup x set : NoDup set -> NoDup (Page.set_add x set).
Proof.
  intros H. unfold Page.set_add.
  destruct (existsb (str_eqb x) set) eqn:E; [assumption|].
  apply NoDup_app; [assumption | constructor; [tauto | constructor] |].
  intros y Hy [Ey|[]]. subst y.
  assert (Hex : existsb (str_eqb x) set = true)
    by (apply existsb_exists; exists x; split;
        [assumption | apply str_eqb_refl]).
  congruence.
Qed.

Lemma set_add_length x set :
  (List.length set <= List.length (Page.set_add x set)
   <= S (List.length set))%nat.
Proof.
  unfold Page.set_add. destruct (existsb (str_eqb x) set); [lia|].
  rewrite length_app. simpl. lia.
Qed.

Lemma more_wanted_next set x requested :
  Page.more_wanted set requested = true ->
  Qle (inject_Z (Z.of_nat (List.length (Page.set_add x set)))) requested.
Proof.
  unfold Page.more_wanted. intros H. apply Qle_bool_iff in H.
  pose proof (set_add_length x set) as [_ Hlen].
  apply Qle_trans with (inject_Z (Z.of_nat (S (List.length set)))).
  - rewrite <- Zle_Qle. lia.
  - rewrite Nat2Z.inj_succ. unfold Z.succ. rewrite inject_Z_plus.
    change (inject_Z 1) with 1%Q.
    apply Qplus_le_l with (z := (- (1))%Q).
    rewrite <- Qplus_assoc, Qplus_opp_r, Qplus_0_r. exact H.
Qed.

Section PageLoop.

Variables (m : WeightedModel) (requested : Q) (src : random_source).

(** What holds of every string [generate] returns. *)
Variable P : jsstring -> Prop.

Hypothesis generate_P :
  forall pos s pos', generate m src pos = (Returned s, pos') -> P s.

(** What the page holds when the loop of [generateNew] has ended. *)
Lemma generateNew_loop_inv fuel :
  forall newTerms attempts pos outcome attempts' pos',
    NoDup newTerms ->
    Forall P newTerms ->
    (List.length newTerms <= attempts)%nat ->
    (attempts <= Page.termAttemptLimit)%nat ->
    (newTerms = []
     \/ Qle (inject_Z (Z.of_nat (List.length newTerms))) requested) ->
    (Page.termAttemptLimit - attempts <= fuel)%nat ->
    Page.generateNew_loop m requested fuel newTerms attempts src pos
    = ((outcome, attempts'), pos') ->
    (attempts <= attempts' <= Page.termAttemptLimit)%nat
    /\ match outcome with
       | Returned out =>
           NoDup out
           /\ Forall P out
           /\ (List.length out <= attempts')%nat
           /\ (out = []
               \/ Qle (inject_Z (Z.of_nat (List.length out))) requested)
           /\ (Page.more_wanted out requested = false
               \/ attempts' = Page.termAttemptLimit)
       | Thrown e =>
           exists p, generate m src p = (Thrown e, pos')
       end.
Proof.
  induction fuel as [|fuel IH];
    intros newTerms attempts pos outcome attempts' pos'
           Hnd Hall Hlen Hatt Hreq Hfuel; cbn [Page.generateNew_loop].
  - unfold ret. intros [= <- <- <-]. split; [lia|].
    repeat (split; [assumption|]). right. lia.
  - destruct (Page.more_wanted newTerms requested) eqn:Ew; cbn [andb].
    + destruct (attempts <? Page.termAttemptLimit)%nat eqn:Ea.
      * apply Nat.ltb_lt in Ea. unfold bind.
        destruct (generate m src pos) as [[s|e] pos1] eqn:Eg.
        -- intros Hloop. apply IH in Hloop.
           ++ destruct Hloop as [Hle Hout]. split; [lia | exact Hout].
           ++ now apply set_add_NoDup.
           ++ apply Forall_forall. intros y Hy. apply set_add_in in Hy.
              destruct Hy as [->|Hy]; [eapply generate_P; eauto|].
              rewrite Forall_forall in Hall. auto.
           ++ pose proof (set_add_length s newTerms). lia.
           ++ lia.
           ++ right. now apply more_wanted_next.
           ++ lia.
        -- unfold ret. intros [= <- <- <-]. split; [lia|]. now exists pos.
      * apply Nat.ltb_ge in Ea. unfold ret. intros [= <- <- <-].
        split; [lia|]. repeat (split; [assumption|]). right. lia.
    + unfold ret. intros [= <- <- <-]. split; [lia|].
      repeat (split; [assumption|]). now left.
Qed.

End PageLoop.

(** The model [generateNew] samples from. *)
Lemma generateNew_unfold st category src pos :
  Page.currentCategory st = Some category ->
  let m :=
    if str_eqb (Page.name category) (lit "Custom")
    then MarkovGenerator (Page.customData st)
    else Page.model category in
  exists outcome attempts pos',
    Page.generateNew_loop m (Page.termCount st) Page.termAttemptLimit [] 0
      src pos = ((outcome, attempts), pos')
    /\ Page.generateNew st src pos
       = ({| Page.customText := Page.customText st;
             Page.currentCategory := Page.currentCategory st;
             Page.currentGenerated :=
               match outcome with
               | Returned newTerms => newTerms
               | Thrown e => [Page.error_message e]
               end;
             Page.termAttempts := attempts;
             Page.termCount := Page.termCount st;
             Page.requestedTermCount := Page.termCount st |}, pos').
Proof.
  intros Hcat m. unfold Page.generateNew. rewrite Hcat. fold m.
  unfold bind.
  destruct (Page.generateNew_loop m _ _ [] 0 src pos)
    as [[outcome attempts] pos'].
  exists outcome, attempts, pos'. split; [reflexivity|].
  now destruct outcome.
Qed.

(** After [generateNew], for any model and any random source: at most
    500 attempts were made; and either some call of [generate] threw and
    the page shows the message made from its error, alone, or the page
    shows strings that [generate] returned, each once, no more of them
    than attempts and, when there are any, no more than requested, and
    then the loop stopped because enough strings were found or because
    the 500 attempts were used up. *)
Theorem generateNew_outcome (st : Page.State) (category : Page.CategoryData)
    (src : random_source) (pos : nat) :
  Page.currentCategory st = Some category ->
  let m :=
    if str_eqb (Page.name category) (lit "Custom")
    then MarkovGenerator (Page.customData st)
    else Page.model category in
  let st' := fst (Page.generateNew st src pos) in
  let shown := Page.currentGenerated st' in
  (Page.termAttempts st' <= 500)%nat
  /\ Page.requestedTermCount st' = Page.termCount st
  /\ ((exists e p p',
          generate m src p = (Thrown e, p')
          /\ shown = [Page.error_message e])
      \/ (NoDup shown
          /\ Forall (fun s => exists p p', generate m src p = (Returned s, p'))
               shown
          /\ (List.length shown <= Page.termAttempts st')%nat
          /\ (shown = []
              \/ Qle (inject_Z (Z.of_nat (List.length shown)))
                   (Page.termCount st))
          /\ (Page.more_wanted shown (Page.termCount st) = false
              \/ Page.termAttempts st' = 500%nat))).
Proof.
  intros Hcat m st' shown.
  destruct (generateNew_unfold st category src pos Hcat)
    as (outcome & attempts & pos' & Hloop & Hnew).
  fold m in Hloop. unfold shown, st'. rewrite Hnew. cbn [fst].
  cbn [Page.termAttempts Page.requestedTermCount Page.currentGenerated].
  pose proof (generateNew_loop_inv m (Page.termCount st) src
                (fun s => exists p p', generate m src p = (Returned s, p'))
                (fun p s p' H => ex_intro _ p (ex_intro _ p' H))
                Page.termAttemptLimit [] 0%nat pos outcome attempts pos'
                (NoDup_nil _) (Forall_nil _) (Nat.le_0_l _) (Nat.le_0_l _)
                (or_introl eq_refl) (Nat.le_sub_l _ _) Hloop) as [Hatt Hout].
  split; [exact (proj2 Hatt)|]. split; [reflexivity|].
  destruct outcome as [out|e].
  - right. exact Hout.
  - left. destruct Hout as (p & Hp). exists e, p, pos'.
    split; [exact Hp | reflexivity].
Qed.

Lemma generateNew_outcome_witness :
  (Page.termAttempts
     (fst (Page.generateNew (demo_state (lit "ab cd") 2) (always zero_draw) 0))
   <= 500)%nat.
Proof.
  destruct (generateNew_outcome (demo_state (lit "ab cd") 2)
              {| Page.name := lit "Custom"; Page.model := MarkovGenerator [] |}
              (always zero_draw) 0 eq_refl) as [H _].
  exact H.
Defined.

Lemma more_wanted_nil requested :
  Page.more_wanted [] requested = true <-> Qle 1 requested.
Proof.
  unfold Page.more_wanted. rewrite Qle_bool_iff. simpl List.length.
  change (inject_Z (Z.of_nat 0)) with 0%Q. split; intros H.
  - apply Qplus_le_l with (z := (- (1))%Q).
    rewrite Qplus_opp_r. exact H.
  - apply Qplus_le_l with (z := 1%Q).
    unfold Qminus. rewrite <- Qplus_assoc, (Qplus_comm (- (1)) 1),
      Qplus_opp_r, Qplus_0_r, Qplus_0_l. exact H.
Qed.

(** With the category Custom and a text that is empty or made of white
    space, asking for one term or more shows the error message of
    [generate], alone, without counting an attempt and without a
    draw. *)
Theorem generateNew_blank_text (st : Page.State)
    (category : Page.CategoryData) (src : random_source) (pos : nat) :
  Page.currentCategory st = Some category ->
  Page.name category = lit "Custom" ->
  forallb is_space (Page.customText st) = true ->
  Qle 1 (Page.termCount st) ->
  Page.generateNew st src pos
  = ({| Page.customText := Page.customText st;
        Page.currentCategory := Page.currentCategory st;
        Page.currentGenerated := [Page.error_message generate_error];
        Page.termAttempts := 0;
        Page.termCount := Page.termCount st;
        Page.requestedTermCount := Page.termCount st |}, pos).
Proof.
  intros Hcat Hname Hblank Hcount.
  unfold Page.generateNew. rewrite Hcat, Hname, str_eqb_refl.
  unfold Page.customData. rewrite (tokenize_spaces _ Hblank).
  unfold bind, Page.termAttemptLimit. cbn [Page.generateNew_loop].
  apply more_wanted_nil in Hcount. rewrite Hcount. reflexivity.
Qed.

Lemma generateNew_blank_text_witness :
  Page.currentGenerated
    (fst (Page.generateNew (demo_state (lit "  ") 3) (always zero_draw) 0))
  = [Page.error_message generate_error].
Proof.
  rewrite (generateNew_blank_text (demo_state (lit "  ") 3)
             {| Page.name := lit "Custom"; Page.model := MarkovGenerator [] |}
             (always zero_draw) 0 eq_refl eq_refl eq_refl).
  - reflexivity.
  - discriminate.
Defined.

(** Asking for less than one term shows nothing and makes no attempt,
    whatever the model: no message, even when [generate] would throw;
    and without a current category [generateNew] changes nothing. *)
Theorem generateNew_nothing_asked (st : Page.State)
    (src : random_source) (pos : nat) :
  (Page.currentCategory st = None -> Page.generateNew st src pos = (st, pos))
  /\ (Page.currentCategory st <> None ->
      Qlt (Page.termCount st) 1 ->
      Page.generateNew st src pos
      = ({| Page.customText := Page.customText st;
            Page.currentCategory := Page.currentCategory st;
            Page.currentGenerated := [];
            Page.termAttempts := 0;
            Page.termCount := Page.termCount st;
            Page.requestedTermCount := Page.termCount st |}, pos)).
Proof.
  split.
  - intros Hcat. unfold Page.generateNew. now rewrite Hcat.
  - intros Hcat Hcount. unfold Page.generateNew.
    destruct (Page.currentCategory st) as [category|]; [|contradiction].
    assert (Hw : Page.more_wanted [] (Page.termCount st) = false).
    { apply not_true_is_false. intros H. apply more_wanted_nil in H.
      now apply (Qlt_not_le _ _ Hcount). }
    unfold bind, Page.termAttemptLimit. cbn [Page.generateNew_loop].
    rewrite Hw. reflexivity.
Qed.

Lemma generateNew_nothing_asked_witness :
  Page.currentGenerated
    (fst (Page.generateNew (demo_state (lit "  ") 0) (always zero_draw) 0))
  = [].
Proof.
  destruct (generateNew_nothing_asked (demo_state (lit "  ") 0)
              (always zero_draw) 0) as [_ H].
  rewrite H; [reflexivity | discriminate | reflexivity].
Defined.

Lemma more_wanted_nat set (n : nat) :
  Page.more_wanted set (inject_Z (Z.of_nat n)) = true
  <-> (List.length set < n)%nat.
Proof.
  unfold Page.more_wanted. rewrite Qle_bool_iff.
  assert (E : Qeq (inject_Z (Z.of_nat n) - 1) (inject_Z (Z.of_nat n - 1))).
  { unfold Qminus, Z.sub. rewrite inject_Z_plus, inject_Z_opp. reflexivity. }
  rewrite E, <- Zle_Qle. lia.
Qed.

Lemma shown_count_nat (out : list jsstring) (n attempts : nat) :
  (out = [] \/ Qle (inject_Z (Z.of_nat (List.length out)))
                 (inject_Z (Z.of_nat n))) ->
  (Page.more_wanted out (inject_Z (Z.of_nat n)) = false
   \/ attempts = Page.termAttemptLimit) ->
  (List.length out <= n)%nat
  /\ ((attempts < 500)%nat -> List.length out = n).
Proof.
  intros Hle Hstop. split.
  - destruct Hle as [->|H]; [simpl; lia|]. rewrite <- Zle_Qle in H. lia.
  - intros Hatt. destruct Hstop as [Hw | ->];
      [|unfold Page.termAttemptLimit in Hatt; lia].
    assert (Hge : ~ (List.length out < n)%nat).
    { intros H. apply more_wanted_nat in H. congruence. }
    destruct Hle as [->|H]; [simpl in *; lia|].
    rewrite <- Zle_Qle in H. lia.
Qed.

(** On a model trained on data with a term at least, the loop of
    [generateNew] returns. *)
Lemma generateNew_loop_trained sourceSequences (requested : Q) src
    (P : jsstring -> Prop) :
  (exists term, training_term sourceSequences term) ->
  (forall pos s pos',
      generate (MarkovGenerator sourceSequences) src pos = (Returned s, pos') ->
      P s) ->
  forall pos outcome attempts pos',
    Page.generateNew_loop (MarkovGenerator sourceSequences) requested
      Page.termAttemptLimit [] 0 src pos = ((outcome, attempts), pos') ->
    (attempts <= 500)%nat
    /\ exists out,
         outcome = Returned out
         /\ NoDup out
         /\ Forall P out
         /\ (out = []
             \/ Qle (inject_Z (Z.of_nat (List.length out))) requested)
         /\ (Page.more_wanted out requested = false
             \/ attempts = Page.termAttemptLimit).
Proof.
  intros Htrained HP pos outcome attempts pos' Hloop.
  pose proof (generateNew_loop_inv (MarkovGenerator sourceSequences)
                requested src P HP
                Page.termAttemptLimit [] 0%nat pos outcome attempts pos'
                (NoDup_nil _) (Forall_nil _) (Nat.le_0_l _) (Nat.le_0_l _)
                (or_introl eq_refl) (Nat.le_sub_l _ _) Hloop) as [Hatt Hout].
  split; [exact (proj2 Hatt)|].
  destruct outcome as [out|e].
  - exists out. destruct Hout as (H1 & H2 & _ & H4 & H5). now repeat split.
  - destruct Hout as (p & Hp).
    destruct (generate_trained sourceSequences Htrained src p)
      as (terms & p' & sequence & Hgen & _).
    rewrite Hgen in Hp. discriminate.
Qed.

(** With a model trained on data that has a term at least, [generateNew]
    never shows the error message: asked for [n] terms, it shows strings
    that [generate] returned on that model (joins of terms that follow
    the chain of the training data), each once, [n] of them at most, and
    exactly [n] unless the 500 attempts were used up. *)
Theorem generateNew_trained (st : Page.State) (category : Page.CategoryData)
    (sourceSequences : list jsstring) (n : nat)
    (src : random_source) (pos : nat) :
  Page.currentCategory st = Some category ->
  (if str_eqb (Page.name category) (lit "Custom")
   then MarkovGenerator (Page.customData st)
   else Page.model category) = MarkovGenerator sourceSequences ->
  (exists term, training_term sourceSequences term) ->
  Page.termCount st = inject_Z (Z.of_nat n) ->
  let st' := fst (Page.generateNew st src pos) in
  let shown := Page.currentGenerated st' in
  NoDup shown
  /\ Forall (fun s =>
               exists terms,
                 s = join_space terms
                 /\ terms <> []
                 /\ Forall (plausible_term sourceSequences) terms)
       shown
  /\ (List.length shown <= n)%nat
  /\ (Page.termAttempts st' <= 500)%nat
  /\ ((Page.termAttempts st' < 500)%nat -> List.length shown = n).
Proof.
  intros Hcat Hm Htrained Hn st' shown.
  destruct (generateNew_unfold st category src pos Hcat)
    as (outcome & attempts & pos' & Hloop & Hnew).
  cbv zeta in Hloop. rewrite Hm in Hloop.
  unfold shown, st'. rewrite Hnew. cbn [fst].
  cbn [Page.termAttempts Page.currentGenerated].
  eapply generateNew_loop_trained in Hloop; [|exact Htrained|].
  - destruct Hloop as (Hatt & out & -> & Hnd & Hall & Hle & Hstop).
    rewrite Hn in Hle, Hstop.
    destruct (shown_count_nat out n attempts Hle Hstop) as [H1 H2].
    repeat split; try assumption. exact Hall.
  - intros p s p' Hgen. cbv beta.
    destruct (generate_trained sourceSequences Htrained src p)
      as (terms & p2 & sequence & Hgen' & _ & Hne & Hlen & Hall).
    rewrite Hgen' in Hgen. injection Hgen as <- _.
    exists terms. split; [reflexivity|]. split; [|assumption].
    intros ->. simpl in Hlen. destruct (tokenize sequence); [now apply Hne|].
    discriminate.
Qed.

Lemma generateNew_trained_witness :
  (List.length
     (Page.currentGenerated
        (fst (Page.generateNew (demo_state (lit "ab cd") 1)
                (always zero_draw) 0)))
   <= 1)%nat.
Proof.
  destruct (generateNew_trained (demo_state (lit "ab cd") 1)
              {| Page.name := lit "Custom"; Page.model := MarkovGenerator [] |}
              [lit "ab"; lit "cd"] 1 (always zero_draw) 0
              eq_refl eq_refl) as (_ & _ & H & _).
  - exists (lit "ab"), (lit "ab"). split; [now left | now left].
  - reflexivity.
  - exact H.
Defined.

(** The words of a text are source strings of one term. *)
Lemma tokenize_word text word :
  In word (tokenize text) -> tokenize word = [word].
Proof.
  intros H.
  apply (tokenize_join_terms [word]). constructor; [|constructor].
  split; [eapply tokenize_nonempty | eapply tokenize_space_free]; eauto.
Qed.

(** With the category Custom and a text that has a word, [generateNew]
    trains on the words of the text, each a source string of its own:
    asked for [n] terms it never shows the error message, and every
    string it shows is one term without white space that follows the
    chain of the words; it shows [n] of them at most, each once, and
    exactly [n] unless the 500 attempts were used up. *)
Theorem generateNew_custom (st : Page.State) (category : Page.CategoryData)
    (n : nat) (src : random_source) (pos : nat) :
  Page.currentCategory st = Some category ->
  Page.name category = lit "Custom" ->
  Page.customData st <> [] ->
  Page.termCount st = inject_Z (Z.of_nat n) ->
  let st' := fst (Page.generateNew st src pos) in
  let shown := Page.currentGenerated st' in
  NoDup shown
  /\ Forall (fun s =>
               tokenize s = [s] /\ plausible_term (Page.customData st) s)
       shown
  /\ (List.length shown <= n)%nat
  /\ ((Page.termAttempts st' < 500)%nat -> List.length shown = n).
Proof.
  intros Hcat Hname Hne Hn st' shown.
  assert (Htrained : exists term, training_term (Page.customData st) term).
  { destruct (Page.customData st) as [|w ws] eqn:E; [contradiction|].
    exists w, w. split; [now left|].
    rewrite (tokenize_word (Page.customText st) w); [now left|].
    unfold Page.customData in E. rewrite E. now left. }
  destruct (generateNew_unfold st category src pos Hcat)
    as (outcome & attempts & pos' & Hloop & Hnew).
  cbv zeta in Hloop. rewrite Hname, str_eqb_refl in Hloop.
  unfold shown, st'. rewrite Hnew. cbn [fst].
  cbn [Page.termAttempts Page.currentGenerated].
  eapply generateNew_loop_trained in Hloop; [|exact Htrained|].
  - destruct Hloop as (Hatt & out & -> & Hnd & Hall & Hle & Hstop).
    rewrite Hn in Hle, Hstop.
    destruct (shown_count_nat out n attempts Hle Hstop) as [H1 H2].
    repeat split; try assumption. exact Hall.
  - intros p s p' Hgen. cbv beta.
    destruct (generate_trained (Page.customData st) Htrained src p)
      as (terms & p2 & sequence & Hgen' & Hin & _ & Hlen & Hall).
    rewrite Hgen' in Hgen. injection Hgen as <- _.
    rewrite (tokenize_word (Page.customText st) sequence Hin) in Hlen.
    destruct terms as [|t [|t2 terms]]; try discriminate Hlen.
    inversion Hall as [|? ? Ht _]; subst. cbn [join_space].
    split; [|assumption].
    apply (tokenize_join_terms [t]). constructor; [|constructor].
    destruct Ht as [Hchain _]. now apply chain_like_token in Hchain.
Qed.

Lemma generateNew_custom_witness :
  (List.length
     (Page.currentGenerated
        (fst (Page.generateNew (demo_state (lit "ab cd") 1)
                (always zero_draw) 0)))
   <= 1)%nat.
Proof.
  destruct (generateNew_custom (demo_state (lit "ab cd") 1)
              {| Page.name := lit "Custom"; Page.model := MarkovGenerator [] |}
              1 (always zero_draw) 0 eq_refl eq_refl) as (_ & _ & H & _).
  - discriminate.
  - reflexivity.
  - exact H.
Defined.

(** ** Training data put together *)

Lemma training_trace_app seqs1 seqs2 :
  training_trace (seqs1 ++ seqs2)
  = training_trace seqs1 ++ training_trace seqs2.
Proof. unfold training_trace. apply flat_map_app. Qed.

(** The counts of the raw model add up over the training data: training
    on two lists of source strings put end to end gives, for every
    category and choice, the sum of the counts of the two trainings;
    and a source string that is empty or made of white space changes
    nothing at all in the model, wherever it stands. *)
Theorem buildRawModel_additive (seqs1 seqs2 : list jsstring)
    (blank : jsstring) (c k : jsstring) :
  count_of (buildRawModel (seqs1 ++ seqs2)) c k
  = (count_of (buildRawModel seqs1) c k
     + count_of (buildRawModel seqs2) c k)%N
  /\ (forallb is_space blank = true ->
      buildRawModel (seqs1 ++ blank :: seqs2)
      = buildRawModel (seqs1 ++ seqs2)).
Proof.
  split.
  - rewrite !buildRawModel_count, training_trace_app, trace_count_app. lia.
  - intros Hblank. rewrite !buildRawModel_trace, !training_trace_app.
    unfold training_trace at 2. cbn [flat_map].
    unfold sequence_trace at 1. now rewrite (tokenize_spaces blank Hblank).
Qed.

Lemma buildRawModel_additive_witness :
  buildRawModel ([lit "ab"] ++ lit "  " :: [lit "cd"])
  = buildRawModel ([lit "ab"] ++ [lit "cd"]).
Proof.
  apply (buildRawModel_additive [lit "ab"] [lit "cd"] (lit "  ")
           termCount (lit "1")).
  reflexivity.
Defined.

(** ** What [selectChoice] may return and draw, on any model *)

(** On any model, [selectChoice] draws one value at most; without a draw
    its result is [false]; and a string it returns is a choice of the
    category: it never returns a string that is not one. *)
Theorem selectChoice_frame (m : WeightedModel) (category : jsstring)
    (src : random_source) (pos : nat) :
  let '(result, pos') := selectChoice m category src pos in
  ((pos' = pos /\ result = None) \/ pos' = S pos)
  /\ (forall choice,
         result = Some choice ->
         exists fm,
           model_get m category = Some fm
           /\ In choice (insertion_order fm)
           /\ exists total,
                obj_get (selectionWeights m) category = Some total
                /\ (0 < total)%N).
Proof.
  destruct (selectChoice m category src pos) as [result pos'] eqn:Hsel.
  destruct (selectChoice_cases m category src pos)
    as [E|(total & fm & Hw & Ht & Hfm & Hks & E)].
  - rewrite E in Hsel. injection Hsel as <- <-.
    split; [now left | discriminate].
  - pose proof Hsel as Hsel'. rewrite E in Hsel'. injection Hsel' as _ <-.
    split; [now right|].
    intros choice ->.
    destruct (selectChoice_key _ _ _ _ _ _ Hsel) as (fm' & Hfm' & Hin).
    exists fm'. split; [assumption|]. split; [assumption|]. now exists total.
Qed.

Lemma selectChoice_frame_witness :
  exists fm,
    model_get (MarkovGenerator [lit "ab"]) (lit "a") = Some fm
    /\ In (lit "b") (insertion_order fm)
    /\ exists total,
         obj_get (selectionWeights (MarkovGenerator [lit "ab"])) (lit "a")
         = Some total
         /\ (0 < total)%N.
Proof.
  pose proof (selectChoice_frame (MarkovGenerator [lit "ab"]) (lit "a")
                second_half 0) as H.
  assert (E : selectChoice (MarkovGenerator [lit "ab"]) (lit "a")
                second_half 0 = (Some (lit "b"), 1%nat)) by reflexivity.
  rewrite E in H. destruct H as [_ H]. exact (H (lit "b") eq_refl).
Defined.

(** ** The draws of [generate] on a trained model *)

Section TrainedDraws.

Variable sourceSequences : list jsstring.

Lemma trained_select_cases c src pos result pos' :
  selectChoice (MarkovGenerator sourceSequences) c src pos = (result, pos') ->
  (result = None /\ pos' = pos)
  \/ (exists choice, result = Some choice /\ pos' = S pos).
Proof.
  intros Hsel.
  destruct (obj_get (buildRawModel sourceSequences) c) as [[|[k n] fm]|] eqn:E.
  - left. rewrite trained_select_none in Hsel.
    + now injection Hsel as <- <-.
    + intros k. unfold leaf. now rewrite E.
  - right.
    destruct (trained_select_some sourceSequences c k src pos)
      as (choice & Hsome & _).
    + unfold leaf. rewrite E. simpl. rewrite str_eqb_refl. discriminate.
    + rewrite Hsome in Hsel. injection Hsel as <- <-. now exists choice.
  - left. rewrite trained_select_none in Hsel.
    + now injection Hsel as <- <-.
    + intros k. unfold leaf. now rewrite E.
Qed.

Lemma grow_term_draws len src fuel :
  forall cur p pos term pos',
    grow_term (MarkovGenerator sourceSequences) len fuel cur [p] src pos
    = (term, pos') ->
    (pos' + List.length cur = pos + List.length term)%nat.
Proof.
  induction fuel as [|fuel IH]; intros cur p pos term pos'; cbn [grow_term].
  - unfold ret. intros [= <- <-]. lia.
  - destruct (shorter_than cur len); [|unfold ret; intros [= <- <-]; lia].
    unfold bind.
    destruct (selectChoice _ [p] src pos) as [result pos1] eqn:Esel.
    destruct (trained_select_cases _ _ _ _ _ Esel)
      as [[-> ->]|(next & -> & ->)].
    + unfold ret. intros [= <- <-]. lia.
    + destruct (trained_choice_ok sourceSequences [p] next src pos (S pos))
        as [_ Hok]; [right; right; right; now exists p | assumption |].
      destruct (Hok p eq_refl) as (c & -> & _).
      cbn [truthy]. intros Hgrow. apply IH in Hgrow.
      rewrite length_app in Hgrow. simpl in Hgrow. lia.
Qed.

Lemma generate_term_draws src pos term pos' :
  generate_term (MarkovGenerator sourceSequences) src pos
  = (Returned term, pos') ->
  pos' = (pos + 1 + List.length term)%nat.
Proof.
  unfold generate_term, bind.
  destruct (selectChoice _ termLength src pos) as [len pos1] eqn:Elen.
  destruct (selectChoice _ initialUnit src pos1) as [initial pos2] eqn:Einit.
  destruct (falsy initial || _) eqn:Echeck; [discriminate|].
  apply orb_false_elim in Echeck. destruct Echeck as [Hfalsy _].
  destruct initial as [initial|]; [|discriminate].
  destruct (trained_initial sourceSequences _ _ _ _ Einit) as (ch & -> & Hch).
  destruct (trained_select_cases _ _ _ _ _ Einit) as [[[=] _]|(_ & _ & ->)].
  assert (Hlen : pos1 = S pos).
  { destruct (training_term_dec sourceSequences) as [Hsome|Hnone].
    - destruct (trained_termLength sourceSequences Hsome src pos)
        as (t & _ & H). rewrite H in Elen. now injection Elen as _ <-.
    - exfalso. destruct Hch as [(t & rest & Ht & _)|(p & t & _ & _ & Ht & _)];
        now apply Hnone in Ht. }
  subst pos1. change (or_default (Some [ch]) []) with [ch].
  destruct (grow_term _ _ _ [ch] [ch] src _) as [t pos3] eqn:Egrow.
  unfold ret. intros [= <- <-].
  apply grow_term_draws in Egrow. simpl in Egrow. lia.
Qed.

Lemma rounds_return_draws src n pos terms pos' :
  rounds_return (generate_term (MarkovGenerator sourceSequences))
    src n pos terms pos' ->
  pos' = (pos + list_sum (List.map (fun t => S (List.length t)) terms))%nat.
Proof.
  induction 1 as [|n pos s pos1 results pos2 Hterm _ IH]; [simpl; lia|].
  apply generate_term_draws in Hterm. simpl. lia.
Qed.

End TrainedDraws.

Lemma list_sum_cons (a : nat) (l : list nat) :
  list_sum (a :: l) = (a + list_sum l)%nat.
Proof. reflexivity. Qed.

Lemma length_join_space (terms : list jsstring) :
  terms <> [] ->
  S (List.length (join_space terms))
  = list_sum (List.map (fun t => S (List.length t)) terms).
Proof.
  induction terms as [|t terms IH]; intros Hne; [contradiction|].
  destruct terms as [|t2 terms].
  - simpl. lia.
  - change (join_space (t :: t2 :: terms))
      with (t ++ 32%N :: join_space (t2 :: terms)).
    rewrite length_app. cbn [List.length].
    specialize (IH ltac:(discriminate)).
    rewrite (map_cons _ t), list_sum_cons.
    set (rest := list_sum _) in *. lia.
Qed.

(** On the model of any training data, a call of [generate] that returns
    a string has drawn exactly two values more than the string has code
    units: one for the number of terms, one for the length of each term
    and one for each unit of each term; the joining spaces take the
    place of the draws of the lengths but one. *)
Theorem generate_draws (sourceSequences : list jsstring)
    (src : random_source) (pos : nat) (s : jsstring) (pos' : nat) :
  generate (MarkovGenerator sourceSequences) src pos = (Returned s, pos') ->
  pos' = (pos + List.length s + 2)%nat.
Proof.
  intros Hgen.
  destruct (training_term_dec sourceSequences) as [Hsome|Hnone];
    [|rewrite (generate_untrained _ src pos Hnone) in Hgen; discriminate].
  destruct (trained_termCount sourceSequences Hsome src pos)
    as (sequence & _ & Hne & Hcount).
  revert Hgen. unfold generate, bind. rewrite Hcount.
  rewrite or_default_of_N, parseInt_String.
  destruct (generate_terms_trained sourceSequences Hsome src
              (rounds (Some (Z.of_N (N.of_nat (List.length (tokenize sequence))))))
              [] (S pos)) as (out & p & Hloop & Hlen & _).
  rewrite Hloop. unfold ret. cbn [app]. intros [= <- <-].
  rewrite generate_terms_push_loop in Hloop.
  apply push_loop_returned in Hloop. destruct Hloop as (rs & Hrs & Hrounds).
  cbn [app] in Hrs. subst rs.
  apply rounds_return_draws in Hrounds.
  assert (Hout : out <> []).
  { intros ->. simpl in Hlen. unfold rounds in Hlen.
    destruct (tokenize sequence); [now apply Hne | simpl in Hlen; lia]. }
  pose proof (length_join_space out Hout). lia.
Qed.

Lemma generate_draws_witness : (4 = 0 + List.length (lit "ab") + 2)%nat.
Proof.
  apply (generate_draws [lit "ab"; lit "cdef"] second_half 0 (lit "ab") 4).
  reflexivity.
Defined.

(** ** Where a term stops growing *)

Section TrainedStop.

Variable sourceSequences : list jsstring.

Lemma trained_miss (p : code_unit) src pos pos' :
  selectChoice (MarkovGenerator sourceSequences) [p] src pos = (None, pos') ->
  dead_end sourceSequences p.
Proof.
  intros Hsel ch Ht.
  destruct (trained_select_some sourceSequences [p] [ch] src pos)
    as (choice & Hsome & _).
  - apply raw_leaf_recorded. right. right. right. now exists p, ch.
  - rewrite Hsome in Hsel. discriminate.
Qed.

Lemma grow_term_stop (z : Z) src fuel :
  forall pre p pos term pos',
    (rounds_needed (Some z) (pre ++ [p]) <= fuel)%nat ->
    grow_term (MarkovGenerator sourceSequences) (Some z) fuel
      (pre ++ [p]) [p] src pos = (term, pos') ->
    (z <= Z.of_N (str_length term))%Z
    \/ (exists pre' q, term = pre' ++ [q] /\ dead_end sourceSequences q).
Proof.
  induction fuel as [|fuel IH]; intros pre p pos term pos' Hfuel;
    cbn [grow_term].
  - unfold ret. intros [= <- _]. left.
    unfold rounds_needed in Hfuel. lia.
  - destruct (shorter_than (pre ++ [p]) (Some z)) eqn:Es.
    + unfold bind.
      destruct (selectChoice _ [p] src pos) as [[next|] pos1] eqn:Esel.
      * destruct (trained_choice_ok sourceSequences [p] next src pos pos1)
          as [_ Hok]; [right; right; right; now exists p | assumption |].
        destruct (Hok p eq_refl) as (c & -> & _). cbn [truthy].
        apply IH.
        pose proof (rounds_needed_app (Some z) (pre ++ [p]) [c] eq_refl).
        lia.
      * unfold ret. intros [= <- _]. right. exists pre, p.
        split; [reflexivity|]. eapply trained_miss; eauto.
    + unfold ret. intros [= <- _]. left.
      unfold shorter_than in Es. apply Z.ltb_ge in Es. exact Es.
Qed.

Hypothesis trained : exists term, training_term sourceSequences term.

Lemma generate_term_stop src pos term pos' :
  generate_term (MarkovGenerator sourceSequences) src pos
  = (Returned term, pos') ->
  plausible_term sourceSequences term
  /\ full_or_dead_end sourceSequences term.
Proof.
  destruct (generate_term_trained sourceSequences trained src pos)
    as (term' & p' & Hterm & Hplausible).
  intros Hgen. rewrite Hterm in Hgen. injection Hgen as <- <-.
  split; [assumption|].
  revert Hterm. unfold generate_term, bind.
  destruct (trained_termLength sourceSequences trained src pos)
    as (t & Ht & Hlen).
  destruct (trained_initialUnit sourceSequences trained src (S pos))
    as (ch & Hch & Hinit).
  rewrite Hlen, Hinit, or_default_of_N, parseInt_String.
  change (falsy (Some [ch])) with false.
  assert (Hpos : (1 <= Z.of_N (str_length t))%Z).
  { destruct Ht as (s & _ & Ht). apply tokenize_nonempty in Ht.
    destruct t; [contradiction|]. unfold str_length. simpl List.length. lia. }
  assert (Hnp : non_positive (Some (Z.of_N (str_length t))) = false)
    by (apply Z.leb_gt; lia).
  rewrite Hnp. cbn [orb]. change (or_default (Some [ch]) []) with [ch].
  destruct (grow_term _ _ _ [ch] [ch] src (S (S pos))) as [grown pos3] eqn:Eg.
  unfold ret. intros [= <- _].
  destruct (grow_term_trained sourceSequences _ src _ [] ch _ _ _
              (chain_like_single _ _ Hch) Hpos Eg) as [_ Hle].
  apply (grow_term_stop _ src _ [] ch) in Eg;
    [|apply rounds_needed_rounds].
  destruct Eg as [Hge|Hdead]; [left | now right].
  exists t. split; [assumption|]. unfold str_length in *. lia.
Qed.

Lemma generate_terms_stop src n :
  forall terms pos,
    exists out pos',
      generate_terms (MarkovGenerator sourceSequences) n terms src pos
      = (Returned (terms ++ out), pos')
      /\ List.length out = n
      /\ Forall (fun term => plausible_term sourceSequences term
                             /\ full_or_dead_end sourceSequences term) out.
Proof.
  induction n as [|n IH]; intros terms pos.
  - exists [], pos. rewrite app_nil_r. repeat split. constructor.
  - destruct (generate_term_trained sourceSequences trained src pos)
      as (term & pos1 & Hterm & _).
    destruct (IH (terms ++ [term]) pos1) as (out & pos' & Hloop & Hlen & Hall).
    exists (term :: out), pos'. cbn [generate_terms]. unfold bind.
    rewrite Hterm, Hloop, <- app_assoc. repeat split.
    + simpl. now rewrite Hlen.
    + constructor; [|assumption]. now apply generate_term_stop in Hterm.
Qed.

Lemma generate_trained_stop src pos :
  exists terms pos' sequence,
    generate (MarkovGenerator sourceSequences) src pos
    = (Returned (join_space terms), pos')
    /\ In sequence sourceSequences
    /\ tokenize sequence <> []
    /\ List.length terms = List.length (tokenize sequence)
    /\ Forall (fun term => plausible_term sourceSequences term
                           /\ full_or_dead_end sourceSequences term) terms.
Proof.
  destruct (trained_termCount sourceSequences trained src pos)
    as (sequence & Hin & Hne & Hcount).
  unfold generate, bind. rewrite Hcount.
  rewrite or_default_of_N, parseInt_String.
  destruct (generate_terms_stop src
              (rounds (Some (Z.of_N (N.of_nat (List.length (tokenize sequence))))))
              [] (S pos)) as (out & pos' & Hloop & Hlen & Hall).
  rewrite Hloop. exists out, pos', sequence.
  repeat split; try assumption.
  rewrite Hlen. unfold rounds. lia.
Qed.

End TrainedStop.

(** A term of [generate] is cut short only at a dead end.  On the model
    of the training data, a string that [generate] returns is the join
    of its terms, the pieces that the tokenizer of the trainer finds in
    it; there is one at least, and every one of them follows the chain
    of the training data and has the length that was sampled for it, the
    length of some term of the training data, unless it ends with a unit
    that no unit ever follows in the training data. *)
Theorem generate_full_or_dead_end (sourceSequences : list jsstring)
    (src : random_source) (pos : nat) (s : jsstring) (pos' : nat) :
  generate (MarkovGenerator sourceSequences) src pos = (Returned s, pos') ->
  s = join_space (tokenize s)
  /\ tokenize s <> []
  /\ Forall (fun term => plausible_term sourceSequences term
                         /\ full_or_dead_end sourceSequences term)
       (tokenize s).
Proof.
  intros Hgen.
  destruct (training_term_dec sourceSequences) as [Hsome|Hnone];
    [|rewrite (generate_untrained _ src pos Hnone) in Hgen; discriminate].
  destruct (generate_trained_stop sourceSequences Hsome src pos)
    as (terms & p & sequence & Hrun & _ & Hne & Hlen & Hall).
  rewrite Hrun in Hgen. injection Hgen as <- _.
  assert (Hsplit : tokenize (join_space terms) = terms).
  { apply tokenize_join_terms. eapply Forall_impl; [|exact Hall].
    intros term [[Hchain _] _]. now apply chain_like_token in Hchain. }
  rewrite Hsplit. split; [reflexivity|]. split; [|assumption].
  intros ->. destruct (tokenize sequence); [now apply Hne | discriminate].
Qed.

Lemma generate_full_or_dead_end_witness :
  lit "ab" = join_space (tokenize (lit "ab"))
  /\ tokenize (lit "ab") <> []
  /\ Forall (fun term => plausible_term [lit "ab"; lit "cdef"] term
                         /\ full_or_dead_end [lit "ab"; lit "cdef"] term)
       (tokenize (lit "ab")).
Proof.
  apply (generate_full_or_dead_end [lit "ab"; lit "cdef"] second_half 0
           (lit "ab") 4).
  reflexivity.
Defined.

(** ** Training data with a single term *)

Lemma split_unique_unit (k : code_unit) (pre post pre' post' : jsstring) :
  NoDup (pre ++ k :: post) ->
  pre ++ k :: post = pre' ++ k :: post' ->
  pre = pre' /\ post = post'.
Proof.
  revert pre'. induction pre as [|x pre IH]; intros [|y pre'] Hnd E.
  - simpl in E. injection E as E. now split.
  - simpl in E. injection E as <- E. inversion Hnd as [|? ? Hnotin _]; subst.
    exfalso. apply Hnotin. apply in_app_iff. right. now left.
  - simpl in E. injection E as -> E. inversion Hnd as [|? ? Hnotin _]; subst.
    exfalso. apply Hnotin. apply in_app_iff. right. now left.
  - simpl in E. injection E as <- E. inversion Hnd as [|? ? _ Hnd']; subst.
    destruct (IH pre' Hnd' E) as [-> ->]. now split.
Qed.

Section SingleTerm.

Variable sourceSequences : list jsstring.
Variable t : jsstring.

Hypothesis only_t : forall term, training_term sourceSequences term -> term = t.
Hypothesis distinct : NoDup t.

Lemma chain_prefix :
  forall rest a t_pre s,
    t = t_pre ++ a :: s ->
    (forall pre x y post,
        a :: rest = pre ++ x :: y :: post ->
        transition_of (training_term sourceSequences) x y) ->
    exists post, a :: s = (a :: rest) ++ post.
Proof.
  induction rest as [|b rest IH]; intros a t_pre s Ht Hpairs.
  - now exists s.
  - destruct (Hpairs [] a b rest eq_refl) as (term & pre & post & Hseen & E).
    apply only_t in Hseen. subst term.
    assert (Hnd : NoDup (pre ++ a :: b :: post)) by (rewrite <- E; exact distinct).
    rewrite Ht in E.
    destruct (split_unique_unit a pre (b :: post) t_pre s Hnd (eq_sym E))
      as [-> <-].
    destruct (IH b (t_pre ++ [a]) post) as (post' & Hpost).
    + rewrite Ht, <- app_assoc. reflexivity.
    + intros pre' x y post0 E'. apply (Hpairs (a :: pre') x y post0).
      simpl. now rewrite E'.
    + exists post'. simpl. f_equal. exact Hpost.
Qed.

Lemma single_term_reproduced (term : jsstring) :
  plausible_term sourceSequences term ->
  full_or_dead_end sourceSequences term ->
  term = t.
Proof.
  intros [[(ch & rest & -> & Hinit) Hpairs] _] Hstop.
  destruct Hinit as (t0 & rest0 & Hseen & E). pose proof (only_t _ Hseen) as Et.
  subst t0.
  destruct (chain_prefix rest ch [] rest0 (eq_sym Et) Hpairs) as (post & Hpost).
  rewrite Et in Hpost.
  destruct post as [|c post]; [now rewrite app_nil_r in Hpost|].
  exfalso. destruct Hstop as [(trained & Htr & Hlen)|(pre & q & Eq & Hdead)].
  - apply only_t in Htr. subst trained. rewrite Hpost in Hlen.
    rewrite length_app in Hlen. simpl in Hlen. lia.
  - apply (Hdead c). exists t, pre, post. split.
    + now rewrite Et in Hseen.
    + rewrite Hpost, Eq, <- app_assoc. reflexivity.
Qed.

End SingleTerm.

(** Training data with one term is memorised.  When every term of the
    training data is the same term [t], and no unit occurs twice in [t],
    a string that [generate] returns is [t] repeated, separated by single
    spaces, as many times as some training sequence has terms. *)
Theorem generate_single_term (sourceSequences : list jsstring)
    (t : jsstring) (src : random_source) (pos : nat)
    (s : jsstring) (pos' : nat) :
  (forall term, training_term sourceSequences term -> term = t) ->
  NoDup t ->
  generate (MarkovGenerator sourceSequences) src pos = (Returned s, pos') ->
  exists sequence,
    In sequence sourceSequences
    /\ tokenize sequence <> []
    /\ s = join_space (repeat t (List.length (tokenize sequence))).
Proof.
  intros Honly Hnd Hgen.
  destruct (training_term_dec sourceSequences) as [Hsome|Hnone];
    [|rewrite (generate_untrained _ src pos Hnone) in Hgen; discriminate].
  destruct (generate_trained_stop sourceSequences Hsome src pos)
    as (terms & p & sequence & Hrun & Hin & Hne & Hlen & Hall).
  rewrite Hrun in Hgen. injection Hgen as <- _.
  exists sequence. repeat split; try assumption. f_equal.
  rewrite <- Hlen. clear Hlen Hrun.
  induction Hall as [|term terms [Hp Hstop] _ IH]; [reflexivity|].
  simpl. f_equal; [|exact IH].
  exact (single_term_reproduced sourceSequences t Honly Hnd term Hp Hstop).
Qed.

Lemma generate_single_term_witness :
  exists sequence,
    In sequence [lit "cat"; lit " cat  cat "]
    /\ tokenize sequence <> []
    /\ lit "cat"
       = join_space (repeat (lit "cat") (List.length (tokenize sequence))).
Proof.
  apply (generate_single_term [lit "cat"; lit " cat  cat "] (lit "cat")
           second_half 0 (lit "cat") 5).
  - intros term (sequence & [<-|[<-|[]]] & Hterm); vm_compute in Hterm;
      repeat (destruct Hterm as [<-|Hterm]; [reflexivity|]); destruct Hterm.
  - vm_compute. repeat constructor; simpl; intuition discriminate.
  - vm_compute. reflexivity.
Defined.
